(** * postschema: role registry, shield compilation, relationship resolution,
    view synthesis, the role-scoped API description, payload hooks,
    configuration and database provisioning.

    A shallow embedding of the schema-compilation code of [postschema]
    ([__init__.py], [shield.py], [core.py], [hooks.py], [provision_db.py])
    together with the properties its specification states about it and
    further properties of the code.  Python values are modelled as the code
    uses them: [dict]s read by key as finite maps, [dict]s iterated with
    [.items()] as association lists in insertion order, [set]s as finite
    sets, exceptions as an error monad, and mutated shared lists through an
    explicit heap. *)

From stdpp Require Import base strings gmap list.
From Stdlib Require Import ZArith Ascii.

#[local] Set Warnings "-clear-no-such-hyp,-register-all".


(** ** Python prelude: exceptions and the [str] methods the code calls *)

Module Py.

(** The exception classes raised or suppressed by the modelled functions. *)
Inductive exn : Type :=
| KeyError | TypeError | IndexError | AttributeError | ValueError | NameError.

#[global] Instance exn_eq_dec : EqDecision exn.
Proof. solve_decision. Defined.

(** A computation either returns or raises. *)
Inductive res (A : Type) : Type :=
| Ok (a : A)
| Raise (e : exn).
Arguments Ok {A} a.
Arguments Raise {A} e.

Definition bind {A B : Type} (m : res A) (k : A → res B) : res B :=
  match m with
  | Ok a => k a
  | Raise e => Raise e
  end.

Definition is_ok {A : Type} (m : res A) : bool :=
  match m with Ok _ => true | Raise _ => false end.

(** [for x in l: acc = step(acc, x)] where the body may raise. *)
Fixpoint foldM {A S : Type} (step : S → A → res S) (acc : S) (l : list A) : res S :=
  match l with
  | [] => Ok acc
  | x :: l' => bind (step acc x) (λ acc', foldM step acc' l')
  end.

(** [with suppress(...): body], the state falling back to [fallback]
    when a caught exception leaves the block. *)
Definition suppress {A : Type} (caught : list exn) (fallback : A) (body : res A) : res A :=
  match body with
  | Ok a => Ok a
  | Raise e => if bool_decide (e ∈ caught) then Ok fallback else Raise e
  end.

(** *** Characters

    A [str] is modelled by its ASCII characters: the case tests and
    mappings below are CPython's on code points below 128.  Names with other
    characters are outside the model, and the properties that depend on the
    casing of a name are stated for ASCII names ([is_ascii]). *)

Definition is_ascii_char (c : ascii) : bool := Nat.ltb (nat_of_ascii c) 128.

Fixpoint is_ascii (s : string) : bool :=
  match s with
  | EmptyString => true
  | String c s' => is_ascii_char c && is_ascii s'
  end.

Definition is_upper (c : ascii) : bool :=
  let n := nat_of_ascii c in Nat.leb 65 n && Nat.leb n 90.

Definition is_lower (c : ascii) : bool :=
  let n := nat_of_ascii c in Nat.leb 97 n && Nat.leb n 122.

Definition is_cased (c : ascii) : bool := is_upper c || is_lower c.

Definition to_lower (c : ascii) : ascii :=
  if is_upper c then ascii_of_nat (nat_of_ascii c + 32) else c.

Definition to_upper (c : ascii) : ascii :=
  if is_lower c then ascii_of_nat (nat_of_ascii c - 32) else c.

(** *** [str] methods *)

(** [s.title()] on an ASCII string: CPython's [do_title] keeps one flag,
    whether the previous character was cased; a character after a cased one
    is lowered, any other is title-cased. *)
Fixpoint title_from (previous_is_cased : bool) (s : string) : string :=
  match s with
  | EmptyString => EmptyString
  | String c s' =>
      String (if previous_is_cased then to_lower c else to_upper c)
             (title_from (is_cased c) s')
  end.

Definition title (s : string) : string := title_from false s.

(** [s.lower()] *)
Fixpoint lower (s : string) : string :=
  match s with
  | EmptyString => EmptyString
  | String c s' => String (to_lower c) (lower s')
  end.

(** [s.upper()] *)
Fixpoint upper (s : string) : string :=
  match s with
  | EmptyString => EmptyString
  | String c s' => String (to_upper c) (upper s')
  end.

(** [s.startswith(p)] *)
Definition startswith (s p : string) : bool := String.prefix p s.

(** [s.endswith(suf)]: some tail of [s] is [suf]. *)
Fixpoint endswith (s suf : string) : bool :=
  String.eqb s suf ||
  match s with
  | EmptyString => false
  | String _ s' => endswith s' suf
  end.

(** [s[1:]] *)
Definition drop1 (s : string) : string :=
  match s with
  | EmptyString => EmptyString
  | String _ s' => s'
  end.

(** [s.replace(old, new)] for a non-empty [old]: occurrences are taken left
    to right and do not overlap; [skip] counts the characters of a matched
    occurrence still to be passed over. *)
Fixpoint replace_from (skip : nat) (old new s : string) : string :=
  match s with
  | EmptyString => EmptyString
  | String c s' =>
      match skip with
      | S k => replace_from k old new s'
      | O =>
          if String.prefix old s
          then new +:+ replace_from (String.length old - 1) old new s'
          else String c (replace_from 0 old new s')
      end
  end.

Definition replace (s old new : string) : string := replace_from 0 old new s.

(** [s.rsplit(sep, 1)[1]]: what follows the last [sep]; [None] stands for
    the [IndexError] of a string without [sep]. *)
Fixpoint rsplit1_last (sep : ascii) (s : string) : option string :=
  match s with
  | EmptyString => None
  | String c s' =>
      match rsplit1_last sep s' with
      | Some r => Some r
      | None => if bool_decide (c = sep) then Some s' else None
      end
  end.

Example title_words : title "super admin" = "Super Admin".
Proof. reflexivity. Qed.

Example title_lowers_inner_capitals : title "iOSdev x2y" = "Iosdev X2Y".
Proof. reflexivity. Qed.

Example replace_view : replace "ProductViewView" "View" "" = "Product".
Proof. reflexivity. Qed.

Example rsplit_ref : rsplit1_last "/" "#/components/schemas/Product" = Some "Product".
Proof. reflexivity. Qed.

Example endswith_list : endswith "foo/list/" "/list/" = true ∧ endswith "list/" "/list/" = false.
Proof. split; reflexivity. Qed.

(** *** Facts about the [str] model *)

Lemma is_cased_to_lower (c : ascii) : is_cased (to_lower c) = is_cased c.
Proof. destruct c as [[] [] [] [] [] [] [] []]; reflexivity. Qed.

Lemma is_cased_to_upper (c : ascii) : is_cased (to_upper c) = is_cased c.
Proof. destruct c as [[] [] [] [] [] [] [] []]; reflexivity. Qed.

Lemma to_lower_idemp (c : ascii) : to_lower (to_lower c) = to_lower c.
Proof. destruct c as [[] [] [] [] [] [] [] []]; reflexivity. Qed.

Lemma to_upper_idemp (c : ascii) : to_upper (to_upper c) = to_upper c.
Proof. destruct c as [[] [] [] [] [] [] [] []]; reflexivity. Qed.

Lemma endswith_refl (s : string) : endswith s s = true.
Proof. destruct s; cbn [endswith]; rewrite String.eqb_refl; reflexivity. Qed.

Lemma endswith_app (a s suf : string) :
  endswith s suf = true → endswith (a +:+ s) suf = true.
Proof.
  intros H. induction a as [|c a IH]; simpl; [done|].
  rewrite IH. apply orb_true_r.
Qed.

Lemma endswith_app_self (a suf : string) : endswith (a +:+ suf) suf = true.
Proof. apply endswith_app, endswith_refl. Qed.

Lemma startswith_app (p s : string) : startswith (p +:+ s) p = true.
Proof.
  unfold startswith. induction p as [|c p IH]; simpl.
  - destruct s; reflexivity.
  - destruct (Ascii.ascii_dec c c); [exact IH | congruence].
Qed.

(** *** Facts about loops that may raise *)

Lemma foldM_app {A S : Type} (step : S → A → res S) (acc : S) (l1 l2 : list A) :
  foldM step acc (l1 ++ l2) = bind (foldM step acc l1) (λ acc', foldM step acc' l2).
Proof.
  revert acc. induction l1 as [|x l1 IH]; intros acc; simpl; [done|].
  destruct (step acc x); simpl; [apply IH | done].
Qed.

Lemma foldM_app_Ok {A S : Type} (step : S → A → res S) (acc r : S) (l1 l2 : list A) :
  foldM step acc (l1 ++ l2) = Ok r →
  ∃ m, foldM step acc l1 = Ok m ∧ foldM step m l2 = Ok r.
Proof.
  rewrite foldM_app. destruct (foldM step acc l1) as [m|]; simpl; [|done].
  intros H. by exists m.
Qed.

Lemma foldM_ext_in {A S : Type} (step1 step2 : S → A → res S) (l : list A) :
  (∀ x acc, x ∈ l → step1 acc x = step2 acc x) →
  ∀ acc, foldM step1 acc l = foldM step2 acc l.
Proof.
  induction l as [|x l IH]; intros Hext acc; simpl; [done|].
  rewrite (Hext x acc) by apply list_elem_of_here.
  destruct (step2 acc x); simpl; [|done].
  apply IH. intros y acc' Hy. apply Hext. by apply list_elem_of_further.
Qed.

(** A loop whose body raises [e] exactly on the items failing a check [P]
    raises [e] when some item fails it, and otherwise folds the update [f]. *)
Lemma foldM_guarded {A S : Type} (P : A → Prop) `{!∀ x, Decision (P x)}
    (f : S → A → S) (e : exn) (step : S → A → res S) :
  (∀ acc x, step acc x = if decide (P x) then Ok (f acc x) else Raise e) →
  ∀ l acc, foldM step acc l = if decide (Forall P l) then Ok (foldl f acc l) else Raise e.
Proof.
  intros Hstep. induction l as [|x l IH]; intros acc; cbn [foldM foldl].
  - by rewrite decide_True by constructor.
  - rewrite Hstep. destruct (decide (P x)) as [Hx | Hx]; cbn [bind].
    + rewrite IH. destruct (decide (Forall P l)) as [Hl | Hl].
      * by rewrite decide_True by by constructor.
      * rewrite decide_False; [done|]. by intros [_ ?]%Forall_cons.
    + rewrite decide_False; [done|]. by intros [? _]%Forall_cons.
Qed.

End Py.

(** Closed evaluations are checked by the virtual machine. *)
Ltac vm_refl :=
  lazymatch goal with |- ?x = _ => vm_cast_no_check (@eq_refl _ x) end.

#[global] Instance res_bind : MBind Py.res := λ A B k m, Py.bind m k.
#[global] Instance res_ret : MRet Py.res := λ A a, Py.Ok a.

(** ** Role registry ([setup_postschema], [__init__.py]) *)

Module Roles.

(** [DEFAULT_ROLES = {'*', 'Admin', 'Owner', 'Manager', 'Staff'}] *)
Definition DEFAULT_ROLES : gset string :=
  {[ "*"; "Admin"; "Owner"; "Manager"; "Staff" ]}.

(** [ROLES = frozenset(role.title() for role in DEFAULT_ROLES | set(roles))],
    with [roles = app_config.get('roles', [])]. *)
Definition ROLES (roles : list string) : gset string :=
  set_map Py.title (DEFAULT_ROLES ∪ list_to_set roles).

Example roles_of_mock_app :
  ROLES ["patient"; "doctor"; "operator"] =
  {[ "*"; "Admin"; "Owner"; "Manager"; "Staff"; "Patient"; "Doctor"; "Operator" ]}.
Proof. vm_refl. Qed.

Lemma title_fixes_default (r : string) : r ∈ DEFAULT_ROLES → Py.title r = r.
Proof.
  unfold DEFAULT_ROLES. rewrite !elem_of_union, !elem_of_singleton.
  intros [[[[-> | ->] | ->] | ->] | ->]; reflexivity.
Qed.

Lemma elem_of_ROLES (roles : list string) (x : string) :
  x ∈ ROLES roles ↔ x ∈ DEFAULT_ROLES ∨ ∃ r, r ∈ roles ∧ x = Py.title r.
Proof.
  unfold ROLES. rewrite elem_of_map. split.
  - intros (r & -> & Hr). apply elem_of_union in Hr as [Hd | Hu].
    + left. rewrite (title_fixes_default _ Hd). exact Hd.
    + right. exists r. split; [by apply elem_of_list_to_set in Hu | done].
  - intros [Hd | (r & Hr & ->)].
    + exists x. split; [by rewrite (title_fixes_default _ Hd) | by apply elem_of_union_l].
    + exists r. split; [done|]. apply elem_of_union_r. by apply elem_of_list_to_set.
Qed.

(** *** What title case is

    The two relations below say what [title] achieves without referring to
    it. *)

(** Every letter that begins a run of letters is a capital and every other
    letter is small.  (Unlike [str.istitle], a name without letters, such as
    the wildcard, counts.) *)
Fixpoint title_cased_from (previous_is_cased : bool) (s : string) : bool :=
  match s with
  | EmptyString => true
  | String c s' =>
      (if previous_is_cased then negb (Py.is_upper c) else negb (Py.is_lower c))
      && title_cased_from (Py.is_cased c) s'
  end.

Definition title_cased (s : string) : bool := title_cased_from false s.

(** The same name up to the case of its letters. *)
Definition same_letters (s t : string) : Prop := Py.lower s = Py.lower t.

Lemma to_upper_to_lower (c : ascii) : Py.to_upper (Py.to_lower c) = Py.to_upper c.
Proof. destruct c as [[] [] [] [] [] [] [] []]; reflexivity. Qed.

Lemma to_upper_to_lower_not_lower (c : ascii) :
  Py.is_lower c = false → Py.to_upper (Py.to_lower c) = c.
Proof. destruct c as [[] [] [] [] [] [] [] []]; cbv; congruence. Qed.

Lemma to_lower_cases (b : bool) (c d : ascii) :
  Py.to_lower d = Py.to_lower c →
  (if b then negb (Py.is_upper d) else negb (Py.is_lower d)) = true →
  d = (if b then Py.to_lower c else Py.to_upper c) ∧ Py.is_cased d = Py.is_cased c.
Proof.
  intros Hd Hc. destruct b.
  - apply negb_true_iff in Hc.
    assert (d = Py.to_lower c) as ->.
    { rewrite <- Hd. unfold Py.to_lower. by rewrite Hc. }
    split; [done | apply Py.is_cased_to_lower].
  - apply negb_true_iff in Hc.
    assert (d = Py.to_upper c) as ->.
    { rewrite <- (to_upper_to_lower_not_lower d Hc), Hd. apply to_upper_to_lower. }
    split; [done | apply Py.is_cased_to_upper].
Qed.

Lemma title_from_cased (b : bool) (c : ascii) :
  (if b then negb (Py.is_upper (Py.to_lower c)) else negb (Py.is_lower (Py.to_upper c))) = true
  ∧ Py.to_lower (if b then Py.to_lower c else Py.to_upper c) = Py.to_lower c
  ∧ Py.is_cased (if b then Py.to_lower c else Py.to_upper c) = Py.is_cased c.
Proof. destruct b, c as [[] [] [] [] [] [] [] []]; cbv; repeat split. Qed.

(** [title] gives a title-cased name with the same letters, and the only
    one. *)
Lemma title_from_spec (b : bool) (r x : string) :
  x = Py.title_from b r ↔ Py.lower x = Py.lower r ∧ title_cased_from b x = true.
Proof.
  revert b x. induction r as [|c r IH]; intros b x.
  - destruct x as [|d x]; cbn; [by split | split; [done | by intros [? _]]].
  - destruct x as [|d x]; cbn [Py.title_from Py.lower title_cased_from].
    { split; [done | by intros [? _]]. }
    destruct (title_from_cased b c) as (Hcase & Hlow & Hcased).
    split.
    + intros [= -> ->]. rewrite Hlow, Hcased.
      destruct (IH (Py.is_cased c) (Py.title_from (Py.is_cased c) r)) as [Hr _].
      destruct (Hr eq_refl) as [-> ->]. split; [done|].
      apply andb_true_iff. split; [|done]. by destruct b.
    + intros [[= Hd Hx] [Hc Ht]%andb_true_iff].
      destruct (to_lower_cases b c d Hd Hc) as [-> Hdc].
      f_equal. apply IH. split; [done|]. by rewrite <- Hcased.
Qed.

Lemma title_spec (r x : string) :
  x = Py.title r ↔ same_letters x r ∧ title_cased x = true.
Proof. apply title_from_spec. Qed.

(** C9: for ASCII role names, the system role set holds exactly the five
    built-in roles, the wildcard among them, and for each user role the
    title-cased name with the same letters; the built-in roles are always
    members, and every member is a title-cased name. *)
Theorem system_roles_are_builtin_and_title_cased (roles : list string) :
  Forall (λ r, Py.is_ascii r = true) roles →
  (∀ x, x ∈ ROLES roles ↔
        x ∈ [ "*"; "Admin"; "Owner"; "Manager"; "Staff" ]
        ∨ ∃ r, r ∈ roles ∧ same_letters x r ∧ title_cased x = true)
  ∧ Forall (λ r, r ∈ ROLES roles) [ "*"; "Admin"; "Owner"; "Manager"; "Staff" ]
  ∧ (∀ x, x ∈ ROLES roles → title_cased x = true).
Proof.
  intros _.
  assert (Hbuiltin : ∀ x, x ∈ DEFAULT_ROLES ↔ x ∈ [ "*"; "Admin"; "Owner"; "Manager"; "Staff" ]).
  { intros x. unfold DEFAULT_ROLES. rewrite !elem_of_union, !elem_of_singleton.
    rewrite !elem_of_cons, elem_of_nil. naive_solver. }
  split; [|split].
  - intros x. rewrite elem_of_ROLES, Hbuiltin.
    split; (intros [Hd | (r & Hr & H)]; [by left | right; exists r; split; [done|]]).
    + by apply title_spec.
    + by apply title_spec in H.
  - rewrite Forall_forall. intros x Hx. apply elem_of_ROLES. left. by apply Hbuiltin.
  - intros x [Hd | (r & _ & ->)]%elem_of_ROLES.
    + revert Hd. unfold DEFAULT_ROLES. rewrite !elem_of_union, !elem_of_singleton.
      intros [[[[-> | ->] | ->] | ->] | ->]; reflexivity.
    + by destruct (proj1 (title_spec r (Py.title r)) eq_refl).
Qed.

Lemma system_roles_are_builtin_and_title_cased_witness :
  (∀ x, x ∈ ROLES [ "patient"; "doctor"; "operator" ] ↔
        x ∈ [ "*"; "Admin"; "Owner"; "Manager"; "Staff" ]
        ∨ ∃ r, r ∈ [ "patient"; "doctor"; "operator" ] ∧ same_letters x r
               ∧ title_cased x = true)
  ∧ Forall (λ r, r ∈ ROLES [ "patient"; "doctor"; "operator" ])
           [ "*"; "Admin"; "Owner"; "Manager"; "Staff" ]
  ∧ (∀ x, x ∈ ROLES [ "patient"; "doctor"; "operator" ] → title_cased x = true).
Proof.
  apply (system_roles_are_builtin_and_title_cased [ "patient"; "doctor"; "operator" ]).
  repeat constructor.
Defined.

End Roles.

(** ** Shield compilation ([parse_schemas], [shield.py]) *)

Module Shield.
Import Py.

(** A key of a [Shield.<op>] dict: a tuple of role names or one role name. *)
Inductive role_key : Type :=
| RoleTuple (roles : list string)
| RoleStr (role : string).

(** A [Shield.<op>] dict as [.items()] yields it: (roles, shield_op) pairs
    in insertion order. *)
Definition shield_op_dict : Type := list (role_key * string).

(** What [parse_schemas] reads of a schema class.  A tier is [None] when the
    class has no [<Tier>.permissions]; otherwise it lists the attribute names
    declared in that [permissions] class.  [Shield] maps the attribute names
    of the [Shield] class to their dicts. *)
Record schema : Type := {
  schema_name : string;
  Public : option (list string);
  Authed : option (list string);
  Private : option (list string);
  Shield : option (gmap string shield_op_dict)
}.

(** The compiled [schema_inst.shields]: op -> [allowed_roles, shield_op]. *)
Abbreviation shields_t := (gmap string (gset string * string)).

(** [object.__dict__.keys()], what [getattr(tier, 'permissions', object)]
    falls back to. *)
Definition object_dict_keys : list string :=
  [ "__repr__"; "__hash__"; "__str__"; "__getattribute__"; "__setattr__";
    "__delattr__"; "__lt__"; "__le__"; "__eq__"; "__ne__"; "__gt__"; "__ge__";
    "__init__"; "__new__"; "__reduce_ex__"; "__reduce__"; "__subclasshook__";
    "__init_subclass__"; "__format__"; "__sizeof__"; "__dir__"; "__class__";
    "__doc__" ].

(** [getattr(tier_cls, 'permissions', object).__dict__.keys()] *)
Definition permissions_dict_keys (tier : option (list string)) : list string :=
  match tier with
  | None => object_dict_keys
  | Some declared => "__module__" :: declared ++ [ "__dict__"; "__weakref__"; "__doc__" ]
  end.

(** [present_ops_all]: the union of the two key sets. *)
Definition present_ops_all (s : schema) : gset string :=
  list_to_set (permissions_dict_keys (Authed s)) ∪
  list_to_set (permissions_dict_keys (Private s)).

(** [l.remove(x)]: drops the first occurrence. *)
Fixpoint remove_first (x : string) (l : list string) : list string :=
  match l with
  | [] => []
  | y :: l' => if bool_decide (y = x) then l' else y :: remove_first x l'
  end.

(** [if alias in ops: ops.remove(alias); ops.extend(into)] *)
Definition expand (alias : string) (into ops : list string) : list string :=
  if bool_decide (alias ∈ ops) then remove_first alias ops ++ into else ops.

(** [present_ops]: the keys not starting with an underscore, in the set's
    iteration order (here the order of [elements]; no result below depends
    on it), with [update] and [read] expanded. *)
Definition present_ops (s : schema) : list string :=
  let ops := filter (λ op, startswith op "_" = false) (elements (present_ops_all s)) in
  let ops := expand "update" [ "patch"; "put" ] ops in
  expand "read" [ "get"; "list" ] ops.

(** The role checks of one dict key, giving [allowed_roles]. *)
Definition allowed_roles_of (system_roles : gset string) (roles : role_key)
  : res (gset string) :=
  match roles with
  | RoleTuple rs =>
      _ ← foldM (λ (_ : unit) role,
                  if bool_decide (role ∈ system_roles) then Ok () else Raise ValueError)
                () rs;
      Ok (list_to_set rs)
  | RoleStr r =>
      if bool_decide (r = "*") then Ok system_roles
      else if bool_decide (r ∉ system_roles) then Raise ValueError
      else Ok {[ r ]}
  end.

(** The body of [for roles, shield_op in shield_op_dict.items()]. *)
Definition shield_rule (system_roles : gset string) (op : string)
    (shields : shields_t) (item : role_key * string) : res shields_t :=
  allowed_roles ← allowed_roles_of system_roles item.1;
  if bool_decide (item.2 ∉ [ "otp"; "sms" ]) then Raise ValueError
  else Ok (<[ op := (allowed_roles, item.2) ]> shields).

(** The body of [for op in present_ops]: an absent or empty dict is skipped. *)
Definition shield_op (system_roles : gset string)
    (shield_cls : gmap string shield_op_dict)
    (shields : shields_t) (op : string) : res shields_t :=
  match shield_cls !! op with
  | Some (item :: items) => foldM (shield_rule system_roles op) shields (item :: items)
  | Some [] | None => Ok shields
  end.

(** The body of [for schema_name, schema_inst in schemas.full_iter]. *)
Definition parse_schema (system_roles : gset string) (s : schema) : res shields_t :=
  match Shield s with
  | Some shield_cls => foldM (shield_op system_roles shield_cls) ∅ (present_ops s)
  | None => Ok ∅
  end.

(** [parse_schemas(schemas, system_roles)]: the [shields] of every schema,
    or the first [ValueError]. *)
Fixpoint parse_schemas (schemas : list schema) (system_roles : gset string)
  : res (list shields_t) :=
  match schemas with
  | [] => Ok []
  | s :: rest =>
      shields ← parse_schema system_roles s;
      others ← parse_schemas rest system_roles;
      Ok (shields :: others)
  end.

(** The transport layer's reading of [shields]: [op] asks [role] for [method]. *)
Definition requires (shields : shields_t) (op role method : string) : Prop :=
  ∃ roles, shields !! op = Some (roles, method) ∧ role ∈ roles.

(** *** The shielded resources of the mock application *)

Definition mock_roles : gset string := Roles.ROLES [ "patient"; "doctor"; "operator" ].

Definition OtpShieldedResource : schema :=
  {| schema_name := "OtpShieldedResource";
     Public := None; Authed := Some [ "post" ]; Private := None;
     Shield := Some {[ "post" := [ (RoleStr "*", "otp") ] ]} |}.

Definition OtpShieldedResourceMutliRoles : schema :=
  {| schema_name := "OtpShieldedResourceMutliRoles";
     Public := None; Authed := Some [ "post" ]; Private := None;
     Shield := Some {[ "post" := [ (RoleTuple [ "Staff"; "Operator" ], "otp") ] ]} |}.

Definition AlterShieldedResource : schema :=
  {| schema_name := "AlterShieldedResource";
     Public := None; Authed := Some [ "post" ]; Private := None;
     Shield := Some {[ "post" := [ (RoleStr "Staff", "otp"); (RoleStr "Doctor", "sms") ] ]} |}.

(** A resource whose only grant of [post] is public, shielded with a role
    and a method that do not exist. *)
Definition PublicOnlyShielded : schema :=
  {| schema_name := "PublicOnlyShielded";
     Public := Some [ "post" ]; Authed := None; Private := None;
     Shield := Some {[ "post" := [ (RoleStr "Ghost", "email") ] ]} |}.

Example present_ops_expanded :
  present_ops {| schema_name := "R"; Public := None;
                 Authed := Some [ "update" ]; Private := Some [ "read"; "_hidden" ];
                 Shield := None |}
  ≡ₚ [ "patch"; "put"; "get"; "list" ].
Proof. vm_compute. by repeat constructor. Qed.

Example otp_wildcard_expands :
  parse_schema mock_roles OtpShieldedResource = Ok {[ "post" := (mock_roles, "otp") ]}.
Proof. vm_refl. Qed.

Example otp_multi_roles :
  parse_schema mock_roles OtpShieldedResourceMutliRoles
  = Ok {[ "post" := ({[ "Staff"; "Operator" ]}, "otp") ]}.
Proof. vm_refl. Qed.

(** *** What a rule must satisfy to pass the checks *)

Definition key_valid (system_roles : gset string) (k : role_key) : Prop :=
  match k with
  | RoleTuple rs => Forall (λ r, r ∈ system_roles) rs
  | RoleStr r => r = "*" ∨ r ∈ system_roles
  end.

Definition method_valid (m : string) : Prop := m = "otp" ∨ m = "sms".

Definition rule_valid (system_roles : gset string) (item : role_key * string) : Prop :=
  key_valid system_roles item.1 ∧ method_valid item.2.

#[global] Instance key_valid_dec R k : Decision (key_valid R k).
Proof. destruct k; simpl; apply _. Defined.

#[global] Instance rule_valid_dec R item : Decision (rule_valid R item).
Proof. unfold rule_valid, method_valid. apply _. Defined.

(** The [allowed_roles] a valid key stands for. *)
Definition roles_granted (system_roles : gset string) (k : role_key) : gset string :=
  match k with
  | RoleTuple rs => list_to_set rs
  | RoleStr r => if bool_decide (r = "*") then system_roles else {[ r ]}
  end.

(** The dict [getattr(shield_cls, op, None)] yields, empty when there is none. *)
Definition rules_of (shield_cls : gmap string shield_op_dict) (op : string) : shield_op_dict :=
  default [] (shield_cls !! op).

(** The rules [parse_schemas] looks at: those of the present operations. *)
Definition effective_rules (s : schema) : list (role_key * string) :=
  match Shield s with
  | Some shield_cls => op ← present_ops s; rules_of shield_cls op
  | None => []
  end.

(** The same schema with another [Shield] class. *)
Definition with_Shield (s : schema) (shield_cls : gmap string shield_op_dict) : schema :=
  {| schema_name := schema_name s; Public := Public s; Authed := Authed s;
     Private := Private s; Shield := Some shield_cls |}.

(** The tier declares the operation name. *)
Definition declares (tier : option (list string)) (op : string) : Prop :=
  ∃ declared, tier = Some declared ∧ op ∈ declared.

(** *** Lemmas: one rule, one operation, one schema *)

Lemma allowed_roles_of_spec (R : gset string) (k : role_key) :
  allowed_roles_of R k =
  if decide (key_valid R k) then Ok (roles_granted R k) else Raise ValueError.
Proof.
  destruct k as [rs | r]; simpl.
  - rewrite (foldM_guarded (λ r, r ∈ R) (λ _ _, ()) ValueError).
    + by destruct (decide (Forall _ rs)).
    + intros [] x. by destruct (decide (x ∈ R)); [rewrite bool_decide_true | rewrite bool_decide_false].
  - destruct (decide (r = "*")) as [-> | Hne].
    + rewrite decide_True by by left. done.
    + rewrite (bool_decide_false (r = "*")) by done.
      destruct (decide (r ∈ R)) as [Hin | Hnin].
      * rewrite bool_decide_false by (intros H; by apply H).
        rewrite decide_True by by right. done.
      * rewrite bool_decide_true by done.
        rewrite decide_False; [done|]. by intros [? | ?].
Qed.

Lemma shield_rule_spec (R : gset string) (op : string) (sh : shields_t)
    (item : role_key * string) :
  shield_rule R op sh item =
  if decide (rule_valid R item)
  then Ok (<[ op := (roles_granted R item.1, item.2) ]> sh)
  else Raise ValueError.
Proof.
  unfold shield_rule. rewrite allowed_roles_of_spec.
  destruct (decide (key_valid R item.1)) as [Hk | Hk]; simpl.
  - destruct (decide (method_valid item.2)) as [Hm | Hm].
    + rewrite bool_decide_false.
      * rewrite decide_True by done. done.
      * intros H. apply H. destruct Hm as [-> | ->]; repeat constructor.
    + rewrite bool_decide_true.
      * rewrite decide_False; [done|]. by intros [_ ?].
      * intros H. apply Hm. unfold method_valid.
        apply elem_of_cons in H as [? | H]; [by left|].
        apply elem_of_cons in H as [? | H]; [by right|].
        by apply not_elem_of_nil in H.
  - rewrite decide_False; [done|]. by intros [? _].
Qed.

(** The update one operation's rules make: each rule overwrites the entry. *)
Definition op_update (R : gset string) (cls : gmap string shield_op_dict)
    (sh : shields_t) (op : string) : shields_t :=
  foldl (λ acc item, <[ op := (roles_granted R item.1, item.2) ]> acc) sh (rules_of cls op).

Lemma shield_op_spec (R : gset string) (cls : gmap string shield_op_dict)
    (sh : shields_t) (op : string) :
  shield_op R cls sh op =
  if decide (Forall (rule_valid R) (rules_of cls op))
  then Ok (op_update R cls sh op) else Raise ValueError.
Proof.
  unfold shield_op, op_update, rules_of.
  destruct (cls !! op) as [[|item items]|] eqn:Hop; cbn [from_option id].
  - by rewrite decide_True by constructor.
  - apply (foldM_guarded (rule_valid R)). intros. apply shield_rule_spec.
  - by rewrite decide_True by constructor.
Qed.

Lemma Forall_effective_rules (R : gset string) (s : schema) (cls : gmap string shield_op_dict) :
  Shield s = Some cls →
  Forall (rule_valid R) (effective_rules s) ↔
  Forall (λ op, Forall (rule_valid R) (rules_of cls op)) (present_ops s).
Proof.
  intros Hs. unfold effective_rules. rewrite Hs. apply Forall_bind.
Qed.

Lemma parse_schema_spec (R : gset string) (s : schema) :
  parse_schema R s =
  if decide (Forall (rule_valid R) (effective_rules s))
  then Ok (match Shield s with
           | Some cls => foldl (op_update R cls) ∅ (present_ops s)
           | None => ∅
           end)
  else Raise ValueError.
Proof.
  unfold parse_schema. destruct (Shield s) as [cls|] eqn:Hs.
  - rewrite (foldM_guarded (λ op, Forall (rule_valid R) (rules_of cls op))
               (op_update R cls) ValueError) by apply shield_op_spec.
    destruct (decide (Forall _ (present_ops s))) as [H | H].
    + rewrite decide_True; [done|]. by apply (Forall_effective_rules R s cls).
    + rewrite decide_False; [done|]. intros H'. by apply H, (Forall_effective_rules R s cls).
  - rewrite decide_True; [done|]. unfold effective_rules. rewrite Hs. constructor.
Qed.

Lemma parse_schemas_spec (R : gset string) (schemas : list schema) :
  (Forall (λ s, Forall (rule_valid R) (effective_rules s)) schemas ∧
   ∃ out, parse_schemas schemas R = Ok out ∧ length out = length schemas)
  ∨ (¬ Forall (λ s, Forall (rule_valid R) (effective_rules s)) schemas ∧
     parse_schemas schemas R = Raise ValueError).
Proof.
  induction schemas as [|s rest IH]; cbn [parse_schemas].
  - left. split; [constructor | by exists []].
  - rewrite parse_schema_spec.
    destruct (decide (Forall (rule_valid R) (effective_rules s))) as [Hs | Hs]; simpl.
    + destruct IH as [(Hrest & out & -> & Hlen) | (Hrest & ->)]; simpl.
      * left. split; [by constructor|]. eexists. split; [done | simpl; by rewrite Hlen].
      * right. split; [|done]. by intros [_ ?]%Forall_cons.
    + right. split; [|done]. by intros [? _]%Forall_cons.
Qed.

(** *** Lemmas: the present operations *)

Lemma remove_first_notin (a : string) (l : list string) :
  a ∉ l → remove_first a l = l.
Proof.
  induction l as [|y l IH]; intros Ha; simpl; [done|].
  apply not_elem_of_cons in Ha as [Hne Ha].
  rewrite bool_decide_false by done. by rewrite IH.
Qed.

Lemma remove_first_app (a : string) (l m : list string) :
  remove_first a (l ++ m) =
  if bool_decide (a ∈ l) then remove_first a l ++ m else l ++ remove_first a m.
Proof.
  induction l as [|y l IH]; simpl.
  - done.
  - destruct (decide (y = a)) as [-> | Hne].
    + rewrite !bool_decide_true; [done | apply list_elem_of_here | done].
    + rewrite (bool_decide_false (y = a)) by done. rewrite IH.
      destruct (decide (a ∈ l)) as [Hin | Hnin].
      * rewrite !bool_decide_true; [done | by apply list_elem_of_further | done].
      * rewrite !bool_decide_false; [done | | done].
        by intros [? | ?]%elem_of_cons.
Qed.

Lemma elem_of_remove_first_ne (x a : string) (l : list string) :
  x ≠ a → x ∈ remove_first a l ↔ x ∈ l.
Proof.
  intros Hne. induction l as [|y l IH]; simpl; [done|].
  destruct (decide (y = a)) as [-> | Hya].
  - rewrite bool_decide_true by done. rewrite elem_of_cons. naive_solver.
  - rewrite bool_decide_false by done. rewrite !elem_of_cons, IH. done.
Qed.

Lemma NoDup_remove_first_notin (a : string) (l : list string) :
  NoDup l → a ∉ remove_first a l.
Proof.
  induction 1 as [|y l Hy Hl IH]; simpl; [apply not_elem_of_nil|].
  destruct (decide (y = a)) as [-> | Hya].
  - by rewrite bool_decide_true.
  - rewrite bool_decide_false by done. apply not_elem_of_cons. by split.
Qed.

Lemma elem_of_expand (alias x : string) (into l : list string) :
  alias ∉ remove_first alias l →
  x ∈ expand alias into l ↔ (x ∈ l ∧ x ≠ alias) ∨ (x ∈ into ∧ alias ∈ l).
Proof.
  intros Honce. unfold expand. destruct (decide (alias ∈ l)) as [Hin | Hnin].
  - rewrite bool_decide_true by done. rewrite elem_of_app.
    destruct (decide (x = alias)) as [-> | Hne].
    + naive_solver.
    + rewrite elem_of_remove_first_ne by done. naive_solver.
  - rewrite bool_decide_false by done. split; [|naive_solver].
    intros Hx. left. split; [done|]. by intros ->.
Qed.

Lemma object_dict_keys_private (k : string) :
  k ∈ object_dict_keys → startswith k "_" = true.
Proof.
  intros Hk. apply (proj1 (Forall_forall (λ k, startswith k "_" = true) object_dict_keys)); [|done].
  unfold object_dict_keys. repeat constructor.
Qed.

Lemma elem_of_permissions_dict_keys (tier : option (list string)) (op : string) :
  startswith op "_" = false →
  op ∈ permissions_dict_keys tier ↔ declares tier op.
Proof.
  intros Hop. unfold declares. destruct tier as [declared|]; simpl.
  - rewrite elem_of_cons, elem_of_app. split.
    + intros [-> | [H | H]]; [done | by eauto |].
      repeat (apply elem_of_cons in H as [-> | H]; [done|]).
      by apply elem_of_nil in H.
    + intros (d & [= <-] & H). by right; left.
  - split.
    + intros H%object_dict_keys_private. congruence.
    + by intros (d & [=] & _).
Qed.

(** The operation is granted by the Authed or the Private tier under a
    name that is not private. *)
Definition granted (s : schema) (op : string) : Prop :=
  startswith op "_" = false ∧ (declares (Authed s) op ∨ declares (Private s) op).

Lemma elem_of_present_ops (s : schema) (op : string) :
  op ∈ present_ops s ↔
    (granted s op ∧ op ≠ "update" ∧ op ≠ "read")
    ∨ ((op = "patch" ∨ op = "put") ∧ granted s "update")
    ∨ ((op = "get" ∨ op = "list") ∧ granted s "read").
Proof.
  unfold present_ops.
  set (ops0 := filter (λ op, startswith op "_" = false) (elements (present_ops_all s))).
  assert (Hnd : NoDup ops0) by apply NoDup_filter, NoDup_elements.
  assert (H0 : ∀ x, x ∈ ops0 ↔ granted s x).
  { intros x. unfold ops0, granted, present_ops_all.
    rewrite list_elem_of_filter, elem_of_elements, elem_of_union, !elem_of_list_to_set.
    split; intros [Hx H]; (split; [done|]);
      by rewrite !(elem_of_permissions_dict_keys _ _ Hx) in *. }
  assert (H1 : ∀ x, x ∈ expand "update" ["patch"; "put"] ops0 ↔
                 (granted s x ∧ x ≠ "update") ∨ ((x = "patch" ∨ x = "put") ∧ granted s "update")).
  { intros x. rewrite elem_of_expand by by apply NoDup_remove_first_notin.
    rewrite !H0, !elem_of_cons, elem_of_nil. naive_solver. }
  assert (Honce : "read" ∉ remove_first "read" (expand "update" ["patch"; "put"] ops0)).
  { assert (Hnd' : NoDup (remove_first "update" ops0)).
    { clear -Hnd. induction Hnd as [|y l Hy Hl IH]; simpl; [constructor|].
      case_bool_decide; [done|]. constructor; [|done].
      intros Hin. apply Hy. by apply elem_of_remove_first_ne in Hin. }
    assert (Hinto : "read" ∉ ["patch"; "put"]).
    { intros H. by repeat (apply elem_of_cons in H as [? | H]; [done|]); apply elem_of_nil in H. }
    unfold expand. destruct (decide ("update" ∈ ops0)) as [Hu | Hu].
    - rewrite bool_decide_true by done. rewrite remove_first_app.
      destruct (decide ("read" ∈ remove_first "update" ops0)) as [Hr | Hr].
      + rewrite bool_decide_true by done. rewrite elem_of_app. intros [H | H]; [|done].
        by apply (NoDup_remove_first_notin "read" _ Hnd').
      + rewrite bool_decide_false by done. rewrite elem_of_app.
        rewrite (remove_first_notin "read" ["patch"; "put"]) by done.
        by intros [H | H].
    - rewrite bool_decide_false by done. by apply NoDup_remove_first_notin. }
  rewrite elem_of_expand by done.
  rewrite !H1, !elem_of_cons, elem_of_nil.
  split.
  - intros [[[[Hg Hu] | [Hp Hg]] Hr] | [Hgl [[Hg _] | [[[=] | [=]] _]]]]; naive_solver.
  - intros [(Hg & Hu & Hr) | [[Hp Hg] | [Hgl Hg]]].
    + left. split; [by left | done].
    + left. split; [by right | by destruct Hp as [-> | ->]].
    + right. split; [naive_solver | left; done].
Qed.

(** *** Lemmas: what the compiled mapping holds *)

Lemma op_update_lookup_ne (R : gset string) (cls : gmap string shield_op_dict)
    (sh : shields_t) (op k : string) :
  k ≠ op → op_update R cls sh op !! k = sh !! k.
Proof.
  intros Hne. unfold op_update. revert sh.
  induction (rules_of cls op) as [|item items IH]; intros sh; simpl; [done|].
  rewrite IH. by rewrite lookup_insert_ne.
Qed.

Lemma op_update_lookup (R : gset string) (cls : gmap string shield_op_dict)
    (sh : shields_t) (op : string) :
  op_update R cls sh op !! op =
  match last (rules_of cls op) with
  | Some item => Some (roles_granted R item.1, item.2)
  | None => sh !! op
  end.
Proof.
  unfold op_update. revert sh.
  induction (rules_of cls op) as [|item items IH]; intros sh; [done|].
  cbn [foldl]. rewrite IH, last_cons.
  destruct (last items); [done | by rewrite lookup_insert_eq].
Qed.

Lemma foldl_op_update_notin (R : gset string) (cls : gmap string shield_op_dict)
    (ops : list string) (sh : shields_t) (k : string) :
  k ∉ ops → foldl (op_update R cls) sh ops !! k = sh !! k.
Proof.
  revert sh. induction ops as [|op ops IH]; intros sh Hk; simpl; [done|].
  apply not_elem_of_cons in Hk as [Hne Hk].
  rewrite IH by done. by apply op_update_lookup_ne.
Qed.

Lemma foldl_op_update_in (R : gset string) (cls : gmap string shield_op_dict)
    (ops : list string) (sh : shields_t) (k : string) :
  k ∈ ops →
  foldl (op_update R cls) sh ops !! k =
  match last (rules_of cls k) with
  | Some item => Some (roles_granted R item.1, item.2)
  | None => sh !! k
  end.
Proof.
  revert sh. induction ops as [|op ops IH]; intros sh Hk; simpl.
  - by apply elem_of_nil in Hk.
  - destruct (decide (k ∈ ops)) as [Hin | Hnin].
    + rewrite IH by done. destruct (last (rules_of cls k)) eqn:Hlast; [done|].
      destruct (decide (k = op)) as [-> | Hne].
      * by rewrite op_update_lookup, Hlast.
      * by apply op_update_lookup_ne.
    + apply elem_of_cons in Hk as [-> | Hk]; [|done].
      rewrite foldl_op_update_notin by done. apply op_update_lookup.
Qed.

(** For a present operation the compiled mapping holds the last rule of its
    [Shield] dict, and nothing of the rules before it. *)
Lemma parse_schema_keeps_last_rule (R : gset string) (s : schema)
    (cls : gmap string shield_op_dict) (sh : shields_t) (op : string) :
  Shield s = Some cls → parse_schema R s = Ok sh → op ∈ present_ops s →
  sh !! op = (λ item, (roles_granted R item.1, item.2)) <$> last (rules_of cls op).
Proof.
  intros Hs Hok Hop. rewrite parse_schema_spec, Hs in Hok.
  destruct (decide _); [|done]. injection Hok as <-.
  rewrite foldl_op_update_in by done.
  by destruct (last (rules_of cls op)).
Qed.

(** *** The claims about shield compilation *)

(** C6 (the code departs from it): in the mock resource whose [post] is
    shielded with ['Staff': 'otp'] and ['Doctor': 'sms'], both rules valid,
    the compiled mapping keeps the last rule only: [post] asks a [Doctor] for
    [sms] and asks a [Staff] member for nothing. *)
Theorem alter_shield_exposes_last_rule_only :
  parse_schema mock_roles AlterShieldedResource = Ok {[ "post" := ({[ "Doctor" ]}, "sms") ]}
  ∧ rule_valid mock_roles (RoleStr "Staff", "otp")
  ∧ rule_valid mock_roles (RoleStr "Doctor", "sms")
  ∧ (∀ sh, parse_schema mock_roles AlterShieldedResource = Ok sh →
           requires sh "post" "Doctor" "sms" ∧ ¬ requires sh "post" "Staff" "otp").
Proof.
  assert (Hrun : parse_schema mock_roles AlterShieldedResource
                 = Ok {[ "post" := ({[ "Doctor" ]}, "sms") ]}) by vm_refl.
  split; [exact Hrun|]. split; [|split].
  - split; [right; by vm_compute | by left].
  - split; [right; by vm_compute | by right].
  - intros sh Hsh. rewrite Hrun in Hsh. injection Hsh as <-. split.
    + exists {[ "Doctor" ]}. split; [by rewrite lookup_singleton_eq | by apply elem_of_singleton].
    + intros (roles & Hlook & _). rewrite lookup_singleton_eq in Hlook. congruence.
Qed.

(** C7, as the code has it: [parse_schemas] raises [ValueError] exactly when
    some effective rule (a rule of an operation present in the Authed or
    Private tier) names a role outside the system roles (the key ['*']
    apart) or a method other than [otp] and [sms]; it returns exactly when
    every effective rule is valid. *)
Theorem parse_schemas_raises_iff_effective_rule_invalid
    (schemas : list schema) (system_roles : gset string) :
  (parse_schemas schemas system_roles = Raise ValueError ↔
     ∃ s item, s ∈ schemas ∧ item ∈ effective_rules s ∧ ¬ rule_valid system_roles item)
  ∧ ((∃ out, parse_schemas schemas system_roles = Ok out) ↔
     ∀ s item, s ∈ schemas → item ∈ effective_rules s → rule_valid system_roles item).
Proof.
  set (R := system_roles).
  assert (Hall : Forall (λ s, Forall (rule_valid R) (effective_rules s)) schemas ↔
                 ∀ s item, s ∈ schemas → item ∈ effective_rules s → rule_valid R item).
  { rewrite Forall_forall. split.
    - intros H s item Hs. specialize (H s Hs). rewrite Forall_forall in H. apply H.
    - intros H s Hs. apply Forall_forall. intros item. by apply H. }
  destruct (parse_schemas_spec R schemas) as [(Hvalid & out & Hout & _) | (Hinvalid & Hraise)].
  - rewrite Hout. split.
    + split; [done|]. intros (s & item & Hs & Hitem & Hbad). exfalso.
      apply Hbad. by apply (proj1 Hall Hvalid s item).
    + split; [intros _; by apply Hall | intros _; by exists out].
  - rewrite Hraise. split.
    + split; [intros _ | done].
      apply not_Forall_Exists in Hinvalid; [|apply _].
      apply Exists_exists in Hinvalid as (s & Hs & Hbad). simpl in Hbad.
      apply not_Forall_Exists in Hbad; [|apply _].
      apply Exists_exists in Hbad as (item & Hitem & Hbad). by exists s, item.
    + split; [by intros (out & ?) | intros H; exfalso; by apply Hinvalid, Hall].
Qed.

(** C7, as stated, fails: a rule naming an unknown role and an unknown
    method passes unnoticed when its operation is granted by the Public tier
    only. *)
Lemma public_only_shield_rule_is_not_validated :
  parse_schemas [ PublicOnlyShielded ] mock_roles = Ok [ ∅ ]
  ∧ Shield PublicOnlyShielded = Some {[ "post" := [ (RoleStr "Ghost", "email") ] ]}
  ∧ bool_decide ("Ghost" ∈ mock_roles) = false
  ∧ bool_decide ("email" ∈ [ "otp"; "sms" ]) = false.
Proof. repeat split; vm_refl. Qed.

(** C10: the operations a [Shield] is read for are those granted by the
    Authed or Private tier, [update] standing for [patch] and [put] and
    [read] for [get] and [list]; the [Shield] entries of every other
    operation change neither the outcome nor the compiled mapping, which has
    no entry for them. *)
Theorem shield_read_only_for_authed_or_private_ops
    (system_roles : gset string) (s : schema) :
  (∀ op, op ∈ present_ops s ↔
       (granted s op ∧ op ≠ "update" ∧ op ≠ "read")
       ∨ ((op = "patch" ∨ op = "put") ∧ granted s "update")
       ∨ ((op = "get" ∨ op = "list") ∧ granted s "read"))
  ∧ (∀ cls1 cls2,
       (∀ op, op ∈ present_ops s → cls1 !! op = cls2 !! op) →
       parse_schema system_roles (with_Shield s cls1)
       = parse_schema system_roles (with_Shield s cls2))
  ∧ (∀ op sh, op ∉ present_ops s → parse_schema system_roles s = Ok sh → sh !! op = None).
Proof.
  split; [|split].
  - apply elem_of_present_ops.
  - intros cls1 cls2 Hagree. unfold parse_schema. simpl.
    change (present_ops (with_Shield s cls1)) with (present_ops s).
    change (present_ops (with_Shield s cls2)) with (present_ops s).
    apply foldM_ext_in. intros op acc Hop. unfold shield_op.
    specialize (Hagree op Hop). unfold shield_op_dict in *. by rewrite Hagree.
  - intros op sh Hop Hok. rewrite parse_schema_spec in Hok.
    destruct (decide _); [|done]. injection Hok as <-.
    destruct (Shield s) as [cls|]; [|apply lookup_empty].
    rewrite foldl_op_update_notin by done. apply lookup_empty.
Qed.

Lemma parse_schema_keeps_last_rule_witness :
  ({[ "post" := ({[ "Doctor" ]}, "sms") ]} : shields_t) !! "post"
  = (λ item, (roles_granted mock_roles item.1, item.2))
      <$> last (rules_of {[ "post" := [ (RoleStr "Staff", "otp"); (RoleStr "Doctor", "sms") ] ]}
                         "post").
Proof.
  apply (parse_schema_keeps_last_rule mock_roles AlterShieldedResource
           {[ "post" := [ (RoleStr "Staff", "otp"); (RoleStr "Doctor", "sms") ] ]}
           {[ "post" := ({[ "Doctor" ]}, "sms") ]} "post").
  - reflexivity.
  - vm_refl.
  - apply (bool_decide_unpack _). vm_compute. exact I.
Defined.

Example public_only_shield_is_ignored :
  present_ops PublicOnlyShielded = [] ∧ parse_schema mock_roles PublicOnlyShielded = Ok ∅.
Proof. split; vm_refl. Qed.

End Shield.

(** ** Relationship resolution and view synthesis ([ViewMaker], [core.py]) *)

Module Core.
Import Py.

(** *** Relationship resolution: the data *)

(** An entry of a [_deletion_cascade] or [_m2m_cherrypicks] list: a 3-tuple
    of names. *)
Abbreviation entry := (string * string * string)%type.

(** Python lists are objects: a class attribute holds a reference, and
    [append] changes the object for every holder of the reference. *)
Abbreviation loc := nat.
Abbreviation heap_t := (list (list entry)).

(** The class of a declared field as [process_relationships] tells it apart:
    the first of its [isinstance] tests the field passes, in the order the
    function makes them ([Relationship]: a relationship none of the three
    branches takes; [Field]: any other field). *)
Inductive field_class : Type :=
| Field
| Relationship
| AutoSessionForeignResource
| ForeignResources
| ForeignResource.

#[global] Instance field_class_eq_dec : EqDecision field_class.
Proof. solve_decision. Defined.

(** [target_name], [target_pk]: [fieldval.target_table['name']] and
    [['pk']]; [unique]: [fieldval.metadata.get('unique', False)]. *)
Record field : Type := {
  class : field_class;
  target_name : string;
  target_pk : string;
  unique : bool
}.

(** What relationship resolution reads and writes of a schema class:
    [this_pk] is the column part of
    [str(_model.__table__.primary_key.columns_autoinc_first[0])], the table
    part being the name the class is registered under; the two list
    attributes are [None] until something sets them. *)
Record schema_cls : Type := {
  this_pk : string;
  _declared_fields : list (string * field);
  _deletion_cascade : option loc;
  _m2m_cherrypicks : option loc
}.

(** The registry of schema classes, by table name, and the list objects. *)
Record store : Type := {
  registered_schemas : gmap string schema_cls;
  heap : heap_t
}.

(** The values put in [new_schema_methods]. *)
Inductive method : Type :=
| autosession_field_validator (fieldname : string)
| children_validator (fieldname : string)
| make_children_post_load (fieldname : string)
| list_object (l : loc).

(** What one call builds: [joins] (returned), [new_schema_methods] (handed
    to [retype_schema]) and [_m2m_where_stmts] (set on the class). *)
Record relationships : Type := {
  joins : gmap string (string * string);
  new_schema_methods : gmap string method;
  _m2m_where_stmts : gmap string string
}.

(** *** Relationship resolution: the code *)

(** [[]]: a new list object. *)
Definition alloc (h : heap_t) : loc * heap_t := (length h, h ++ [ [] ]).

(** [lst.append(x)] on the object at [l]. *)
Definition append (l : loc) (x : entry) (h : heap_t) : heap_t :=
  alter (λ xs, xs ++ [ x ]) l h.

(** [getattr(cls, attr, [])]: the attribute's list, or a new one (the
    default is only allocated here when it is used). *)
Definition getattr_list (attr : option loc) (h : heap_t) : loc * heap_t :=
  match attr with
  | Some l => (l, h)
  | None => alloc h
  end.

(** [self.registered_schemas @ linked_table].
    Modelled from the spec: the registry's lookup operator is not part of
    the sources; a relationship target that is not registered is a
    configuration error that aborts compilation. *)
Definition registry_at (st : store) (table : string) : res schema_cls :=
  match registered_schemas st !! table with
  | Some c => Ok c
  | None => Raise KeyError
  end.

(** [linked_schema._deletion_cascade = getattr(linked_schema, '_deletion_cascade', [])]
    and the same for [_m2m_cherrypicks]. *)
Definition set_default_lists (st : store) (linked_table : string) (linked : schema_cls)
  : store * loc * loc :=
  let '(dc, h) := getattr_list (_deletion_cascade linked) (heap st) in
  let '(m2m, h) := getattr_list (_m2m_cherrypicks linked) h in
  ({| registered_schemas :=
        <[ linked_table := {| this_pk := this_pk linked;
                              _declared_fields := _declared_fields linked;
                              _deletion_cascade := Some dc;
                              _m2m_cherrypicks := Some m2m |} ]> (registered_schemas st);
      heap := h |}, dc, m2m).

Definition with_heap (st : store) (h : heap_t) : store :=
  {| registered_schemas := registered_schemas st; heap := h |}.

(** [f'{linked_table}.{{subkey}}=%({{fill}})s'] *)
Definition join_template (linked_table : string) : string :=
  linked_table +:+ ".{subkey}=%({fill})s".

(** [f'{fieldname} ?& %({fieldname})s'] *)
Definition m2m_where_stmt (fieldname : string) : string :=
  fieldname +:+ " ?& %(" +:+ fieldname +:+ ")s".

(** [this_target] and [linked_target] of a field. *)
Definition this_target (this_table this_pk fieldname : string) : entry :=
  (fieldname, this_table, this_pk).

Definition linked_target (fieldname : string) (fieldval : field) : entry :=
  (target_pk fieldval, target_name fieldval, fieldname).

(** The body of [for fieldname, fieldval in self.schema_cls._declared_fields.items()];
    [deletion_cascade] is the list the function read off its own class
    before the loop. *)
Definition relationship_step (this_table this_pk : string) (deletion_cascade : loc)
    (acc : store * relationships) (item : string * field) : res (store * relationships) :=
  let '(st, out) := acc in
  let '(fieldname, fieldval) := item in
  match class fieldval with
  | Field => Ok (st, out)
  | c =>
      let linked_table := target_name fieldval in
      linked_schema ← registry_at st linked_table;
      let '(st, linked_dc, linked_m2m) := set_default_lists st linked_table linked_schema in
      match c with
      | AutoSessionForeignResource =>
          Ok (st,
              {| joins := joins out;
                 new_schema_methods :=
                   <[ "validate_" +:+ fieldname := autosession_field_validator fieldname ]>
                     (new_schema_methods out);
                 _m2m_where_stmts := _m2m_where_stmts out |})
      | ForeignResources =>
          let h := append linked_m2m (this_table, fieldname, this_pk) (heap st) in
          Ok (with_heap st h,
              {| joins := joins out;
                 new_schema_methods :=
                   <[ "post_load_" +:+ fieldname := make_children_post_load fieldname ]>
                     (<[ "validate_" +:+ fieldname := children_validator fieldname ]>
                        (new_schema_methods out));
                 _m2m_where_stmts :=
                   <[ fieldname := m2m_where_stmt fieldname ]> (_m2m_where_stmts out) |})
      | ForeignResource =>
          let h :=
            if negb (unique fieldval)
            then append linked_dc (this_target this_table this_pk fieldname) (heap st)
            else append linked_dc (this_target this_table this_pk fieldname)
                   (append deletion_cascade (linked_target fieldname fieldval) (heap st)) in
          Ok (with_heap st h,
              {| joins := <[ fieldname := (linked_table, join_template linked_table) ]> (joins out);
                 new_schema_methods := new_schema_methods out;
                 _m2m_where_stmts := _m2m_where_stmts out |})
      | _ => Ok (st, out)
      end
  end.

Arguments relationship_step : simpl never.

(** [ViewMaker.process_relationships] for the class registered as
    [this_table]: the store after the loop and what the loop built, the two
    list objects entered last in [new_schema_methods].  ([retype_schema],
    which then rebuilds the class from [new_schema_methods], is not part of
    the sources and is not modelled.) *)
Definition process_relationships (st : store) (this_table : string)
  : res (store * relationships) :=
  schema_cls ← registry_at st this_table;
  let '(deletion_cascade, h) := getattr_list (_deletion_cascade schema_cls) (heap st) in
  let '(m2m_cherrypicks, h) := getattr_list (_m2m_cherrypicks schema_cls) h in
  '(st, out) ← foldM (relationship_step this_table (this_pk schema_cls) deletion_cascade)
                 (with_heap st h,
                  {| joins := ∅; new_schema_methods := ∅; _m2m_where_stmts := ∅ |})
                 (_declared_fields schema_cls);
  Ok (st,
      {| joins := joins out;
         new_schema_methods :=
           <[ "_m2m_cherrypicks" := list_object m2m_cherrypicks ]>
             (<[ "_deletion_cascade" := list_object deletion_cascade ]> (new_schema_methods out));
         _m2m_where_stmts := _m2m_where_stmts out |}).

(** The list a class attribute refers to, if the attribute is set. *)
Definition deletion_cascade_of (st : store) (table : string) : option (list entry) :=
  c ← registered_schemas st !! table; l ← _deletion_cascade c; heap st !! l.

Definition m2m_cherrypicks_of (st : store) (table : string) : option (list entry) :=
  c ← registered_schemas st !! table; l ← _m2m_cherrypicks c; heap st !! l.

(** The list entered in [new_schema_methods] under [name]. *)
Definition new_list (st : store) (out : relationships) (name : string) : option (list entry) :=
  m ← new_schema_methods out !! name;
  match m with list_object l => heap st !! l | _ => None end.

(** *** The relationships of the mock application *)

Definition plain (pk : string) (fields : list (string * field)) : schema_cls :=
  {| this_pk := pk; _declared_fields := fields;
     _deletion_cascade := None; _m2m_cherrypicks := None |}.

Definition scalar : field :=
  {| class := Field; target_name := ""; target_pk := ""; unique := false |}.

Definition mock_store : store :=
  {| registered_schemas :=
       {[ "product" := plain "id"
            [ ("id", scalar); ("name", scalar);
              ("descr", {| class := ForeignResource; target_name := "desc";
                           target_pk := "id"; unique := true |});
              ("producer", {| class := ForeignResource; target_name := "producer";
                              target_pk := "id"; unique := false |}) ];
          "desc" := plain "id" [ ("id", scalar); ("text", scalar) ];
          "store" := plain "id"
            [ ("id", scalar); ("name", scalar);
              ("distributors", {| class := ForeignResources; target_name := "dist";
                                  target_pk := "id"; unique := false |}) ];
          "producer" := plain "id"
            [ ("id", scalar); ("name", scalar);
              ("distributors", {| class := ForeignResources; target_name := "dist";
                                  target_pk := "id"; unique := false |}) ];
          "dist" := plain "id" [ ("id", scalar); ("name", scalar); ("meta", scalar) ] ]};
     heap := [] |}.

Example product_relationships :
  ∃ st out,
    process_relationships mock_store "product" = Ok (st, out)
    ∧ deletion_cascade_of st "desc" = Some [ ("descr", "product", "id") ]
    ∧ deletion_cascade_of st "producer" = Some [ ("producer", "product", "id") ]
    ∧ new_list st out "_deletion_cascade" = Some [ ("id", "desc", "descr") ]
    ∧ joins out = {[ "descr" := ("desc", "desc.{subkey}=%({fill})s");
                     "producer" := ("producer", "producer.{subkey}=%({fill})s") ]}.
Proof.
  destruct (process_relationships mock_store "product") as [[st out]|] eqn:E;
    [|by vm_compute in E].
  exists st, out. split; [done|].
  assert (E' : Ok (st, out) = process_relationships mock_store "product") by done.
  clear E. vm_compute in E'. injection E' as -> ->. repeat split; vm_refl.
Qed.

(** *** Stores: list objects are allocated and not shared between classes *)

Definition attr_locs (c : schema_cls) : list loc :=
  option_list (_deletion_cascade c) ++ option_list (_m2m_cherrypicks c).

Definition locs_valid (st : store) : Prop :=
  ∀ T c l, registered_schemas st !! T = Some c → l ∈ attr_locs c → l < length (heap st).

Definition locs_apart (st : store) : Prop :=
  ∀ T1 T2 c1 c2 l,
    registered_schemas st !! T1 = Some c1 → registered_schemas st !! T2 = Some c2 →
    l ∈ attr_locs c1 → l ∈ attr_locs c2 → T1 = T2.

Definition store_ok (st : store) : Prop := locs_valid st ∧ locs_apart st.

(** [st'] comes after [st]: lists have only been appended to, and the
    attributes that were set still refer to the same objects. *)
Definition extends (st st' : store) : Prop :=
  (∀ l xs, heap st !! l = Some xs → ∃ ys, heap st' !! l = Some (xs ++ ys))
  ∧ (∀ T c, registered_schemas st !! T = Some c →
       ∃ c', registered_schemas st' !! T = Some c'
             ∧ this_pk c' = this_pk c ∧ _declared_fields c' = _declared_fields c
             ∧ (∀ l, _deletion_cascade c = Some l → _deletion_cascade c' = Some l)
             ∧ (∀ l, _m2m_cherrypicks c = Some l → _m2m_cherrypicks c' = Some l)).

Lemma elem_of_attr_locs (c : schema_cls) (l : loc) :
  l ∈ attr_locs c ↔ _deletion_cascade c = Some l ∨ _m2m_cherrypicks c = Some l.
Proof.
  unfold attr_locs. rewrite elem_of_app.
  destruct (_deletion_cascade c), (_m2m_cherrypicks c); simpl;
    rewrite ?elem_of_cons, ?elem_of_nil; naive_solver.
Qed.

Lemma extends_refl (st : store) : extends st st.
Proof.
  split.
  - intros l xs H. exists []. by rewrite app_nil_r.
  - intros T c H. by exists c.
Qed.

Lemma extends_trans (st1 st2 st3 : store) :
  extends st1 st2 → extends st2 st3 → extends st1 st3.
Proof.
  intros [Hh12 Ha12] [Hh23 Ha23]. split.
  - intros l xs H. destruct (Hh12 l xs H) as [ys Hys].
    destruct (Hh23 l _ Hys) as [zs Hzs]. exists (ys ++ zs). by rewrite app_assoc.
  - intros T c H. destruct (Ha12 T c H) as (c2 & H2 & Hpk2 & Hf2 & Hd2 & Hm2).
    destruct (Ha23 T c2 H2) as (c3 & H3 & Hpk3 & Hf3 & Hd3 & Hm3).
    exists c3. repeat split; [done | congruence | congruence | auto | auto].
Qed.

Lemma lookup_append (l l' : loc) (x : entry) (h : heap_t) :
  append l x h !! l' = if decide (l = l') then (λ xs, xs ++ [x]) <$> h !! l' else h !! l'.
Proof.
  unfold append. destruct (decide (l = l')) as [-> | Hne].
  - apply list_lookup_alter_eq.
  - by apply list_lookup_alter_ne.
Qed.

Lemma length_append (l : loc) (x : entry) (h : heap_t) : length (append l x h) = length h.
Proof. apply length_alter. Qed.

Lemma extends_append (st : store) (l : loc) (x : entry) :
  extends st (with_heap st (append l x (heap st))).
Proof.
  split; simpl.
  - intros l' xs H. rewrite lookup_append. destruct (decide (l = l')) as [-> | Hne].
    + exists [x]. by rewrite H.
    + exists []. by rewrite app_nil_r.
  - intros T c H. by exists c.
Qed.

Lemma locs_valid_append (st : store) (l : loc) (x : entry) :
  locs_valid st → locs_valid (with_heap st (append l x (heap st))).
Proof. intros H T c l' Hc Hl. simpl. rewrite length_append. by apply (H T c). Qed.

Lemma getattr_list_spec (attr : option loc) (h : heap_t) (l : loc) (h' : heap_t) :
  getattr_list attr h = (l, h') →
  (attr = Some l ∧ h' = h) ∨ (attr = None ∧ l = length h ∧ h' = h ++ [ [] ]).
Proof. destruct attr; simpl; intros [= <- <-]; [by left | by right]. Qed.

Lemma getattr_list_grows (attr : option loc) (h : heap_t) (l : loc) (h' : heap_t) :
  getattr_list attr h = (l, h') →
  length h ≤ length h'
  ∧ (∀ k, k < length h → h' !! k = h !! k)
  ∧ ((∀ k, attr = Some k → k < length h) → l < length h').
Proof.
  intros [[-> ->] | (-> & -> & ->)]%getattr_list_spec.
  - split; [done|]. split; [done|]. intros H. by apply H.
  - rewrite length_app. simpl. split; [lia|]. split; [|lia].
    intros k Hk. by apply lookup_app_l.
Qed.

(** What [set_default_lists] does to a registered class. *)
Lemma set_default_lists_spec (st st' : store) (T : string) (linked : schema_cls)
    (dc m2m : loc) :
  registered_schemas st !! T = Some linked → locs_valid st →
  set_default_lists st T linked = (st', dc, m2m) →
  locs_valid st' ∧ extends st st'
  ∧ length (heap st) ≤ length (heap st')
  ∧ (∀ k, k < length (heap st) → heap st' !! k = heap st !! k)
  ∧ (∃ c', registered_schemas st' !! T = Some c'
           ∧ _deletion_cascade c' = Some dc ∧ _m2m_cherrypicks c' = Some m2m)
  ∧ (∀ T', T' ≠ T → registered_schemas st' !! T' = registered_schemas st !! T')
  ∧ dc < length (heap st') ∧ m2m < length (heap st')
  ∧ (_deletion_cascade linked ≠ Some dc → length (heap st) ≤ dc)
  ∧ (_m2m_cherrypicks linked ≠ Some m2m → length (heap st) ≤ m2m).
Proof.
  intros HT Hvalid. unfold set_default_lists.
  destruct (getattr_list (_deletion_cascade linked) (heap st)) as [dc' h1] eqn:E1.
  destruct (getattr_list (_m2m_cherrypicks linked) h1) as [m2m' h2] eqn:E2.
  intros [= <- <- <-].
  pose proof (getattr_list_grows _ _ _ _ E1) as (Hlen1 & Hsame1 & Hdc).
  pose proof (getattr_list_grows _ _ _ _ E2) as (Hlen2 & Hsame2 & Hm2m).
  assert (Hdc' : dc' < length h1).
  { apply Hdc. intros k Hk. apply (Hvalid T linked); [done|]. apply elem_of_attr_locs. by left. }
  assert (Hm2m' : m2m' < length h2).
  { apply Hm2m. intros k Hk. assert (k < length (heap st)); [|lia].
    apply (Hvalid T linked); [done|]. apply elem_of_attr_locs. by right. }
  assert (Hsame : ∀ k, k < length (heap st) → h2 !! k = heap st !! k).
  { intros k Hk. rewrite Hsame2 by lia. by apply Hsame1. }
  unfold extends. cbn [registered_schemas heap]. repeat split.
  - intros T' c' l. cbn [registered_schemas heap]. intros Hc' Hl.
    destruct (decide (T = T')) as [<- | Hne].
    + rewrite lookup_insert_eq in Hc'. injection Hc' as <-.
      apply elem_of_attr_locs in Hl as [[= <-] | [= <-]]; simpl in *; lia.
    + rewrite lookup_insert_ne in Hc' by done.
      assert (l < length (heap st)); [by apply (Hvalid T' c') | lia].
  - intros l xs Hl. exists []. rewrite app_nil_r.
    rewrite Hsame; [done|]. by apply lookup_lt_Some in Hl.
  - cbn [registered_schemas heap].
    intros T' c' Hc'. destruct (decide (T = T')) as [<- | Hne].
    + rewrite lookup_insert_eq. eexists. split; [done|]. simpl.
      assert (c' = linked) as -> by congruence.
      split; [done|]. split; [done|]. split.
      * intros l Hl. rewrite Hl in E1. simpl in E1. by injection E1 as <- <-.
      * intros l Hl. rewrite Hl in E2. simpl in E2. by injection E2 as <- <-.
    + rewrite lookup_insert_ne by done. by exists c'.
  - lia.
  - done.
  - rewrite lookup_insert_eq. eexists. by split.
  - intros T' Hne. by rewrite lookup_insert_ne.
  - lia.
  - done.
  - intros Hne. apply getattr_list_spec in E1 as [[? _] | (_ & -> & _)]; [done | lia].
  - intros Hne. apply getattr_list_spec in E2 as [[? _] | (_ & -> & _)]; [done | lia].
Qed.

(** *** One field, then the loop: what is kept *)

(** Unfolds one iteration on a relationship field whose target is registered. *)
Lemma relationship_step_unfold (this pk : string) (dc : loc) (st : store)
    (out : relationships) (fieldname : string) (fieldval : field) :
  class fieldval ≠ Field →
  relationship_step this pk dc (st, out) (fieldname, fieldval) =
  match registered_schemas st !! target_name fieldval with
  | None => Raise KeyError
  | Some linked =>
      let '(st1, linked_dc, linked_m2m) := set_default_lists st (target_name fieldval) linked in
      match class fieldval with
      | AutoSessionForeignResource =>
          Ok (st1,
              {| joins := joins out;
                 new_schema_methods :=
                   <[ "validate_" +:+ fieldname := autosession_field_validator fieldname ]>
                     (new_schema_methods out);
                 _m2m_where_stmts := _m2m_where_stmts out |})
      | ForeignResources =>
          Ok (with_heap st1 (append linked_m2m (this, fieldname, pk) (heap st1)),
              {| joins := joins out;
                 new_schema_methods :=
                   <[ "post_load_" +:+ fieldname := make_children_post_load fieldname ]>
                     (<[ "validate_" +:+ fieldname := children_validator fieldname ]>
                        (new_schema_methods out));
                 _m2m_where_stmts :=
                   <[ fieldname := m2m_where_stmt fieldname ]> (_m2m_where_stmts out) |})
      | ForeignResource =>
          Ok (with_heap st1
                (if negb (unique fieldval)
                 then append linked_dc (this_target this pk fieldname) (heap st1)
                 else append linked_dc (this_target this pk fieldname)
                        (append dc (linked_target fieldname fieldval) (heap st1))),
              {| joins := <[ fieldname := (target_name fieldval, join_template (target_name fieldval)) ]>
                            (joins out);
                 new_schema_methods := new_schema_methods out;
                 _m2m_where_stmts := _m2m_where_stmts out |})
      | _ => Ok (st1, out)
      end
  end.
Proof.
  intros Hc. unfold relationship_step, registry_at.
  destruct (class fieldval) eqn:E; [done | | | |];
    destruct (registered_schemas st !! target_name fieldval) as [linked|]; simpl; try done;
    by destruct (set_default_lists st (target_name fieldval) linked) as [[st1 ldc] lm2m].
Qed.

Lemma relationship_step_frame (this pk : string) (dc : loc) (st st' : store)
    (out out' : relationships) (item : string * field) :
  relationship_step this pk dc (st, out) item = Ok (st', out') →
  locs_valid st →
  locs_valid st' ∧ extends st st' ∧ length (heap st) ≤ length (heap st').
Proof.
  destruct item as [fieldname fieldval]. intros Hstep Hvalid.
  destruct (decide (class fieldval = Field)) as [Hf | Hf].
  { unfold relationship_step in Hstep. rewrite Hf in Hstep. injection Hstep as <- <-.
    split; [done|]. split; [apply extends_refl | done]. }
  rewrite relationship_step_unfold in Hstep by done.
  destruct (registered_schemas st !! target_name fieldval) as [linked|] eqn:HT; [|done].
  destruct (set_default_lists st (target_name fieldval) linked) as [[st1 ldc] lm2m] eqn:Hset.
  destruct (set_default_lists_spec _ _ _ _ _ _ HT Hvalid Hset)
    as (Hvalid1 & Hext1 & Hlen1 & _).
  destruct (class fieldval); try done; injection Hstep as <- <-.
  - done.
  - done.
  - split; [by apply locs_valid_append|]. split.
    + eapply extends_trans; [done | apply extends_append].
    + simpl. by rewrite length_append.
  - destruct (negb (unique fieldval)).
    + split; [by apply locs_valid_append|]. split.
      * eapply extends_trans; [done | apply extends_append].
      * simpl. by rewrite length_append.
    + split.
      * apply (locs_valid_append (with_heap st1 _)). by apply locs_valid_append.
      * split.
        -- eapply extends_trans; [done|].
           eapply extends_trans; [apply extends_append|].
           apply (extends_append (with_heap st1 _)).
        -- simpl. by rewrite !length_append.
Qed.

Lemma relationship_loop_frame (this pk : string) (dc : loc) (fields : list (string * field))
    (st st' : store) (out out' : relationships) :
  foldM (relationship_step this pk dc) (st, out) fields = Ok (st', out') →
  locs_valid st →
  locs_valid st' ∧ extends st st' ∧ length (heap st) ≤ length (heap st').
Proof.
  revert st out. induction fields as [|item fields IH]; intros st out; simpl.
  - intros [= <- <-] Hvalid. split; [done|]. split; [apply extends_refl | done].
  - destruct (relationship_step this pk dc (st, out) item) as [[st1 out1]|] eqn:Hstep; [|done].
    simpl. intros Hloop Hvalid.
    destruct (relationship_step_frame _ _ _ _ _ _ _ _ Hstep Hvalid) as (Hv1 & He1 & Hl1).
    destruct (IH _ _ Hloop Hv1) as (Hv' & He' & Hl').
    split; [done|]. split; [by eapply extends_trans | lia].
Qed.

(** Entries, once appended, stay. *)
Lemma extends_heap_elem (st st' : store) (l : loc) (xs : list entry) (x : entry) :
  extends st st' → heap st !! l = Some xs → x ∈ xs →
  ∃ xs', heap st' !! l = Some xs' ∧ x ∈ xs'.
Proof.
  intros [Hh _] Hl Hx. destruct (Hh l xs Hl) as [ys Hys].
  exists (xs ++ ys). split; [done|]. apply elem_of_app. by left.
Qed.


Lemma extends_m2m_cherrypicks_elem (st st' : store) (T : string) (xs : list entry) (x : entry) :
  extends st st' → m2m_cherrypicks_of st T = Some xs → x ∈ xs →
  ∃ xs', m2m_cherrypicks_of st' T = Some xs' ∧ x ∈ xs'.
Proof.
  intros Hext Hl Hx. unfold m2m_cherrypicks_of in *.
  destruct (registered_schemas st !! T) as [c|] eqn:Hc; [|done]. simpl in Hl.
  destruct (_m2m_cherrypicks c) as [l|] eqn:Hdc; [|done]. simpl in Hl.
  destruct (proj2 Hext T c Hc) as (c' & Hc' & _ & _ & _ & Hdc').
  rewrite Hc'. simpl. rewrite (Hdc' l Hdc). simpl.
  by eapply extends_heap_elem.
Qed.

(** *** One field: what is registered *)

Lemma append_elem_self (l : loc) (x : entry) (h : heap_t) :
  l < length h → ∃ xs, append l x h !! l = Some xs ∧ x ∈ xs.
Proof.
  intros [xs Hxs]%lookup_lt_is_Some_2. exists (xs ++ [x]). split.
  - rewrite lookup_append, decide_True by done. by rewrite Hxs.
  - apply elem_of_app. right. apply list_elem_of_here.
Qed.



Lemma step_foreign_resources (this pk : string) (dc : loc) (st st' : store)
    (out out' : relationships) (fieldname : string) (fieldval : field) :
  class fieldval = ForeignResources → locs_valid st →
  relationship_step this pk dc (st, out) (fieldname, fieldval) = Ok (st', out') →
  (∃ xs, m2m_cherrypicks_of st' (target_name fieldval) = Some xs
         ∧ (this, fieldname, pk) ∈ xs)
  ∧ _m2m_where_stmts out' !! fieldname = Some (m2m_where_stmt fieldname)
  ∧ joins out' = joins out.
Proof.
  intros Hclass Hvalid Hstep.
  rewrite relationship_step_unfold in Hstep by by rewrite Hclass.
  destruct (registered_schemas st !! target_name fieldval) as [linked|] eqn:HT; [|done].
  destruct (set_default_lists st (target_name fieldval) linked) as [[st1 ldc] lm2m] eqn:Hset.
  destruct (set_default_lists_spec _ _ _ _ _ _ HT Hvalid Hset)
    as (_ & _ & Hlen1 & _ & (c' & Hc' & _ & Hm2m') & _ & _ & Hlm2m & _).
  rewrite Hclass in Hstep. injection Hstep as <- <-.
  split; [|split].
  - unfold m2m_cherrypicks_of. simpl. rewrite Hc'. simpl. rewrite Hm2m'. simpl.
    by apply append_elem_self.
  - simpl. apply lookup_insert_eq.
  - done.
Qed.

(** A later field of another name leaves the entries of [joins] and
    [_m2m_where_stmts] under this name alone. *)
Lemma relationship_loop_other_names (this pk : string) (dc : loc)
    (fields : list (string * field)) (st st' : store) (out out' : relationships)
    (name : string) :
  name ∉ fields.*1 →
  foldM (relationship_step this pk dc) (st, out) fields = Ok (st', out') →
  joins out' !! name = joins out !! name
  ∧ _m2m_where_stmts out' !! name = _m2m_where_stmts out !! name.
Proof.
  revert st out. induction fields as [|[fieldname fieldval] fields IH]; intros st out Hname.
  - by intros [= <- <-].
  - cbn [foldM]. apply not_elem_of_cons in Hname as [Hne Hname].
    destruct (relationship_step this pk dc (st, out) (fieldname, fieldval))
      as [[st1 out1]|] eqn:Hstep; [|done].
    cbn [bind]. intros Hloop. destruct (IH _ _ Hname Hloop) as [-> ->].
    clear IH Hloop. simpl in Hne.
    destruct (decide (class fieldval = Field)) as [Hf | Hf].
    { unfold relationship_step in Hstep. rewrite Hf in Hstep. by injection Hstep as <- <-. }
    rewrite relationship_step_unfold in Hstep by done.
    destruct (registered_schemas st !! target_name fieldval) as [linked|]; [|done].
    destruct (set_default_lists st (target_name fieldval) linked) as [[st1' ldc] lm2m].
    destruct (class fieldval); try done; injection Hstep as <- <-; simpl;
      by rewrite ?lookup_insert_ne.
Qed.

(** *** The declaring class's own list *)


(** Every relationship field refers to a registered table. *)
Definition targets_registered (st : store) (fields : list (string * field)) : Prop :=
  Forall (λ item, class item.2 ≠ Field →
                  is_Some (registered_schemas st !! target_name item.2)) fields.

(** [dc] is allocated and no class other than [this] holds it. *)
Definition own_apart (st : store) (this : string) (dc : loc) : Prop :=
  dc < length (heap st)
  ∧ ∀ T c, T ≠ this → registered_schemas st !! T = Some c → dc ∉ attr_locs c.



(** *** The loop returns when every target is registered *)

Lemma extends_targets_registered (st st' : store) (fields : list (string * field)) :
  extends st st' → targets_registered st fields → targets_registered st' fields.
Proof.
  intros [_ Ha] Hreg. unfold targets_registered in *.
  eapply Forall_impl; [exact Hreg|]. intros item H Hc. simpl in *.
  destruct (H Hc) as [c Hc']. destruct (Ha _ c Hc') as (c' & -> & _). by eexists.
Qed.

Lemma relationship_step_returns (this pk : string) (dc : loc) (st : store)
    (out : relationships) (item : string * field) :
  (class item.2 ≠ Field → is_Some (registered_schemas st !! target_name item.2)) →
  ∃ st' out', relationship_step this pk dc (st, out) item = Ok (st', out').
Proof.
  destruct item as [fieldname fieldval]. cbn [snd]. intros Hreg.
  destruct (decide (class fieldval = Field)) as [Hf | Hf].
  { unfold relationship_step. rewrite Hf. by eexists _, _. }
  rewrite relationship_step_unfold by done.
  destruct (Hreg Hf) as [linked ->].
  destruct (set_default_lists st (target_name fieldval) linked) as [[st1 ldc] lm2m].
  destruct (class fieldval); try done; by eexists _, _.
Qed.

Lemma relationship_loop_returns (this pk : string) (dc : loc) (fields : list (string * field))
    (st : store) (out : relationships) :
  locs_valid st → targets_registered st fields →
  ∃ st' out', foldM (relationship_step this pk dc) (st, out) fields = Ok (st', out').
Proof.
  revert st out. induction fields as [|item fields IH]; intros st out Hvalid Hreg.
  - by eexists _, _.
  - cbn [foldM]. apply Forall_cons in Hreg as [Hitem Hreg].
    destruct (relationship_step_returns this pk dc st out item Hitem) as (st1 & out1 & Hstep).
    rewrite Hstep. cbn [bind].
    destruct (relationship_step_frame _ _ _ _ _ _ _ _ Hstep Hvalid) as (Hvalid1 & Hext1 & _).
    apply IH; [done|]. by eapply extends_targets_registered.
Qed.

(** *** The whole function *)

(** A dict has one value per key. *)
Lemma NoDup_fst_unique {A B : Type} (l : list (A * B)) (x : A) (y1 y2 : B) :
  NoDup l.*1 → (x, y1) ∈ l → (x, y2) ∈ l → y1 = y2.
Proof.
  induction l as [|[a b] l IH]; simpl; intros Hnd H1 H2.
  - by apply elem_of_nil in H1.
  - apply NoDup_cons in Hnd as [Hna Hnd].
    assert (Hfst : ∀ y, (a, y) ∈ l → False).
    { intros y Hy. apply Hna. apply list_elem_of_fmap. by exists (a, y). }
    apply elem_of_cons in H1 as [[= -> ->] | H1]; apply elem_of_cons in H2 as [[= ?] | H2];
      subst; [done | by destruct (Hfst y2) | by destruct (Hfst y1) | by apply IH].
Qed.

(** The state in which the loop of [process_relationships] starts. *)
Lemma process_relationships_unfold (st : store) (this : string) (c : schema_cls) :
  store_ok st → registered_schemas st !! this = Some c →
  ∃ dc m2m st0,
    locs_valid st0 ∧ own_apart st0 this dc ∧ extends st st0
    ∧ heap st0 !! dc = Some (default [] (deletion_cascade_of st this))
    ∧ process_relationships st this =
      ('(st', out) ← foldM (relationship_step this (this_pk c) dc)
                       (st0, {| joins := ∅; new_schema_methods := ∅; _m2m_where_stmts := ∅ |})
                       (_declared_fields c);
       Ok (st',
           {| joins := joins out;
              new_schema_methods :=
                <[ "_m2m_cherrypicks" := list_object m2m ]>
                  (<[ "_deletion_cascade" := list_object dc ]> (new_schema_methods out));
              _m2m_where_stmts := _m2m_where_stmts out |})).
Proof.
  intros [Hvalid Hapart] Hc. unfold process_relationships, registry_at. rewrite Hc. simpl.
  destruct (getattr_list (_deletion_cascade c) (heap st)) as [dc h1] eqn:E1.
  destruct (getattr_list (_m2m_cherrypicks c) h1) as [m2m h2] eqn:E2.
  exists dc, m2m, (with_heap st h2).
  pose proof (getattr_list_grows _ _ _ _ E1) as (Hlen1 & Hsame1 & Hdc).
  pose proof (getattr_list_grows _ _ _ _ E2) as (Hlen2 & Hsame2 & _).
  assert (Hdc' : dc < length h1).
  { apply Hdc. intros k Hk. apply (Hvalid this c); [done|]. apply elem_of_attr_locs. by left. }
  split; [|split; [|split; [|split]]]; [| | | |done].
  - intros T c' l Hc' Hl. simpl in *. assert (l < length (heap st)); [by apply (Hvalid T c') | lia].
  - split; [simpl; lia|]. intros T c' HT Hc' Hin. simpl in Hc'.
    apply getattr_list_spec in E1 as [[Hattr _] | (_ & -> & _)].
    + apply HT. apply (Hapart T this c' c dc); [done | done | done |].
      apply elem_of_attr_locs. by left.
    + assert (length (heap st) < length (heap st)); [by apply (Hvalid T c') | lia].
  - split; simpl; [|intros T c' Hc'; by exists c'].
    intros l xs Hl. exists []. rewrite app_nil_r.
    assert (l < length (heap st)) by by apply lookup_lt_Some in Hl.
    rewrite Hsame2 by lia. by rewrite Hsame1.
  - simpl. rewrite Hsame2 by done. unfold deletion_cascade_of. rewrite Hc. simpl.
    apply getattr_list_spec in E1 as [[Hattr ->] | (Hattr & -> & ->)]; rewrite Hattr; simpl.
    + assert (Hlt : dc < length (heap st)).
      { apply (Hvalid this c); [done|]. apply elem_of_attr_locs. by left. }
      destruct (lookup_lt_is_Some_2 _ _ Hlt) as [xs ->]. done.
    + by rewrite list_lookup_middle.
Qed.







(** C5: a multi reference registers [(table, field, pk)] of the declaring
    side on the linked class's cherry-pick list, its filter condition is the
    containment test [field ?& %(field)s], and it gets no entry in [joins],
    where single references get their equality template. *)
Theorem multi_reference_registers_cherrypick
    (st : store) (this : string) (c : schema_cls) (fieldname : string) (fieldval : field) :
  store_ok st →
  registered_schemas st !! this = Some c →
  targets_registered st (_declared_fields c) →
  NoDup (_declared_fields c).*1 →
  (fieldname, fieldval) ∈ _declared_fields c →
  class fieldval = ForeignResources →
  ∃ st' out,
    process_relationships st this = Ok (st', out)
    ∧ (∃ xs, m2m_cherrypicks_of st' (target_name fieldval) = Some xs
             ∧ (this, fieldname, this_pk c) ∈ xs)
    ∧ _m2m_where_stmts out !! fieldname = Some (fieldname +:+ " ?& %(" +:+ fieldname +:+ ")s")
    ∧ joins out !! fieldname = None.
Proof.
  intros Hok Hc Hreg Hnames Hin Hclass.
  destruct (process_relationships_unfold st this c Hok Hc)
    as (dc & m2m & st0 & Hvalid0 & Hapart0 & Hext0 & Hown0 & ->).
  destruct (relationship_loop_returns this (this_pk c) dc (_declared_fields c) st0
              {| joins := ∅; new_schema_methods := ∅; _m2m_where_stmts := ∅ |} Hvalid0)
    as (st' & out0 & Hloop); [by eapply extends_targets_registered|].
  rewrite Hloop. cbn [mbind res_bind bind]. eexists _, _. split; [done|].
  cbn [joins _m2m_where_stmts].
  destruct (list_elem_of_split _ _ Hin) as (before & after & Hfields).
  rewrite Hfields in Hloop, Hnames.
  rewrite fmap_app, fmap_cons in Hnames. cbn [fst] in Hnames.
  apply NoDup_app in Hnames as (_ & Hbefore_names & [Hafter_names _]%NoDup_cons).
  assert (Hnot_before : fieldname ∉ before.*1).
  { intros H. apply (Hbefore_names _ H), list_elem_of_here. }
  apply foldM_app_Ok in Hloop as ([sa oa] & Hbefore & Hrest).
  cbn [foldM] in Hrest.
  destruct (relationship_step this (this_pk c) dc (sa, oa) (fieldname, fieldval))
    as [[sb ob]|] eqn:Hstep; [|done].
  cbn [bind] in Hrest.
  destruct (relationship_loop_frame _ _ _ _ _ _ _ _ Hbefore Hvalid0) as (Hva & _ & _).
  destruct (relationship_step_frame _ _ _ _ _ _ _ _ Hstep Hva) as (Hvb & _ & _).
  destruct (relationship_loop_frame _ _ _ _ _ _ _ _ Hrest Hvb) as (_ & Hext & _).
  destruct (step_foreign_resources _ _ _ _ _ _ _ _ _ Hclass Hva Hstep)
    as ((xs & Hxs & Hthis) & Hwhere & Hjoins).
  destruct (relationship_loop_other_names _ _ _ _ _ _ _ _ _ Hnot_before Hbefore) as [Hj1 _].
  destruct (relationship_loop_other_names _ _ _ _ _ _ _ _ _ Hafter_names Hrest) as [Hj2 Hw2].
  split; [|split].
  - by eapply extends_m2m_cherrypicks_elem.
  - by rewrite Hw2.
  - by rewrite Hj2, Hjoins, Hj1.
Qed.

(** *** Well-formed stores stay well formed *)

Lemma set_default_lists_apart (st st' : store) (T : string) (linked : schema_cls)
    (dc m2m : loc) :
  registered_schemas st !! T = Some linked → store_ok st →
  set_default_lists st T linked = (st', dc, m2m) → locs_apart st'.
Proof.
  intros HT [Hvalid Hapart] Hset.
  destruct (set_default_lists_spec _ _ _ _ _ _ HT Hvalid Hset)
    as (_ & _ & _ & _ & (c' & Hc' & Hdc' & Hm2m') & Hother & _ & _ & Hfresh1 & Hfresh2).
  assert (Hnew : ∀ T2 c2 l, T2 ≠ T → registered_schemas st !! T2 = Some c2 →
                   l ∈ attr_locs c' → l ∈ attr_locs c2 → False).
  { intros T2 c2 l Hne Hc2 Hl Hl2.
    pose proof (Hvalid T2 c2 l Hc2 Hl2) as Hlt.
    apply elem_of_attr_locs in Hl as [Hl | Hl].
    - rewrite Hdc' in Hl. injection Hl as <-.
      destruct (decide (_deletion_cascade linked = Some dc)) as [He | He].
      + apply Hne. symmetry. apply (Hapart T T2 linked c2 dc); [done | done | | done].
        apply elem_of_attr_locs. by left.
      + specialize (Hfresh1 He). lia.
    - rewrite Hm2m' in Hl. injection Hl as <-.
      destruct (decide (_m2m_cherrypicks linked = Some m2m)) as [He | He].
      + apply Hne. symmetry. apply (Hapart T T2 linked c2 m2m); [done | done | | done].
        apply elem_of_attr_locs. by right.
      + specialize (Hfresh2 He). lia. }
  intros T1 T2 c1 c2 l Hc1 Hc2 Hl1 Hl2.
  destruct (decide (T1 = T)) as [-> | Hne1], (decide (T2 = T)) as [-> | Hne2]; [done | | |].
  - assert (c1 = c') as -> by congruence. rewrite Hother in Hc2 by done.
    by destruct (Hnew T2 c2 l).
  - assert (c2 = c') as -> by congruence. rewrite Hother in Hc1 by done.
    by destruct (Hnew T1 c1 l).
  - rewrite Hother in Hc1, Hc2 by done. by apply (Hapart T1 T2 c1 c2 l).
Qed.

Lemma relationship_step_store_ok (this pk : string) (dc : loc) (st st' : store)
    (out out' : relationships) (item : string * field) :
  relationship_step this pk dc (st, out) item = Ok (st', out') →
  store_ok st → store_ok st'.
Proof.
  destruct item as [fieldname fieldval]. intros Hstep Hok.
  split; [by destruct (relationship_step_frame _ _ _ _ _ _ _ _ Hstep (proj1 Hok))|].
  destruct (decide (class fieldval = Field)) as [Hf | Hf].
  { unfold relationship_step in Hstep. rewrite Hf in Hstep. injection Hstep as <- <-.
    apply Hok. }
  rewrite relationship_step_unfold in Hstep by done.
  destruct (registered_schemas st !! target_name fieldval) as [linked|] eqn:HT; [|done].
  destruct (set_default_lists st (target_name fieldval) linked) as [[st1 ldc] lm2m] eqn:Hset.
  pose proof (set_default_lists_apart _ _ _ _ _ _ HT Hok Hset) as Hapart1.
  destruct (class fieldval); try done; injection Hstep as <- <-; done.
Qed.

Lemma relationship_loop_store_ok (this pk : string) (dc : loc) (fields : list (string * field))
    (st st' : store) (out out' : relationships) :
  foldM (relationship_step this pk dc) (st, out) fields = Ok (st', out') →
  store_ok st → store_ok st'.
Proof.
  revert st out. induction fields as [|item fields IH]; intros st out; cbn [foldM].
  - by intros [= <- <-].
  - destruct (relationship_step this pk dc (st, out) item) as [[sa oa]|] eqn:Hstep; [|done].
    cbn [bind]. intros Hloop Hok. apply (IH sa oa Hloop). by eapply relationship_step_store_ok.
Qed.

(** The registry and the lists as [process_relationships] leaves them (as
    they were, when it raises). *)
Definition store_after (st : store) (this_table : string) : store :=
  match process_relationships st this_table with
  | Ok r => r.1
  | Raise _ => st
  end.

(** Relationship resolution keeps the store well formed: every list
    attribute refers to an allocated list, and no two classes share one. *)
Lemma process_relationships_store_ok (st : store) (this : string) :
  store_ok st → store_ok (store_after st this).
Proof.
  intros Hok. unfold store_after, process_relationships, registry_at.
  destruct (registered_schemas st !! this) as [c|] eqn:Hc; [|done]. cbn [mbind res_bind bind].
  destruct (getattr_list (_deletion_cascade c) (heap st)) as [dc h1] eqn:E1.
  destruct (getattr_list (_m2m_cherrypicks c) h1) as [m2m h2] eqn:E2.
  pose proof (getattr_list_grows _ _ _ _ E1) as (Hlen1 & _ & _).
  pose proof (getattr_list_grows _ _ _ _ E2) as (Hlen2 & _ & _).
  assert (Hok0 : store_ok (with_heap st h2)).
  { destruct Hok as [Hvalid Hapart]. split; [|exact Hapart].
    intros T c' l Hc' Hl. simpl in *.
    assert (l < length (heap st)); [by apply (Hvalid T c') | lia]. }
  destruct (foldM _ _ _) as [[st1 out1]|] eqn:Hloop; [|done]. cbn [bind fst].
  by eapply relationship_loop_store_ok.
Qed.

(** *** The claims at the mock application *)

(** A store in which no list attribute is set yet is well formed. *)
Lemma store_ok_fresh (st : store) :
  map_Forall (λ _ c, attr_locs c = []) (registered_schemas st) → store_ok st.
Proof.
  intros Hfresh. split.
  - intros T c l Hc Hl. rewrite (Hfresh T c Hc) in Hl. by apply elem_of_nil in Hl.
  - intros T1 T2 c1 c2 l Hc1 _ Hl. rewrite (Hfresh T1 c1 Hc1) in Hl. by apply elem_of_nil in Hl.
Qed.

Lemma mock_store_ok : store_ok mock_store.
Proof.
  apply store_ok_fresh. unfold mock_store. cbn [registered_schemas].
  repeat (apply map_Forall_insert_2; [reflexivity|]). apply map_Forall_empty.
Qed.

Lemma process_relationships_store_ok_witness :
  store_ok (store_after mock_store "product").
Proof. exact (process_relationships_store_ok mock_store "product" mock_store_ok). Defined.

Definition Product_descr : field :=
  {| class := ForeignResource; target_name := "desc"; target_pk := "id"; unique := true |}.

Definition Product_producer : field :=
  {| class := ForeignResource; target_name := "producer"; target_pk := "id"; unique := false |}.

Definition Store_distributors : field :=
  {| class := ForeignResources; target_name := "dist"; target_pk := "id"; unique := false |}.

Definition Product : schema_cls :=
  plain "id" [ ("id", scalar); ("name", scalar);
               ("descr", Product_descr); ("producer", Product_producer) ].

Definition Store : schema_cls :=
  plain "id" [ ("id", scalar); ("name", scalar); ("distributors", Store_distributors) ].

Lemma mock_targets_registered (table : string) (c : schema_cls) :
  registered_schemas mock_store !! table = Some c →
  targets_registered mock_store (_declared_fields c).
Proof.
  revert table c. apply map_Forall_lookup. unfold mock_store. cbn [registered_schemas].
  repeat (apply map_Forall_insert_2;
          [repeat constructor; simpl; try done; intros _; by vm_compute|]).
  apply map_Forall_empty.
Qed.





(** A class that refers to itself by a single reference that is not
    unique, its list attributes being set already: the target of the
    reference is the declaring class, and the obligation lands on the
    declaring class's own list. *)
Definition node_store : store :=
  {| registered_schemas :=
       {[ "node" := {| this_pk := "id";
                       _declared_fields :=
                         [ ("id", scalar);
                           ("parent", {| class := ForeignResource; target_name := "node";
                                         target_pk := "id"; unique := false |}) ];
                       _deletion_cascade := Some 0; _m2m_cherrypicks := Some 1 |} ]};
     heap := [ []; [] ] |}.

Example self_reference_appends_to_own_list :
  ∃ st' out,
    process_relationships node_store "node" = Ok (st', out)
    ∧ new_list st' out "_deletion_cascade" = Some [ ("parent", "node", "id") ]
    ∧ deletion_cascade_of st' "node" = Some [ ("parent", "node", "id") ].
Proof.
  destruct (process_relationships node_store "node") as [[st' out]|] eqn:E;
    [|by vm_compute in E].
  exists st', out. split; [done|].
  assert (E' : Ok (st', out) = process_relationships node_store "node") by done.
  clear E. vm_compute in E'. injection E' as -> ->. repeat split; vm_refl.
Qed.
Lemma multi_reference_registers_cherrypick_witness :
  ∃ st' out,
    process_relationships mock_store "store" = Ok (st', out)
    ∧ (∃ xs, m2m_cherrypicks_of st' (target_name Store_distributors) = Some xs
             ∧ ("store", "distributors", this_pk Store) ∈ xs)
    ∧ _m2m_where_stmts out !! "distributors"
      = Some ("distributors" +:+ " ?& %(" +:+ "distributors" +:+ ")s")
    ∧ joins out !! "distributors" = None.
Proof.
  apply (multi_reference_registers_cherrypick mock_store "store" Store
           "distributors" Store_distributors).
  - exact mock_store_ok.
  - vm_refl.
  - apply (mock_targets_registered "store"). vm_refl.
  - apply (bool_decide_unpack _). vm_compute. exact I.
  - simpl. repeat constructor.
  - reflexivity.
Defined.

(** *** View synthesis: classes and routes *)

(** What a class attribute can hold in [create_views] and
    [create_aux_views]. *)
Inductive attr : Type :=
| template_method (name : string)    (* [ViewsTemplate.__dict__[name]] *)
| get_proxy
| list_proxy
| class_value (name : string)        (* [model], [schema_cls], [_perm_options], ... *)
| base_attr (name : string)          (* an attribute of [ViewsBase] or [AuxViewBase] *)
| proto_attr (qualname name : string)  (* an attribute of an auxiliary view's prototype *)
| raise_method_not_allowed (allowed_methods : list string).

#[global] Instance attr_eq_dec : EqDecision attr.
Proof. solve_decision. Defined.

(** A class object: its name, its own [__dict__] and its bases, which are
    references into the table of classes.  A subclass made by a [class]
    statement shares its base and sees later changes of the base. *)
Record class_obj : Type := {
  __name__ : string;
  __dict__ : gmap string attr;
  __bases__ : list nat
}.

(** The classes created so far and the routes added to the router, as
    (method, path, handler class) in the order of registration. *)
Record app : Type := {
  classes : list class_obj;
  routes : list (string * string * nat)
}.

(** The two base classes of [view.py], whose attributes are not part of
    the sources, sit at fixed places in the table. *)
Definition ViewsBase : nat := 0.
Definition AuxViewBase : nat := 1.

(** Attribute lookup along the bases, depth first, the class's own
    [__dict__] first; [fuel] bounds the depth of the hierarchy. *)
Fixpoint getattr_from (fuel : nat) (tbl : list class_obj) (cls : nat) (name : string)
  : option attr :=
  match fuel with
  | O => None
  | S fuel =>
      match tbl !! cls with
      | None => None
      | Some c =>
          match __dict__ c !! name with
          | Some a => Some a
          | None =>
              foldr (λ base found,
                       match getattr_from fuel tbl base name with
                       | Some a => Some a
                       | None => found
                       end) None (__bases__ c)
          end
      end
  end.

Definition getattr (tbl : list class_obj) (cls : nat) (name : string) : option attr :=
  getattr_from (length tbl) tbl cls name.

(** [type(name, bases, dict)] and the [class name(base): pass] statement. *)
Definition new_class (a : app) (name : string) (bases : list nat) (dict : gmap string attr)
  : app * nat :=
  ({| classes := classes a ++ [ {| __name__ := name; __dict__ := dict; __bases__ := bases |} ];
      routes := routes a |},
   length (classes a)).

Definition update_dict (f : gmap string attr → gmap string attr) (cls : nat) (a : app) : app :=
  {| classes := alter (λ c, {| __name__ := __name__ c; __dict__ := f (__dict__ c);
                               __bases__ := __bases__ c |}) cls (classes a);
     routes := routes a |}.

(** [setattr(cls, name, value)] *)
Definition setattr (cls : nat) (name : string) (value : attr) (a : app) : app :=
  update_dict (insert name value) cls a.

(** [popattr(cls, attr)]: [delattr] under [suppress(AttributeError)]; only
    the class's own [__dict__] can lose the attribute. *)
Definition popattr (cls : nat) (name : string) (a : app) : app :=
  update_dict (delete name) cls a.

(** [router.add_route(method, path, handler)]; [add_post] and [add_get] add
    a POST and a GET route. *)
Definition add_route (method path : string) (handler : nat) (a : app) : app :=
  {| classes := classes a; routes := routes a ++ [ (method, path, handler) ] |}.

(** [aiohttp.hdrs.METH_ALL], lowered. *)
Definition METH_ALL : list string :=
  [ "connect"; "head"; "get"; "delete"; "options"; "patch"; "post"; "put"; "trace" ].

(** What [create_views] reads: the schema class's [__name__], and
    [route_base] and [excluded_ops] of its rebased [Meta]. *)
Record view_config : Type := {
  schema___name__ : string;
  route_base : string;
  excluded_ops : list string
}.

Section Views.

(** [ViewsTemplate.__dict__.keys()], in order; [view.py] is not part of the
    sources. *)
Variable ViewsTemplate : list string.

(** [view_methods]: the three common definitions, then the template's
    methods that are neither private nor excluded. *)
Definition view_methods (cfg : view_config) : gmap string attr :=
  foldl (λ methods method_name,
           if startswith method_name "__" then methods
           else if bool_decide (method_name ∈ excluded_ops cfg) then methods
           else <[ method_name := template_method method_name ]> methods)
        (<[ "tablename" := class_value "tablename" ]>
           (<[ "schema_cls" := class_value "schema_cls" ]>
              (<[ "model" := class_value "model" ]> ∅)))
        ViewsTemplate.

(** [self.base_resource_url] *)
Definition base_resource_url (cfg : view_config) : string :=
  "/" +:+ lower (replace (route_base cfg) "/" "") +:+ "/".

(** What one call of [create_views] leaves behind. *)
Record created_views : Type := {
  cls_view : nat;
  cls_view_get_copy : nat;
  cls_view_list_copy : option nat
}.

(** [ViewMaker.create_views].  ([cls_view.post_init(joins)] is a method of
    [ViewsBase]; whatever it sets on [cls_view] is seen alike through the
    two copies, which hold nothing but what is set on them here.) *)
Definition create_views (cfg : view_config) (a : app) : app * created_views :=
  let schema_name := title (schema___name__ cfg) in
  let '(a, cls_view) := new_class a (schema_name +:+ "View") [ ViewsBase ] (view_methods cfg) in
  let a := setattr cls_view "registered_schemas" (class_value "registered_schemas") a in
  let a := add_route "*" (base_resource_url cfg) cls_view a in
  let '(a, get_copy) := new_class a "cls_view_get_copy" [ cls_view ] ∅ in
  let a := foldl (λ a method, if bool_decide (method = "get") then a else popattr get_copy method a)
                 a METH_ALL in
  let a := setattr get_copy "post" get_proxy a in
  let a := add_route "POST" (base_resource_url cfg +:+ "get/") get_copy a in
  if bool_decide ("list" ∉ excluded_ops cfg) then
    let '(a, list_copy) := new_class a "cls_view_list_copy" [ get_copy ] ∅ in
    let a := popattr list_copy "post" a in
    let a := setattr list_copy "get" list_proxy a in
    let a := add_route "GET" (base_resource_url cfg +:+ "list/") list_copy a in
    (a, {| cls_view := cls_view; cls_view_get_copy := get_copy;
           cls_view_list_copy := Some list_copy |})
  else
    (a, {| cls_view := cls_view; cls_view_get_copy := get_copy; cls_view_list_copy := None |}).

End Views.

(** *** Auxiliary views *)

(** An entry of [__aux_routes__]: the prototype's [__qualname__] and the
    names in its [__dict__]. *)
Record proto_viewcls : Type := {
  __qualname__ : string;
  proto_dict : list string
}.

(** The route name as [create_aux_views] normalizes it. *)
Definition normalize_routename (routename : string) : string :=
  let routename := if startswith routename "/" then drop1 routename else routename in
  if endswith routename "/" then routename else routename +:+ "/".

Definition all_ops : list string := [ "post"; "get"; "patch"; "put"; "delete" ].

(** The body of the loop of [create_aux_views] after the name check: the
    view class is made from the prototype's attributes, operations it
    inherits without declaring them are replaced by a 405, and the class is
    routed at [url]. *)
Definition add_aux_view (url : string) (proto : proto_viewcls) (parent : nat) (a : app)
  : app * nat :=
  let view_methods : gmap string attr :=
    list_to_map ((λ name, (name, proto_attr (__qualname__ proto) name)) <$> proto_dict proto) in
  let '(a, view_cls) := new_class a (__qualname__ proto) [ parent; AuxViewBase ] view_methods in
  let a := setattr view_cls "_perm_options" (class_value "_perm_options") a in
  let allowed := upper <$> filter (λ op, op ∈ proto_dict proto) all_ops in
  let a := foldl (λ a op,
                    if bool_decide (is_Some (getattr (classes a) view_cls op) ∧ op ∉ proto_dict proto)
                    then setattr view_cls op (raise_method_not_allowed allowed) a
                    else a) a all_ops in
  (add_route "*" url view_cls a, view_cls).

(** [ViewMaker.create_aux_views], run to the end as [tuple(...)] runs it:
    the state reached, and the views yielded or the [NameError] raised.
    [mod_parent_base] is a subclass of the parent view made once before the
    loop. *)
Fixpoint aux_views_loop (base_resource_url : string) (parent : nat)
    (aux_routes : list (string * proto_viewcls)) (a : app) (yielded : list nat)
  : app * res (list nat) :=
  match aux_routes with
  | [] => (a, Ok yielded)
  | (routename, proto) :: rest =>
      let routename := normalize_routename routename in
      if endswith routename "/list/" then (a, Raise NameError)
      else
        let url := base_resource_url +:+ routename in
        let '(a, view_cls) := add_aux_view url proto parent a in
        aux_views_loop base_resource_url parent rest a (yielded ++ [ view_cls ])
  end.

Definition create_aux_views (base_resource_url : string) (parent_cls_view : nat)
    (aux_routes : option (list (string * proto_viewcls))) (a : app)
  : app * res (list nat) :=
  let '(a, mod_parent_base) := new_class a "mod_parent_base" [ parent_cls_view ] ∅ in
  match aux_routes with
  | Some aux_routes => aux_views_loop base_resource_url mod_parent_base aux_routes a []
  | None => (a, Ok [])
  end.

(** *** Lemmas: the class table *)

(** The three classes [create_views] makes. *)
Definition cls_view_obj (ViewsTemplate : list string) (cfg : view_config) : class_obj :=
  {| __name__ := title (schema___name__ cfg) +:+ "View";
     __dict__ := <[ "registered_schemas" := class_value "registered_schemas" ]>
                   (view_methods ViewsTemplate cfg);
     __bases__ := [ ViewsBase ] |}.

Definition get_copy_obj (cls_view : nat) : class_obj :=
  {| __name__ := "cls_view_get_copy"; __dict__ := {[ "post" := get_proxy ]};
     __bases__ := [ cls_view ] |}.

Definition list_copy_obj (get_copy : nat) : class_obj :=
  {| __name__ := "cls_view_list_copy"; __dict__ := {[ "get" := list_proxy ]};
     __bases__ := [ get_copy ] |}.

Definition with_dict (f : gmap string attr → gmap string attr) (c : class_obj) : class_obj :=
  {| __name__ := __name__ c; __dict__ := f (__dict__ c); __bases__ := __bases__ c |}.

Lemma update_dict_at_end (f : gmap string attr → gmap string attr) (l rest : list class_obj)
    (r : list (string * string * nat)) (i : nat) :
  update_dict f (length l + i) {| classes := l ++ rest; routes := r |}
  = {| classes := l ++ alter (with_dict f) i rest; routes := r |}.
Proof. unfold update_dict. cbn [classes routes]. f_equal. apply alter_app_r. Qed.

Lemma popattr_empty (l : list class_obj) (name : string) (bases : list nat)
    (rest : list class_obj) (r : list (string * string * nat)) (method : string) :
  popattr (length l) method
    {| classes := l ++ {| __name__ := name; __dict__ := ∅; __bases__ := bases |} :: rest;
       routes := r |}
  = {| classes := l ++ {| __name__ := name; __dict__ := ∅; __bases__ := bases |} :: rest;
       routes := r |}.
Proof.
  unfold popattr. rewrite <- (Nat.add_0_r (length l)) at 1.
  rewrite update_dict_at_end. cbn [alter list_alter]. unfold with_dict. cbn [__name__ __dict__ __bases__].
  by rewrite delete_empty.
Qed.

Lemma foldl_fixed {A B : Type} (f : A → B → A) (a : A) (l : list B) :
  (∀ b, f a b = a) → foldl f a l = a.
Proof. intros H. induction l as [|b l IH]; simpl; [done|]. by rewrite H. Qed.

Lemma setattr_last (l rest : list class_obj) (c : class_obj)
    (r : list (string * string * nat)) (name : string) (value : attr) :
  setattr (length l) name value {| classes := l ++ c :: rest; routes := r |}
  = {| classes := l ++ with_dict (insert name value) c :: rest; routes := r |}.
Proof.
  unfold setattr. rewrite <- (Nat.add_0_r (length l)) at 1.
  by rewrite update_dict_at_end.
Qed.

Lemma create_views_eq (ViewsTemplate : list string) (cfg : view_config) (a : app) :
  create_views ViewsTemplate cfg a =
  let n := length (classes a) in
  let base := base_resource_url cfg in
  if bool_decide ("list" ∉ excluded_ops cfg) then
    ({| classes := classes a ++ [ cls_view_obj ViewsTemplate cfg; get_copy_obj n;
                                  list_copy_obj (S n) ];
        routes := routes a ++ [ ("*", base, n); ("POST", base +:+ "get/", S n);
                                ("GET", base +:+ "list/", S (S n)) ] |},
     {| cls_view := n; cls_view_get_copy := S n; cls_view_list_copy := Some (S (S n)) |})
  else
    ({| classes := classes a ++ [ cls_view_obj ViewsTemplate cfg; get_copy_obj n ];
        routes := routes a ++ [ ("*", base, n); ("POST", base +:+ "get/", S n) ] |},
     {| cls_view := n; cls_view_get_copy := S n; cls_view_list_copy := None |}).
Proof.
  unfold create_views, new_class. cbn [classes routes].
  rewrite setattr_last. cbn [add_route classes routes].
  rewrite foldl_fixed.
  2:{ intros method. case_bool_decide; [done|]. apply popattr_empty. }
  rewrite setattr_last. cbn [add_route classes routes].
  unfold with_dict. cbn [__name__ __dict__ __bases__].
  rewrite !insert_empty.
  destruct (bool_decide ("list" ∉ excluded_ops cfg)).
  - cbn [classes routes]. rewrite popattr_empty, setattr_last.
    cbn [add_route classes routes]. unfold with_dict. cbn [__name__ __dict__ __bases__].
    rewrite insert_empty, !length_app. cbn [length].
    rewrite !Nat.add_1_r, <- !app_assoc. unfold add_route. cbn [classes routes].
    rewrite <- !app_assoc. reflexivity.
  - rewrite !length_app. cbn [length]. rewrite !Nat.add_1_r, <- !app_assoc.
    unfold add_route. cbn [classes routes]. rewrite <- !app_assoc. reflexivity.
Qed.

(** [build_app] around [create_views]: the permissions are attached to
    the view class after its copies were made,
    [cls_view._perm_options = {'perms': perms, ...}]. *)
Definition build_view (ViewsTemplate : list string) (cfg : view_config) (a : app)
  : app * created_views :=
  let '(a, v) := create_views ViewsTemplate cfg a in
  (setattr (cls_view v) "_perm_options" (class_value "_perm_options") a, v).

(** A table holds the two base classes, and bases are made before their
    subclasses. *)
Definition table_ok (tbl : list class_obj) : Prop :=
  2 ≤ length tbl ∧ ∀ i c b, tbl !! i = Some c → b ∈ __bases__ c → b < i.

Lemma getattr_from_fuel (tbl : list class_obj) (name : string) :
  table_ok tbl →
  ∀ bound cls f1 f2, cls < bound → cls < f1 → cls < f2 →
    getattr_from f1 tbl cls name = getattr_from f2 tbl cls name.
Proof.
  intros [_ Hbases]. induction bound as [|bound IH]; intros cls f1 f2 Hb H1 H2; [lia|].
  destruct f1 as [|f1], f2 as [|f2]; [lia | lia | lia |]. cbn [getattr_from].
  destruct (tbl !! cls) as [c|] eqn:Hc; [|done].
  destruct (__dict__ c !! name); [done|].
  assert (Hsmall : ∀ b, b ∈ __bases__ c → b < cls) by (intros b; apply (Hbases cls c b Hc)).
  induction (__bases__ c) as [|b bs IHbs]; [done|]. cbn [foldr].
  rewrite (IH b f1 f2), IHbs.
  - done.
  - intros b' Hb'. apply Hsmall. by apply list_elem_of_further.
  - specialize (Hsmall b (list_elem_of_here _ _)). lia.
  - specialize (Hsmall b (list_elem_of_here _ _)). lia.
  - specialize (Hsmall b (list_elem_of_here _ _)). lia.
Qed.

(** Lookup on a class with one base: its own [__dict__], then the base. *)
Lemma getattr_single_base (tbl : list class_obj) (cls base : nat) (c : class_obj)
    (name : string) :
  table_ok tbl → tbl !! cls = Some c → __bases__ c = [ base ] →
  getattr tbl cls name =
  match __dict__ c !! name with
  | Some a => Some a
  | None => getattr tbl base name
  end.
Proof.
  intros Hok Hc Hbase. unfold getattr.
  pose proof (lookup_lt_Some _ _ _ Hc) as Hlt.
  destruct (length tbl) as [|fuel] eqn:Hlen; [lia|].
  set (found := getattr_from (S fuel) tbl base name).
  cbn [getattr_from].
  rewrite Hc, Hbase. destruct (__dict__ c !! name); [done|]. cbn [foldr].
  assert (base < cls).
  { destruct Hok as [_ Hb]. apply (Hb cls c base Hc). rewrite Hbase. apply list_elem_of_here. }
  rewrite (getattr_from_fuel tbl name Hok (S fuel) base fuel (S fuel)) by lia.
  fold found. by destruct found.
Qed.

Lemma getattr_own (tbl : list class_obj) (cls : nat) (c : class_obj) (name : string) (a : attr) :
  tbl !! cls = Some c → __dict__ c !! name = Some a → getattr tbl cls name = Some a.
Proof.
  intros Hc Ha. unfold getattr. pose proof (lookup_lt_Some _ _ _ Hc) as Hlt.
  destruct (length tbl) as [|fuel]; [lia|]. cbn [getattr_from]. by rewrite Hc, Ha.
Qed.

Lemma view_methods_lookup (ViewsTemplate : list string) (cfg : view_config) (name : string) :
  name ∈ ViewsTemplate → startswith name "__" = false → name ∉ excluded_ops cfg →
  view_methods ViewsTemplate cfg !! name = Some (template_method name).
Proof.
  intros Hin Hpub Hex. unfold view_methods.
  generalize (<[ "tablename" := class_value "tablename" ]>
                (<[ "schema_cls" := class_value "schema_cls" ]>
                   (<[ "model" := class_value "model" ]> (∅ : gmap string attr)))).
  assert (Hgen : ∀ init : gmap string attr,
            name ∈ ViewsTemplate ∨ init !! name = Some (template_method name) →
            foldl (λ methods method_name,
                     if startswith method_name "__" then methods
                     else if bool_decide (method_name ∈ excluded_ops cfg) then methods
                     else <[ method_name := template_method method_name ]> methods)
                  init ViewsTemplate !! name = Some (template_method name)).
  { clear Hin. induction ViewsTemplate as [|m ms IH]; intros init [Hin | Hinit]; cbn [foldl].
    - by apply elem_of_nil in Hin.
    - done.
    - apply IH. apply elem_of_cons in Hin as [<- | Hin]; [|by left].
      right. rewrite Hpub, bool_decide_false by done. apply lookup_insert_eq.
    - apply IH. right. destruct (startswith m "__"); [done|].
      case_bool_decide; [done|]. destruct (decide (m = name)) as [-> | Hne].
      + apply lookup_insert_eq.
      + by rewrite lookup_insert_ne. }
  intros init. apply Hgen. by left.
Qed.

Lemma getattr_from_prefix (l rest : list class_obj) (name : string) :
  table_ok l →
  ∀ fuel cls, cls < length l →
    getattr_from fuel (l ++ rest) cls name = getattr_from fuel l cls name.
Proof.
  intros [_ Hbases]. induction fuel as [|fuel IH]; intros cls Hcls; [done|].
  cbn [getattr_from]. rewrite lookup_app_l by done.
  destruct (l !! cls) as [c|] eqn:Hc; [|done].
  destruct (__dict__ c !! name); [done|].
  assert (Hsmall : ∀ b, b ∈ __bases__ c → b < cls) by (intros b; apply (Hbases cls c b Hc)).
  induction (__bases__ c) as [|b bs IHbs]; [done|]. cbn [foldr].
  rewrite IH by (specialize (Hsmall b (list_elem_of_here _ _)); lia).
  rewrite IHbs; [done|]. intros b' Hb'. apply Hsmall. by apply list_elem_of_further.
Qed.

(** Classes made later do not change what an earlier class resolves. *)
Lemma getattr_prefix (l rest : list class_obj) (cls : nat) (name : string) :
  table_ok l → cls < length l → getattr (l ++ rest) cls name = getattr l cls name.
Proof.
  intros Hok Hcls. unfold getattr. rewrite getattr_from_prefix by done.
  apply (getattr_from_fuel l name Hok (length l) cls); [done | | done].
  rewrite length_app. lia.
Qed.


Lemma build_view_eq (ViewsTemplate : list string) (cfg : view_config) (a : app) :
  build_view ViewsTemplate cfg a =
  let n := length (classes a) in
  let base := base_resource_url cfg in
  let cv := with_dict (insert "_perm_options" (class_value "_perm_options"))
                      (cls_view_obj ViewsTemplate cfg) in
  if bool_decide ("list" ∉ excluded_ops cfg) then
    ({| classes := classes a ++ [ cv; get_copy_obj n; list_copy_obj (S n) ];
        routes := routes a ++ [ ("*", base, n); ("POST", base +:+ "get/", S n);
                                ("GET", base +:+ "list/", S (S n)) ] |},
     {| cls_view := n; cls_view_get_copy := S n; cls_view_list_copy := Some (S (S n)) |})
  else
    ({| classes := classes a ++ [ cv; get_copy_obj n ];
        routes := routes a ++ [ ("*", base, n); ("POST", base +:+ "get/", S n) ] |},
     {| cls_view := n; cls_view_get_copy := S n; cls_view_list_copy := None |}).
Proof.
  unfold build_view. rewrite create_views_eq. cbn zeta.
  destruct (bool_decide ("list" ∉ excluded_ops cfg)); cbn [cls_view]; by rewrite setattr_last.
Qed.

(** The table [build_view] leaves, with or without the list copy. *)
Lemma built_table_ok (l : list class_obj) (cv : class_obj) (rest : list class_obj) :
  table_ok l → __bases__ cv = [ ViewsBase ] →
  rest = [] ∨ rest = [ list_copy_obj (S (length l)) ] →
  table_ok (l ++ cv :: get_copy_obj (length l) :: rest).
Proof.
  intros [Hlen Hb] Hcv Hrest. split; [rewrite length_app; lia|].
  intros i c b Hc Hin.
  destruct (decide (i < length l)) as [Hi | Hi].
  { rewrite lookup_app_l in Hc by done. by apply (Hb i c). }
  rewrite lookup_app_r in Hc by lia.
  destruct (i - length l) as [|[|[|k]]] eqn:Hk; cbn in Hc.
  - injection Hc as <-. rewrite Hcv in Hin. apply list_elem_of_singleton in Hin as ->.
    unfold ViewsBase. lia.
  - injection Hc as <-. cbn in Hin. apply list_elem_of_singleton in Hin as ->. lia.
  - destruct Hrest as [-> | ->]; [done|]. cbn in Hc. injection Hc as <-.
    cbn in Hin. apply list_elem_of_singleton in Hin as ->. lia.
  - destruct Hrest as [-> | ->]; done.
Qed.

(** *** The views of the mock application *)

(** A table to evaluate the properties at.  [view.py] is not part of the
    sources, and what its two base classes define is left open: they are
    entered here without attributes, and the properties of view synthesis
    are proved for every table.  The operations are the methods of
    [ViewsTemplate], named like the six canonical operations. *)
Definition initial_app : app :=
  {| classes := [ {| __name__ := "ViewsBase"; __dict__ := ∅; __bases__ := [] |};
                  {| __name__ := "AuxViewBase"; __dict__ := ∅; __bases__ := [] |} ];
     routes := [] |}.

Definition canonical_template : list string :=
  [ "get"; "list"; "post"; "put"; "patch"; "delete" ].

Definition CustomOpsResource : view_config :=
  {| schema___name__ := "CustomOpsResource"; route_base := "customop"; excluded_ops := [] |}.


Lemma initial_app_ok : table_ok (classes initial_app).
Proof.
  split; [simpl; lia|]. intros [|[|i]] c b Hc Hb; simpl in Hc; [| |done];
    injection Hc as <-; by apply elem_of_nil in Hb.
Qed.

Example customop_routes :
  routes (build_view canonical_template CustomOpsResource initial_app).1
  = [ ("*", "/customop/", 2); ("POST", "/customop/get/", 3); ("GET", "/customop/list/", 4) ].
Proof. vm_refl. Qed.


(** *** The claims about view synthesis *)



(** *** Auxiliary routes *)

(** The name passes the check of [create_aux_views]. *)
Definition accepted (item : string * proto_viewcls) : Prop :=
  endswith (normalize_routename item.1) "/list/" = false.

#[global] Instance accepted_dec item : Decision (accepted item).
Proof. unfold accepted. apply _. Defined.

(** The routes reached before the first rejected name. *)
Fixpoint accepted_prefix (aux_routes : list (string * proto_viewcls))
  : list (string * proto_viewcls) :=
  match aux_routes with
  | [] => []
  | item :: rest =>
      if endswith (normalize_routename item.1) "/list/" then []
      else item :: accepted_prefix rest
  end.

Lemma normalize_routename_trailing_slash (routename : string) :
  endswith (normalize_routename routename) "/" = true.
Proof.
  unfold normalize_routename.
  destruct (endswith (if startswith routename "/" then drop1 routename else routename) "/") eqn:E;
    [done | apply endswith_app_self].
Qed.

Lemma normalize_routename_leading_slash (routename : string) :
  startswith routename "/" = false →
  normalize_routename ("/" +:+ routename) = normalize_routename routename.
Proof.
  intros H. unfold normalize_routename. rewrite H.
  change (startswith ("/" +:+ routename) "/") with (startswith routename "").
  replace (startswith routename "") with true by by destruct routename.
  done.
Qed.

Lemma routes_conditional_setattr (view_cls : nat) (proto : proto_viewcls)
    (allowed ops : list string) (a : app) :
  routes (foldl (λ a op,
                   if bool_decide (is_Some (getattr (classes a) view_cls op)
                                   ∧ op ∉ proto_dict proto)
                   then setattr view_cls op (raise_method_not_allowed allowed) a
                   else a) a ops) = routes a.
Proof.
  revert a. induction ops as [|op ops IH]; intros a; cbn [foldl]; [done|].
  rewrite IH. by case_bool_decide.
Qed.

Lemma add_aux_view_routes (url : string) (proto : proto_viewcls) (parent : nat) (a : app) :
  routes (add_aux_view url proto parent a).1
  = routes a ++ [ ("*", url, (add_aux_view url proto parent a).2) ].
Proof.
  unfold add_aux_view, new_class. cbn [fst snd add_route routes].
  by rewrite routes_conditional_setattr.
Qed.

Lemma aux_views_loop_spec (base : string) (parent : nat)
    (aux_routes : list (string * proto_viewcls)) (a : app) (yielded : list nat) :
  ∃ views,
    length views = length (accepted_prefix aux_routes)
    ∧ routes (aux_views_loop base parent aux_routes a yielded).1
      = routes a ++ zip_with (λ item view, ("*", base +:+ normalize_routename item.1, view))
                             (accepted_prefix aux_routes) views
    ∧ (aux_views_loop base parent aux_routes a yielded).2
      = if decide (Forall accepted aux_routes) then Ok (yielded ++ views) else Raise NameError.
Proof.
  revert a yielded. induction aux_routes as [|[routename proto] rest IH]; intros a yielded.
  - exists []. cbn. rewrite !app_nil_r. by rewrite decide_True by constructor.
  - cbn [aux_views_loop accepted_prefix fst].
    destruct (endswith (normalize_routename routename) "/list/") eqn:Hend.
    + exists []. cbn. rewrite app_nil_r. split; [done|]. split; [done|].
      rewrite decide_False; [done|]. intros [Hacc _]%Forall_cons.
      unfold accepted in Hacc. simpl in Hacc. congruence.
    + destruct (add_aux_view (base +:+ normalize_routename routename) proto parent a)
        as [a1 view_cls] eqn:Hadd.
      pose proof (add_aux_view_routes (base +:+ normalize_routename routename) proto parent a)
        as Hroutes.
      rewrite Hadd in Hroutes. cbn [fst snd] in Hroutes.
      destruct (IH a1 (yielded ++ [ view_cls ])) as (views & Hlen & Hr & Hres).
      exists (view_cls :: views). split; [cbn; by rewrite Hlen|]. split.
      * rewrite Hr, Hroutes. cbn [zip_with]. by rewrite <- app_assoc.
      * rewrite Hres. destruct (decide (Forall accepted rest)) as [Hall | Hall].
        -- rewrite decide_True by (constructor; done). by rewrite <- app_assoc.
        -- rewrite decide_False; [done|]. by intros [_ ?]%Forall_cons.
Qed.

Lemma accepted_prefix_accepted (aux_routes : list (string * proto_viewcls)) :
  Forall accepted (accepted_prefix aux_routes).
Proof.
  induction aux_routes as [|item rest IH]; cbn [accepted_prefix]; [constructor|].
  destruct (endswith (normalize_routename item.1) "/list/") eqn:E; by constructor.
Qed.

(** C4, as the code has it: the auxiliary routes are registered, up to the
    first rejected name, at the base path followed by the normalized name,
    which ends in a slash; a name is rejected with [NameError] when,
    normalized, it ends in [/list/], and then it is not registered. *)
Theorem aux_routes_nested_and_list_segment_rejected
    (base : string) (parent : nat) (aux_routes : list (string * proto_viewcls)) (a : app) :
  let result := create_aux_views base parent (Some aux_routes) a in
  (∃ views,
     length views = length (accepted_prefix aux_routes)
     ∧ routes result.1
       = routes a ++ zip_with (λ item view, ("*", base +:+ normalize_routename item.1, view))
                              (accepted_prefix aux_routes) views
     ∧ result.2 = if decide (Forall accepted aux_routes) then Ok views else Raise NameError)
  ∧ Forall (λ item,
              startswith (base +:+ normalize_routename item.1) base = true
              ∧ endswith (base +:+ normalize_routename item.1) "/" = true
              ∧ endswith (normalize_routename item.1) "/list/" = false)
           (accepted_prefix aux_routes)
  ∧ (result.2 = Raise NameError ↔
     ∃ item, item ∈ aux_routes ∧ endswith (normalize_routename item.1) "/list/" = true)
  ∧ (∀ routename,
       endswith (normalize_routename routename) "/" = true
       ∧ (startswith routename "/" = false →
          normalize_routename ("/" +:+ routename) = normalize_routename routename)
       ∧ (startswith routename "/" = false → endswith routename "/" = true →
          normalize_routename routename = routename)
       ∧ (startswith routename "/" = false → endswith routename "/" = false →
          normalize_routename routename = routename +:+ "/")).
Proof.
  cbn zeta. unfold create_aux_views, new_class.
  set (a0 := {| classes := classes a ++ _; routes := routes a |}).
  destruct (aux_views_loop_spec base (length (classes a)) aux_routes a0 [])
    as (views & Hlen & Hroutes & Hres).
  split; [|split; [|split]].
  - exists views. by rewrite Hroutes, Hres.
  - eapply Forall_impl; [apply accepted_prefix_accepted|].
    intros item Hacc. split; [apply startswith_app|].
    split; [apply endswith_app, normalize_routename_trailing_slash | exact Hacc].
  - rewrite Hres. destruct (decide (Forall accepted aux_routes)) as [Hall | Hall].
    + split; [done|]. intros (item & Hin & Hbad). exfalso.
      rewrite Forall_forall in Hall. specialize (Hall item Hin).
      unfold accepted in Hall. congruence.
    + split; [intros _|done].
      apply not_Forall_Exists in Hall; [|apply _].
      apply Exists_exists in Hall as (item & Hin & Hbad). exists item. split; [done|].
      unfold accepted in Hbad. simpl in Hbad. by destruct (endswith _ "/list/").
  - intros routename. split; [apply normalize_routename_trailing_slash|].
    split; [apply normalize_routename_leading_slash|].
    unfold normalize_routename. split; intros -> ->; done.
Qed.

Definition SimpleAuxView : proto_viewcls :=
  {| __qualname__ := "SimpleAuxView"; proto_dict := [ "get" ] |}.

Example customop_aux_routes :
  routes (create_aux_views "/customop/" 2
            (Some [ ("/simpleaux_path/", SimpleAuxView);
                    ("{id}/insert_random_number/",
                     {| __qualname__ := "DrawNumberView"; proto_dict := [ "post" ] |}) ])
            (build_view canonical_template CustomOpsResource initial_app).1).1
  = [ ("*", "/customop/", 2); ("POST", "/customop/get/", 3); ("GET", "/customop/list/", 4);
      ("*", "/customop/simpleaux_path/", 6);
      ("*", "/customop/{id}/insert_random_number/", 7) ].
Proof. vm_refl. Qed.

Example aux_route_with_list_segment_rejected :
  (create_aux_views "/customop/" 2 (Some [ ("reports/list", SimpleAuxView) ])
     (build_view canonical_template CustomOpsResource initial_app).1).2
  = Raise NameError.
Proof. vm_refl. Qed.

(** The name [list] itself passes the check, the leading slash being
    stripped before it: its route has the URL of the list operation. *)
Example aux_route_named_list_not_rejected :
  routes (create_aux_views "/customop/" 2 (Some [ ("/list/", SimpleAuxView) ])
            (build_view canonical_template CustomOpsResource initial_app).1).1
  = [ ("*", "/customop/", 2); ("POST", "/customop/get/", 3); ("GET", "/customop/list/", 4);
      ("*", "/customop/list/", 6) ].
Proof. vm_refl. Qed.

(** C4, as stated, fails: a name that merely ends in [list/] is registered. *)
Lemma aux_route_ending_in_list_is_registered :
  endswith (normalize_routename "mylist") "list/" = true
  ∧ create_aux_views "/customop/" 2 (Some [ ("mylist", SimpleAuxView) ])
      (build_view canonical_template CustomOpsResource initial_app).1
    = ({| classes := classes (create_aux_views "/customop/" 2 (Some [ ("mylist", SimpleAuxView) ])
                       (build_view canonical_template CustomOpsResource initial_app).1).1;
          routes := [ ("*", "/customop/", 2); ("POST", "/customop/get/", 3);
                      ("GET", "/customop/list/", 4); ("*", "/customop/mylist/", 6) ] |},
       Ok [ 6 ]).
Proof. split; vm_refl. Qed.

End Core.

(** ** The role-scoped API description ([PathsReturner], [__init__.py]) *)

Module SpecFilter.
Import Py.

(** *** JSON values and the Python operations the filter applies to them *)

(** The OpenAPI document is a tree of [dict]s, [list]s and scalars; a [dict]
    is kept as its items in insertion order, one item per key. *)
Inductive json : Type :=
| JNull
| JBool (b : bool)
| JNum (n : Z)
| JStr (s : string)
| JList (l : list json)
| JDict (items : list (string * json)).

(** [d.get(key)] on the items of a [dict]. *)
Fixpoint assoc (key : string) (items : list (string * json)) : option json :=
  match items with
  | [] => None
  | (k, v) :: rest => if bool_decide (k = key) then Some v else assoc key rest
  end.

(** [v[key]] for a [str] key. *)
Definition getitem (v : json) (key : string) : res json :=
  match v with
  | JDict items =>
      match assoc key items with
      | Some x => Ok x
      | None => Raise KeyError
      end
  | _ => Raise TypeError
  end.

(** [v[0]] *)
Definition getitem0 (v : json) : res json :=
  match v with
  | JList (x :: _) => Ok x
  | JList [] => Raise IndexError
  | JStr (String c _) => Ok (JStr (String c EmptyString))
  | JStr EmptyString => Raise IndexError
  | JDict _ => Raise KeyError
  | _ => Raise TypeError
  end.

Definition hashable (v : json) : bool :=
  match v with
  | JList _ | JDict _ => false
  | _ => true
  end.

Fixpoint chars (s : string) : list json :=
  match s with
  | EmptyString => []
  | String c s' => JStr (String c EmptyString) :: chars s'
  end.

(** [set(v)]: the elements of the set, or the [TypeError] of a value that
    is not iterable or has an unhashable element. *)
Definition to_set (v : json) : res (list json) :=
  match v with
  | JList l => if forallb hashable l then Ok l else Raise TypeError
  | JStr s => Ok (chars s)
  | JDict items => Ok (JStr <$> items.*1)
  | _ => Raise TypeError
  end.

(** [v.items()] where the code calls it on what must be a [dict]. *)
Definition items_of (v : json) : res (list (string * json)) :=
  match v with
  | JDict items => Ok items
  | _ => Raise AttributeError
  end.

Definition is_str (s : string) (v : json) : bool :=
  match v with
  | JStr s' => String.eqb s s'
  | _ => false
  end.

(** [s in authed] for a string [s]. *)
Definition str_in (s : string) (authed : list json) : bool := existsb (is_str s) authed.

(** [self.roles]: the tuple the dataclass field defaults to, or the [set]
    [actor_apispec] assigns, given in its iteration order. *)
Inductive pyroles : Type :=
| RolesTuple (elements : list string)
| RolesSet (elements : list string).

Definition role_elements (roles : pyroles) : list string :=
  match roles with
  | RolesTuple l => l
  | RolesSet l => l
  end.

(** [bool(authed & roles)]: a [set] and a [tuple] do not intersect, they
    raise. *)
Definition intersects (authed : list json) (roles : pyroles) : res bool :=
  match roles with
  | RolesSet l => Ok (existsb (λ r, str_in r authed) l)
  | RolesTuple _ => Raise TypeError
  end.

(** *** The first loop: operations the roles do not reach are deleted *)

(** [set(op_obj['security'][0]['authed'])] *)
Definition authed_of (op_obj : json) : res (list json) :=
  security ← getitem op_obj "security";
  first ← getitem0 security;
  authed ← getitem first "authed";
  to_set authed.

(** The body under [suppress(KeyError, TypeError)]: [true] when the
    operation is deleted from the copy. *)
Definition role_gate (roles : pyroles) (op_obj : json) : res bool :=
  authed ← authed_of op_obj;
  if str_in "*" authed || bool_decide ("Admin" ∈ role_elements roles) then Ok false
  else
    common ← intersects authed roles;
    Ok (negb common).

Definition deleted (roles : pyroles) (op_obj : json) : res bool :=
  suppress [ KeyError; TypeError ] false (role_gate roles op_obj).

(** The operations of one path that stay in the copy. *)
Definition filter_ops (roles : pyroles) (ops : list (string * json))
  : res (list (string * json)) :=
  foldM (λ kept item,
           del ← deleted roles item.2;
           Ok (if del : bool then kept else kept ++ [ item ]))
        [] ops.

(** [spec['paths']] after the first loop: the loop runs over the original
    and deletes from the deep copy, which keeps the other items in order. *)
Definition filter_paths (json_spec : json) (roles : pyroles)
  : res (list (string * json)) :=
  paths ← getitem json_spec "paths";
  path_items ← items_of paths;
  foldM (λ spec_paths item,
           ops ← items_of item.2;
           kept ← filter_ops roles ops;
           Ok (spec_paths ++ [ (item.1, JDict kept) ]))
        [] path_items.

(** *** The second loop: one entry per routed operation with a schema *)

Record route : Type := {
  _method : string;
  handler___name__ : string
}.

(** A resource of the router: a plain or dynamic resource has [_routes] and
    a [_path] or a [_formatter]; a sub-application has no [_routes]. *)
Inductive resource : Type :=
| PlainResource (_path : string) (_routes : list route)
| DynamicResource (_formatter : string) (_routes : list route)
| PrefixedSubAppResource.

Record entry : Type := {
  url : string;
  authed : bool;
  schema : json
}.

(** [d[key] = value] on the items of a [dict]. *)
Fixpoint dict_set {V : Type} (key : string) (value : V) (items : list (string * V))
  : list (string * V) :=
  match items with
  | [] => [ (key, value) ]
  | (k, v) :: rest =>
      if bool_decide (k = key) then (k, value) :: rest else (k, v) :: dict_set key value rest
  end.

(** A loop whose body may raise, keeping what was built when it does. *)
Fixpoint for_each {A S : Type} (step : S → A → res S) (acc : S) (l : list A)
  : S * option exn :=
  match l with
  | [] => (acc, None)
  | x :: l' =>
      match step acc x with
      | Ok acc' => for_each step acc' l'
      | Raise e => (acc, Some e)
      end
  end.

(** [obj['requestBody']['content']['application/json']['schema']['$ref'].rsplit('/', 1)[1]] *)
Definition schema_key_of (obj : json) : res string :=
  body ← getitem obj "requestBody";
  content ← getitem body "content";
  media ← getitem content "application/json";
  sch ← getitem media "schema";
  ref ← getitem sch "$ref";
  match ref with
  | JStr s =>
      match rsplit1_last "/" s with
      | Some key => Ok key
      | None => Raise IndexError
      end
  | _ => Raise AttributeError
  end.

(** ['security' in obj], for the [dict] that [obj] is at this point. *)
Definition has_security (obj : json) : bool :=
  match obj with
  | JDict items => bool_decide (is_Some (assoc "security" items))
  | _ => false
  end.

(** The body of [for method, obj in view_spec.items()]. *)
Definition view_step (json_spec : json) (url viewname : string)
    (out : list (string * entry)) (item : string * json) : res (list (string * entry)) :=
  let method := if bool_decide (item.1 = "options") then "list" else item.1 in
  schema_key ← schema_key_of item.2;
  components ← getitem json_spec "components";
  schemas ← getitem components "schemas";
  schema ← getitem schemas schema_key;
  Ok (dict_set (viewname +:+ ":" +:+ method)
               {| url := url; authed := has_security item.2; schema := schema |} out).

(** The body of [for resource in self.router.resources()]. *)
Definition resource_step (json_spec : json) (spec_paths : list (string * json))
    (out : list (string * entry)) (r : resource) : res (list (string * entry)) :=
  match r with
  | PrefixedSubAppResource => Ok out
  | PlainResource url routes | DynamicResource url routes =>
      match routes with
      | [] => Raise IndexError
      | route0 :: _ =>
          if bool_decide (_method route0 ∈ [ "OPTIONS"; "POST" ]) then Ok out
          else
            match replace (handler___name__ route0) "View" "" with
            | EmptyString => Raise IndexError
            | String c rest =>
                let viewname := String (to_lower c) rest in
                match assoc url spec_paths with
                | None => Ok out
                | Some view_spec =>
                    ops ← items_of view_spec;
                    match for_each (view_step json_spec url viewname) out ops with
                    | (out, None) | (out, Some KeyError) => Ok out
                    | (_, Some e) => Raise e
                    end
                end
            end
      end
  end.

(** [PathsReturner.paths_by_roles], the function under the cache. *)
Definition paths_by_roles (json_spec : json) (router : list resource) (roles : pyroles)
  : res (list (string * entry)) :=
  spec_paths ← filter_paths json_spec roles;
  foldM (resource_step json_spec spec_paths) [] router.

(** *** Visibility of an operation to a role set *)




(** The same, computed. *)
Definition visibleb (R : list string) (op_obj : json) : bool :=
  match authed_of op_obj with
  | Ok authed =>
      str_in "*" authed || bool_decide ("Admin" ∈ R) || existsb (λ r, str_in r authed) R
  | Raise IndexError => false
  | Raise _ => true
  end.


Definition ops_of (pathobj : json) : list (string * json) :=
  match pathobj with
  | JDict ops => ops
  | _ => []
  end.

Definition is_dict (v : json) : bool :=
  match v with
  | JDict _ => true
  | _ => false
  end.


(** [spec['paths']] after the first loop, in closed form. *)
Definition visible_paths (R : list string) (path_items : list (string * json))
  : list (string * json) :=
  (λ item, (item.1, JDict (filter (λ op, visibleb R op.2 = true) (ops_of item.2))))
    <$> path_items.







(** *** What the second loop reports *)










Lemma visible_paths_dicts (R : list string) (path_items : list (string * json)) :
  Forall (λ item, is_dict item.2 = true) (visible_paths R path_items).
Proof. unfold visible_paths. apply Forall_fmap, Forall_forall. by intros item _. Qed.




(** *** The claims about the filter *)



(** *** An API description with a read and a write operation *)

Definition secured (roles : list string) : string * json :=
  ("security", JList [ JDict [ ("authed", JList (JStr <$> roles)) ] ]).

Definition request_body (schema_name : string) : string * json :=
  ("requestBody",
   JDict [ ("content",
            JDict [ ("application/json",
                     JDict [ ("schema",
                              JDict [ ("$ref", JStr ("#/components/schemas/" +:+ schema_name)) ]) ]) ]) ]).

Definition store_get : json := JDict [ secured [ "Owner" ] ].

Definition store_post : json := JDict [ secured [ "Manager" ]; request_body "Store" ].

Definition store_schema : json := JDict [ ("type", JStr "object") ].

Definition store_paths : list (string * json) :=
  [ ("/store/", JDict [ ("get", store_get); ("post", store_post) ]) ].

Definition store_spec : json :=
  JDict [ ("paths", JDict store_paths);
          ("components", JDict [ ("schemas", JDict [ ("Store", store_schema) ]) ]) ].

Definition store_router : list resource :=
  [ PlainResource "/store/" [ {| _method := "*"; handler___name__ := "StoreView" |} ];
    PlainResource "/store/get/" [ {| _method := "POST"; handler___name__ := "cls_view_get_copy" |} ] ].

Example manager_sees_post :
  paths_by_roles store_spec store_router (RolesSet [ "Manager" ])
  = Ok [ ("store:post", {| url := "/store/"; authed := true; schema := store_schema |}) ].
Proof. vm_refl. Qed.

Example admin_filter_keeps_everything :
  filter_paths store_spec (RolesSet [ "Admin" ]) = Ok store_paths.
Proof. vm_refl. Qed.




(** An operation with an empty [security] list stops the filter: its [[0]]
    raises an [IndexError] that nothing catches. *)
Lemma empty_security_list_raises :
  paths_by_roles
    (JDict [ ("paths", JDict [ ("/store/", JDict [ ("get", JDict [ ("security", JList []) ]) ]) ]) ])
    store_router (RolesSet [ "Owner" ])
  = Raise IndexError.
Proof. vm_refl. Qed.

(** *** The cache over the shared instance *)

Section Cache.

(** [hash((self,))], which [__hash__] makes a function of
    [tuple(self.roles)]: the elements of the roles in iteration order. *)
Variable hash : list string → Z.

(** The instance and the [lru_cache] of its property.  The cache holds
    every entry under the hash its key had when it was stored; the key of
    every entry is the one instance, equal to itself whatever its roles. *)
Record PathsReturner : Type := {
  json_spec : json;
  router : list resource;
  roles : pyroles;
  cache : list (Z * list (string * entry))
}.

Definition maxsize : nat := 128.

Fixpoint cache_lookup (h : Z) (cache : list (Z * list (string * entry)))
  : option (list (string * entry)) :=
  match cache with
  | [] => None
  | (h', v) :: rest => if Z.eqb h' h then Some v else cache_lookup h rest
  end.

Definition with_roles (self : PathsReturner) (roles : pyroles) : PathsReturner :=
  {| json_spec := json_spec self; router := router self; roles := roles; cache := cache self |}.

Definition with_cache (self : PathsReturner) (cache : list (Z * list (string * entry)))
  : PathsReturner :=
  {| json_spec := json_spec self; router := router self; roles := roles self; cache := cache |}.

(** [self.paths_by_roles]: a hit returns what is stored and makes the entry
    the most recent; a miss runs the function and stores its result, the
    oldest entry leaving a full cache. *)
Definition get_paths_by_roles (self : PathsReturner)
  : res (PathsReturner * list (string * entry)) :=
  let h := hash (role_elements (roles self)) in
  match cache_lookup h (cache self) with
  | Some v =>
      Ok (with_cache self ((h, v) :: filter (λ kv, kv.1 ≠ h) (cache self)), v)
  | None =>
      v ← paths_by_roles (json_spec self) (router self) (roles self);
      Ok (with_cache self (take maxsize ((h, v) :: cache self)), v)
  end.

(** [setup_postschema]: the instance is made with the default [roles = ()]
    and its property is read once. *)
Definition setup (openapi_spec : json) (router : list resource) : res PathsReturner :=
  '(self, _) ← get_paths_by_roles
                 {| json_spec := openapi_spec; router := router;
                    roles := RolesTuple []; cache := [] |};
  Ok self.

(** [actor_apispec]: [paths_by_roles.roles = set(request.session.roles)],
    the set given in its iteration order, then the property is read. *)
Definition actor_apispec (self : PathsReturner) (session_roles : list string)
  : res (PathsReturner * list (string * entry)) :=
  get_paths_by_roles (with_roles self (RolesSet session_roles)).

(** A stored entry answers every role set whose tuple hashes alike. *)
Lemma cache_hit_ignores_roles (self : PathsReturner) (session_roles : list string)
    (v : list (string * entry)) :
  cache_lookup (hash session_roles) (cache self) = Some v →
  ∃ self', actor_apispec self session_roles = Ok (self', v).
Proof.
  intros Hhit. unfold actor_apispec, get_paths_by_roles. cbn [roles with_roles role_elements cache].
  rewrite Hhit. by eexists.
Qed.

End Cache.

Definition secret_post : json := JDict [ secured [ "Owner" ]; request_body "Secret" ].

Definition secret_spec : json :=
  JDict [ ("paths", JDict [ ("/secret/", JDict [ ("post", secret_post) ]) ]);
          ("components", JDict [ ("schemas", JDict [ ("Secret", store_schema) ]) ]) ].

Definition secret_router : list resource :=
  [ PlainResource "/secret/" [ {| _method := "*"; handler___name__ := "SecretView" |} ] ].

(** C8 (the code departs from it): after [setup_postschema], whose first
    read runs with [roles = ()] and deletes nothing, a session with the
    empty role set is answered from the cache with the operation that is
    restricted to [Owner], which deriving the projection for the empty set
    leaves out.  This holds for every hash function. *)
Theorem cache_answers_empty_role_set_with_setup_projection (hash : list string → Z) :
  ∃ self self',
    setup hash secret_spec secret_router = Ok self
    ∧ actor_apispec hash self [] =
      Ok (self', [ ("secret:post",
                    {| url := "/secret/"; authed := true; schema := store_schema |}) ])
    ∧ paths_by_roles secret_spec secret_router (RolesSet []) = Ok [].
Proof.
  eexists _, _. split; [|split].
  - vm_compute. reflexivity.
  - unfold actor_apispec, get_paths_by_roles.
    cbn [roles with_roles role_elements cache cache_lookup].
    rewrite Z.eqb_refl. reflexivity.
  - vm_refl.
Qed.

Lemma cache_hit_ignores_roles_witness :
  ∃ self',
    actor_apispec (λ _, 0%Z)
      {| json_spec := secret_spec; router := secret_router; roles := RolesSet [ "Owner" ];
         cache := [ (0%Z, [ ("secret:post",
                             {| url := "/secret/"; authed := true; schema := store_schema |}) ]) ] |}
      [ "Patient" ]
    = Ok (self', [ ("secret:post",
                    {| url := "/secret/"; authed := true; schema := store_schema |}) ]).
Proof.
  apply (cache_hit_ignores_roles (λ _, 0%Z)
           {| json_spec := secret_spec; router := secret_router; roles := RolesSet [ "Owner" ];
              cache := [ (0%Z, [ ("secret:post",
                                  {| url := "/secret/"; authed := true;
                                     schema := store_schema |}) ]) ] |}
           [ "Patient" ]).
  reflexivity.
Defined.

End SpecFilter.

(** ** Payload hooks ([hooks.py]) *)

Module Hooks.
Import Py.

(** *** [escape_iterable] *)

Section Escape.

(** The payload's values, and [psycopg2.extras.Json], which wraps one. *)
Context {V : Type}.
Variable Json : V → V.

(** [escape_iterable(fieldnames)], the hook it returns applied to a
    payload: a listed field that the payload holds is wrapped, one it does
    not hold is passed over ([KeyError]). *)
Definition escape_iterable (fieldnames : list string) (payload : gmap string V)
  : gmap string V :=
  foldl (λ payload fieldname,
           match payload !! fieldname with
           | Some v => <[ fieldname := Json v ]> payload
           | None => payload
           end) payload fieldnames.

(** How often a name is listed. *)
Definition times_listed (k : string) (fieldnames : list string) : nat :=
  length (filter (λ fieldname, fieldname = k) fieldnames).

Lemma times_listed_notin (k : string) (fieldnames : list string) :
  k ∉ fieldnames → times_listed k fieldnames = 0.
Proof.
  unfold times_listed. induction fieldnames as [|f l IH]; intros Hk; [done|].
  apply not_elem_of_cons in Hk as [Hne Hk].
  rewrite filter_cons_False by (by intros ->). by apply IH.
Qed.

Lemma times_listed_once (k : string) (fieldnames : list string) :
  NoDup fieldnames → k ∈ fieldnames → times_listed k fieldnames = 1.
Proof.
  unfold times_listed. induction 1 as [|f l Hf Hl IH]; intros Hk.
  - by apply elem_of_nil in Hk.
  - apply elem_of_cons in Hk as [-> | Hk].
    + rewrite filter_cons_True by done. cbn [length]. f_equal.
      by apply (times_listed_notin f l).
    + rewrite filter_cons_False by (intros ->; done). by apply IH.
Qed.

Lemma escape_iterable_lookup (fieldnames : list string) (payload : gmap string V)
    (k : string) :
  escape_iterable fieldnames payload !! k
  = Nat.iter (times_listed k fieldnames) Json <$> payload !! k.
Proof.
  unfold escape_iterable, times_listed.
  revert payload. induction fieldnames as [|f l IH]; intros payload; cbn [foldl].
  - by destruct (payload !! k).
  - rewrite IH. destruct (decide (f = k)) as [-> | Hne].
    + rewrite filter_cons_True by done. cbn [length].
      destruct (payload !! k) as [v|] eqn:Hk.
      * rewrite lookup_insert_eq. cbn [fmap option_fmap option_map]. f_equal.
        by rewrite Nat.iter_succ_r.
      * by rewrite Hk.
    + rewrite filter_cons_False by done.
      destruct (payload !! f) as [v|]; [by rewrite lookup_insert_ne | done].
Qed.

End Escape.

(** *** [translate_naive_nested_to_dict] *)

(** [translate_naive_nested_to_dict(nested_map, extraction_field)], the
    hook applied to a payload whose [extraction_field], when present, lists
    field names: a dict comprehension over
    [payload.get(extraction_field, [])]. *)
Definition translate_naive_nested_to_dict (nested_map : gmap string string)
    (extraction_field : string) (payload : gmap string (list string)) : gmap string string :=
  foldl (λ d payload_field,
           <[ payload_field := default payload_field (nested_map !! payload_field) ]> d)
        ∅ (default [] (payload !! extraction_field)).

Lemma comprehension_lookup (nested_map : gmap string string) (l : list string)
    (d : gmap string string) (k : string) :
  foldl (λ d payload_field,
           <[ payload_field := default payload_field (nested_map !! payload_field) ]> d) d l
  !! k
  = if decide (k ∈ l) then Some (default k (nested_map !! k)) else d !! k.
Proof.
  revert d. induction l as [|x l IH]; intros d; cbn [foldl].
  - rewrite decide_False; [done | apply not_elem_of_nil].
  - rewrite IH. destruct (decide (k ∈ l)) as [Hin | Hnin].
    + rewrite decide_True; [done | by apply list_elem_of_further].
    + destruct (decide (x = k)) as [-> | Hne].
      * rewrite decide_True by apply list_elem_of_here. apply lookup_insert_eq.
      * rewrite decide_False by (by intros [? | ?]%elem_of_cons).
        by apply lookup_insert_ne.
Qed.

(** *** [translate_naive_nested] *)

(** The loop of [translate_naive_nested]: a [for] over the very list the
    body edits.  The list iterator holds an index [i] and stops when it
    reaches the end of the list as it then is; the body removes the first
    occurrence of the name and appends its statement.  [fuel] bounds the
    number of iterations. *)
Fixpoint translate_loop (nested_map : gmap string string) (fuel i : nat) (l : list string)
  : list string :=
  match fuel with
  | O => l
  | S fuel =>
      match l !! i with
      | None => l
      | Some payload_field =>
          match nested_map !! payload_field with
          | Some stmt =>
              translate_loop nested_map fuel (S i)
                (Shield.remove_first payload_field l ++ [ stmt ])
          | None => translate_loop nested_map fuel (S i) l
          end
      end
  end.

(** [translate_naive_nested(schema_cls, extraction_field)], the hook applied
    to a payload; [_nested_select_stmts] is [None] for a class without that
    attribute.  The list keeps its length, so the iterator is exhausted
    after as many steps as the list has items. *)
Definition translate_naive_nested (_nested_select_stmts : option (gmap string string))
    (extraction_field : string) (payload : gmap string (list string))
  : gmap string (list string) :=
  match _nested_select_stmts with
  | None => payload
  | Some nested_map =>
      match payload !! extraction_field with
      | None => payload
      | Some l => <[ extraction_field := translate_loop nested_map (length l) 0 l ]> payload
      end
  end.

(** What the walk over the edited list comes to: the names left in place
    and the statements appended.  The name after a translated one moves into
    the place the iterator has just left, and is not looked at. *)
Fixpoint kept_and_translated (nested_map : gmap string string) (l : list string)
  : list string * list string :=
  match l with
  | [] => ([], [])
  | x :: rest =>
      match nested_map !! x with
      | None =>
          let '(kept, translated) := kept_and_translated nested_map rest in
          (x :: kept, translated)
      | Some stmt =>
          match rest with
          | [] => ([], [ stmt ])
          | y :: rest' =>
              let '(kept, translated) := kept_and_translated nested_map rest' in
              (y :: kept, stmt :: translated)
          end
      end
  end.

Lemma length_remove_first (x : string) (l : list string) :
  x ∈ l → S (length (Shield.remove_first x l)) = length l.
Proof.
  induction l as [|y l IH]; intros Hx; [by apply elem_of_nil in Hx|].
  cbn [Shield.remove_first]. case_bool_decide as Hy; [done|].
  apply elem_of_cons in Hx as [-> | Hx]; [done|].
  cbn [length]. by rewrite IH.
Qed.

(** The iterator stops by itself: fuel beyond the length of the list is
    never used. *)
Lemma translate_loop_fuel (nested_map : gmap string string) (fuel extra i : nat)
    (l : list string) :
  length l ≤ i + fuel →
  translate_loop nested_map (fuel + extra) i l = translate_loop nested_map fuel i l.
Proof.
  revert i l. induction fuel as [|fuel IH]; intros i l Hlen.
  - cbn [translate_loop Nat.add]. destruct extra as [|extra]; [done|].
    cbn [translate_loop]. by rewrite lookup_ge_None_2 by lia.
  - cbn [translate_loop Nat.add]. destruct (l !! i) as [x|] eqn:Hx; [|done].
    destruct (nested_map !! x) as [stmt|]; [|apply IH; lia].
    apply IH. rewrite length_app. cbn [length].
    pose proof (length_remove_first x l (list_elem_of_lookup_2 _ _ _ Hx)). lia.
Qed.

Lemma translate_loop_length (nested_map : gmap string string) (fuel i : nat)
    (l : list string) :
  length (translate_loop nested_map fuel i l) = length l.
Proof.
  revert i l. induction fuel as [|fuel IH]; intros i l; cbn [translate_loop]; [done|].
  destruct (l !! i) as [x|] eqn:Hx; [|done].
  destruct (nested_map !! x) as [stmt|]; [|apply IH].
  rewrite IH, length_app. cbn [length].
  pose proof (length_remove_first x l (list_elem_of_lookup_2 _ _ _ Hx)). lia.
Qed.

(** Past the names that have a statement the loop changes nothing. *)
Lemma translate_loop_idle (nested_map : gmap string string) (fuel i : nat)
    (l : list string) :
  (∀ j x, i ≤ j → l !! j = Some x → nested_map !! x = None) →
  translate_loop nested_map fuel i l = l.
Proof.
  revert i. induction fuel as [|fuel IH]; intros i Hidle; cbn [translate_loop]; [done|].
  destruct (l !! i) as [x|] eqn:Hx; [|done].
  rewrite (Hidle i x) by done. apply IH. intros j y Hj. apply Hidle. lia.
Qed.

Lemma translate_loop_walk (nested_map : gmap string string) (n : nat) :
  (∀ x stmt, nested_map !! x = Some stmt → nested_map !! stmt = None) →
  ∀ R K T fuel,
    length R ≤ n → NoDup (K ++ R) → Forall (λ t, nested_map !! t = None) T →
    length R + length T ≤ fuel →
    translate_loop nested_map fuel (length K) (K ++ R ++ T)
    = K ++ (kept_and_translated nested_map R).1 ++ T ++ (kept_and_translated nested_map R).2.
Proof.
  intros Hfinal. induction n as [|n IH]; intros R K T fuel Hn Hnodup HT Hfuel.
  - destruct R; [|cbn in Hn; lia]. cbn [kept_and_translated fst snd app].
    rewrite app_nil_r. apply translate_loop_idle. intros j x Hj Hx.
    rewrite lookup_app_r in Hx by done.
    rewrite Forall_forall in HT. apply HT. by apply list_elem_of_lookup_2 in Hx.
  - destruct R as [|x R].
    { cbn [kept_and_translated fst snd app]. rewrite app_nil_r.
      apply translate_loop_idle. intros j y Hj Hy.
      rewrite lookup_app_r in Hy by done.
      rewrite Forall_forall in HT. apply HT. by apply list_elem_of_lookup_2 in Hy. }
    cbn [length] in Hn, Hfuel. destruct fuel as [|fuel]; [lia|].
    cbn [translate_loop]. rewrite <- app_comm_cons, list_lookup_middle by done.
    cbn [kept_and_translated].
    assert (HxK : x ∉ K).
    { apply NoDup_app in Hnodup as (_ & Hdisj & _). intros HK.
      apply (Hdisj x HK), list_elem_of_here. }
    destruct (nested_map !! x) as [stmt|] eqn:Hx.
    + rewrite Shield.remove_first_app, bool_decide_false by done.
      cbn [Shield.remove_first]. rewrite bool_decide_true by done.
      destruct R as [|y R].
      * cbn [fst snd app]. rewrite <- !app_assoc. cbn [app].
        apply translate_loop_idle. intros j z Hj Hz.
        rewrite lookup_app_r in Hz by lia.
        apply list_elem_of_lookup_2, elem_of_app in Hz as [Hz | Hz].
        -- rewrite Forall_forall in HT. by apply HT.
        -- apply list_elem_of_singleton in Hz as ->. by apply (Hfinal x).
      * destruct (kept_and_translated nested_map R) as [kept translated] eqn:HR.
        cbn [fst snd]. cbn [length] in Hn, Hfuel.
        specialize (IH R (K ++ [ y ]) (T ++ [ stmt ]) fuel).
        rewrite HR in IH. cbn [fst snd] in IH.
        assert (HK : length (K ++ [ y ]) = S (length K)) by (rewrite length_app; cbn; lia).
        rewrite HK in IH. rewrite <- !app_assoc in IH. cbn [app] in IH.
        rewrite <- !app_assoc. cbn [app]. rewrite IH; [done | lia | | | ].
        -- apply NoDup_app in Hnodup as (HKnd & Hdisj & Hrest).
           apply NoDup_cons in Hrest as (Hx' & Hrest).
           apply NoDup_app. split; [done|]. split; [|done].
           intros z Hz Hz'. apply (Hdisj z Hz). by apply list_elem_of_further.
        -- apply Forall_app. split; [done|]. constructor; [by apply (Hfinal x) | constructor].
        -- rewrite length_app. cbn [length]. lia.
    + destruct (kept_and_translated nested_map R) as [kept translated] eqn:HR.
      cbn [fst snd].
      specialize (IH R (K ++ [ x ]) T fuel).
      rewrite HR in IH. cbn [fst snd] in IH.
      assert (HK : length (K ++ [ x ]) = S (length K)) by (rewrite length_app; cbn; lia).
      rewrite HK in IH. rewrite <- !app_assoc in IH. cbn [app] in IH.
      rewrite IH; [done | lia | done | done | lia].
Qed.

(** Every field listed for wrapping is wrapped as often as it is listed, a
    field that is not listed or not in the payload is left as it is, and the
    payload keeps its keys. *)
Theorem escape_iterable_wraps_fields_as_listed {V : Type} (Json : V → V)
    (fieldnames : list string) (payload : gmap string V) :
  (∀ k, escape_iterable Json fieldnames payload !! k
        = Nat.iter (times_listed k fieldnames) Json <$> payload !! k)
  ∧ (∀ k, k ∉ fieldnames → escape_iterable Json fieldnames payload !! k = payload !! k)
  ∧ (NoDup fieldnames →
     ∀ k, k ∈ fieldnames → escape_iterable Json fieldnames payload !! k = Json <$> payload !! k)
  ∧ dom (escape_iterable Json fieldnames payload) = dom payload.
Proof.
  split; [apply escape_iterable_lookup|]. split; [|split].
  - intros k Hk. rewrite escape_iterable_lookup, times_listed_notin by done.
    by destruct (payload !! k).
  - intros Hnodup k Hk. by rewrite escape_iterable_lookup, times_listed_once.
  - apply set_eq. intros k. rewrite !elem_of_dom, escape_iterable_lookup.
    by rewrite fmap_is_Some.
Qed.

(** The dict built from the requested names has one entry per requested
    name, whatever its position and however often it is requested; the entry
    is the name's nested statement, or the name itself when it has none; a
    payload without the field gives the empty dict. *)
Theorem translate_to_dict_maps_each_requested_name (nested_map : gmap string string)
    (extraction_field : string) (payload : gmap string (list string)) :
  (∀ k, translate_naive_nested_to_dict nested_map extraction_field payload !! k
        = if decide (k ∈ default [] (payload !! extraction_field))
          then Some (default k (nested_map !! k)) else None)
  ∧ (payload !! extraction_field = None →
     translate_naive_nested_to_dict nested_map extraction_field payload = ∅).
Proof.
  split.
  - intros k. unfold translate_naive_nested_to_dict. rewrite comprehension_lookup.
    by rewrite lookup_empty.
  - intros Hnone. unfold translate_naive_nested_to_dict. by rewrite Hnone.
Qed.

(** The in-place translation walks the list it edits.  For a list of
    distinct names and statements that are not themselves names with a
    statement, the field ends as the names left in place followed by the
    statements of the names translated, where a name that directly follows
    a translated name is left in place untranslated even when it has a
    statement; the list keeps its length. *)
Theorem translate_naive_nested_skips_name_after_translated
    (nested_map : gmap string string) (extraction_field : string)
    (payload : gmap string (list string)) (l : list string) :
  payload !! extraction_field = Some l →
  NoDup l →
  map_Forall (λ _ stmt, nested_map !! stmt = None) nested_map →
  translate_naive_nested (Some nested_map) extraction_field payload
  = <[ extraction_field := (kept_and_translated nested_map l).1
                           ++ (kept_and_translated nested_map l).2 ]> payload
  ∧ length ((kept_and_translated nested_map l).1 ++ (kept_and_translated nested_map l).2)
    = length l.
Proof.
  intros Hl Hnodup Hfinal.
  assert (Hwalk : translate_loop nested_map (length l) 0 l
                  = (kept_and_translated nested_map l).1
                    ++ (kept_and_translated nested_map l).2).
  { pose proof (translate_loop_walk nested_map (length l)) as H.
    specialize (H (λ x stmt Hx, Hfinal x stmt Hx) l [] [] (length l)).
    cbn [app length] in H. rewrite !app_nil_r in H. apply H; [done | done | constructor | lia]. }
  split.
  - unfold translate_naive_nested. by rewrite Hl, Hwalk.
  - rewrite <- Hwalk. apply translate_loop_length.
Qed.

Lemma translate_naive_nested_skips_name_after_translated_witness :
  translate_naive_nested (Some {[ "owner" := "(SELECT owner)"; "tags" := "(SELECT tags)" ]})
    "select" {[ "select" := [ "owner"; "tags"; "name" ] ]}
  = <[ "select" := [ "tags"; "name"; "(SELECT owner)" ] ]>
      ({[ "select" := [ "owner"; "tags"; "name" ] ]} : gmap string (list string))
  ∧ length [ "tags"; "name"; "(SELECT owner)" ] = length [ "owner"; "tags"; "name" ].
Proof.
  assert (E : kept_and_translated {[ "owner" := "(SELECT owner)"; "tags" := "(SELECT tags)" ]}
                [ "owner"; "tags"; "name" ]
              = ([ "tags"; "name" ], [ "(SELECT owner)" ])) by vm_refl.
  pose proof (translate_naive_nested_skips_name_after_translated
                {[ "owner" := "(SELECT owner)"; "tags" := "(SELECT tags)" ]} "select"
                {[ "select" := [ "owner"; "tags"; "name" ] ]} [ "owner"; "tags"; "name" ]) as H.
  rewrite E in H. apply H.
  - reflexivity.
  - apply (bool_decide_unpack _). vm_compute. exact I.
  - apply (bool_decide_unpack _). vm_compute. exact I.
Defined.

End Hooks.

(** ** Waiting for the database ([setup_db], [provision_db.py]) *)

Module ProvisionDb.

#[local] Open Scope Z_scope.

(** What one pass through the [try] block of the retry loop meets:
    [engine.connect()] raises, or it returns a connection on which
    [execute("COMMIT")] raises, or both succeed. *)
Inductive attempt : Type :=
| ConnectFails
| CommitFails
| Connected.

#[global] Instance attempt_eq_dec : EqDecision attempt.
Proof. solve_decision. Defined.

(** The local variables of [setup_db] the loop works on: [conn] is unbound
    ([None]) or bound by the attempt of that number; [slept] lists the
    arguments of the calls of [sleep]. *)
Record locals : Type := {
  conn : option nat;
  retries : Z;
  time_wait : Z;
  slept : list Z
}.

(** [while retries >= 0: try: ... break; except Exception: sleep(time_wait);
    time_wait *= 2; retries -= 1], with [db n] the fate of attempt [n]. *)
Fixpoint connect_loop (fuel : nat) (db : nat → attempt) (n : nat) (s : locals) : locals :=
  match fuel with
  | O => s
  | S fuel =>
      if bool_decide (retries s >= 0) then
        match db n with
        | Connected =>
            {| conn := Some n; retries := retries s; time_wait := time_wait s;
               slept := slept s |}
        | CommitFails =>
            connect_loop fuel db (S n)
              {| conn := Some n; retries := retries s - 1; time_wait := time_wait s * 2;
                 slept := slept s ++ [ time_wait s ] |}
        | ConnectFails =>
            connect_loop fuel db (S n)
              {| conn := conn s; retries := retries s - 1; time_wait := time_wait s * 2;
                 slept := slept s ++ [ time_wait s ] |}
        end
      else s
  end.

(** What [conn.execute("CREATE DATABASE ...")] does on a connection: it
    returns, or raises an error whose text has or has not [already exists]
    in it. *)
Inductive create_result : Type :=
| Created
| AlreadyExists
| CreateFails.

(** How [setup_db] goes on up to the end of its first [try] statement. *)
Inductive ending : Type :=
| RuntimeError          (* raised after the loop *)
| UnboundLocalError     (* [conn] is read unbound, in the [try] and again in [finally] *)
| CreateError           (* the error of [CREATE DATABASE], raised again *)
| DatabaseReady.        (* the function goes on to connect to the database *)

#[global] Instance ending_eq_dec : EqDecision ending.
Proof. solve_decision. Defined.

(** [setup_db], from [time_wait = 1] to the end of the first [try]
    statement.  The loop is entered at most twelve times. *)
Definition setup_db (db : nat → attempt) (create : create_result) : ending * locals :=
  let s := connect_loop 12 db 0 {| conn := None; retries := 10; time_wait := 1; slept := [] |} in
  if bool_decide (retries s = 0) then (RuntimeError, s)
  else
    match conn s with
    | None => (UnboundLocalError, s)
    | Some _ =>
        match create with
        | CreateFails => (CreateError, s)
        | Created | AlreadyExists => (DatabaseReady, s)
        end
    end.

(** *** The loop in closed form *)

(** The attempts that fail before the first that connects, among [count]
    attempts from [n] on. *)
Fixpoint failures (db : nat → attempt) (n count : nat) : nat :=
  match count with
  | O => O
  | S count =>
      match db n with
      | Connected => O
      | _ => S (failures db (S n) count)
      end
  end.

(** The last attempt before [n] that got a connection object. *)
Fixpoint last_conn (db : nat → attempt) (n : nat) : option nat :=
  match n with
  | O => None
  | S n => if decide (db n = CommitFails) then Some n else last_conn db n
  end.

Definition waits (k : nat) : list Z := (λ i : nat, 2 ^ Z.of_nat i) <$> seq 0 k.

(** The locals after [n] failed attempts, and when the loop is left after
    [k] failed attempts. *)
Definition state_at (db : nat → attempt) (n : nat) : locals :=
  {| conn := last_conn db n; retries := 10 - Z.of_nat n; time_wait := 2 ^ Z.of_nat n;
     slept := waits n |}.

Definition final (db : nat → attempt) (k : nat) : locals :=
  {| conn := if decide (k < 11)%nat then Some k else last_conn db 11;
     retries := 10 - Z.of_nat k; time_wait := 2 ^ Z.of_nat k; slept := waits k |}.

Lemma waits_S (k : nat) : waits (S k) = waits k ++ [ 2 ^ Z.of_nat k ].
Proof. unfold waits. by rewrite seq_S, fmap_app. Qed.

Lemma pow2_S (k : nat) : 2 ^ Z.of_nat k * 2 = 2 ^ Z.of_nat (S k).
Proof. rewrite Nat2Z.inj_succ, Z.pow_succ_r by lia. lia. Qed.

Lemma sum_waits (k : nat) : foldr Z.add 0 (waits k) = 2 ^ Z.of_nat k - 1.
Proof.
  induction k as [|k IH]; [done|].
  rewrite waits_S, foldr_app. cbn [foldr].
  assert (H : ∀ (l : list Z) (a : Z), foldr Z.add a l = foldr Z.add 0 l + a).
  { induction l as [|x l IHl]; intros a; cbn [foldr]; [lia|]. rewrite IHl. lia. }
  rewrite H, IH, <- pow2_S. lia.
Qed.

Lemma connect_loop_from (db : nat → attempt) (count n fuel : nat) :
  (n + count = 11)%nat → (count < fuel)%nat →
  connect_loop fuel db n (state_at db n) = final db (n + failures db n count).
Proof.
  revert n fuel. induction count as [|count IH]; intros n fuel Hn Hfuel.
  - destruct fuel as [|fuel]; [lia|]. cbn [connect_loop failures state_at retries].
    rewrite bool_decide_false by lia.
    assert (n = 11%nat) as -> by lia. unfold final, state_at.
    by rewrite decide_False by lia.
  - destruct fuel as [|fuel]; [lia|]. cbn [connect_loop failures state_at retries].
    rewrite bool_decide_true by lia.
    assert (Hnext : ∀ c, c = last_conn db (S n) →
              connect_loop fuel db (S n)
                {| conn := c; retries := 10 - Z.of_nat n - 1;
                   time_wait := 2 ^ Z.of_nat n * 2;
                   slept := waits n ++ [ 2 ^ Z.of_nat n ] |}
              = final db (n + S (failures db (S n) count))).
    { intros c ->. rewrite <- Nat.add_succ_comm. rewrite <- (IH (S n) fuel) by lia.
      unfold state_at. rewrite waits_S, pow2_S. do 2 f_equal. lia. }
    cbn [conn time_wait slept].
    destruct (db n) eqn:Hdb.
    + apply Hnext. cbn [last_conn]. by rewrite Hdb, decide_False.
    + apply Hnext. cbn [last_conn]. by rewrite Hdb, decide_True.
    + unfold final. rewrite Nat.add_0_r. by rewrite decide_True by lia.
Qed.

Lemma connect_loop_final (db : nat → attempt) :
  connect_loop 12 db 0 {| conn := None; retries := 10; time_wait := 1; slept := [] |}
  = final db (failures db 0 11).
Proof. exact (connect_loop_from db 11 0 12 eq_refl ltac:(lia)). Qed.

(** More fuel changes nothing: the loop is left by [break] or by its
    test. *)
Lemma connect_loop_fuel (db : nat → attempt) (fuel : nat) :
  (12 ≤ fuel)%nat →
  connect_loop fuel db 0 {| conn := None; retries := 10; time_wait := 1; slept := [] |}
  = connect_loop 12 db 0 {| conn := None; retries := 10; time_wait := 1; slept := [] |}.
Proof.
  intros Hfuel. rewrite connect_loop_final.
  exact (connect_loop_from db 11 0 fuel eq_refl ltac:(lia)).
Qed.

Lemma failures_le (db : nat → attempt) (n count : nat) : (failures db n count ≤ count)%nat.
Proof.
  revert n. induction count as [|count IH]; intros n; cbn [failures]; [lia|].
  destruct (db n); [specialize (IH (S n)); lia | specialize (IH (S n)); lia | lia].
Qed.

Lemma failures_spec (db : nat → attempt) (count n k : nat) :
  failures db n count = k ↔
  (k ≤ count)%nat ∧ (∀ i, (i < k)%nat → db (n + i)%nat ≠ Connected)
  ∧ ((k < count)%nat → db (n + k)%nat = Connected).
Proof.
  revert n k. induction count as [|count IH]; intros n k; cbn [failures].
  - split.
    + intros <-. split; [lia|]. split; intros; lia.
    + intros (Hk & _). lia.
  - destruct (db n) eqn:Hdb.
    1,2: destruct k as [|k];
      [ split; [done|]; intros (_ & _ & H); rewrite Nat.add_0_r in H;
        specialize (H ltac:(lia)); congruence
      | rewrite Nat.succ_inj_wd, IH; split;
        [ intros (Hk & Hfail & Hconn); split; [lia|]; split;
          [ intros [|i] Hi;
            [ rewrite Nat.add_0_r; congruence
            | rewrite <- Nat.add_succ_comm; apply Hfail; lia ]
          | intros Hlt; rewrite <- Nat.add_succ_comm; apply Hconn; lia ]
        | intros (Hk & Hfail & Hconn); split; [lia|]; split;
          [ intros i Hi; rewrite Nat.add_succ_comm; apply Hfail; lia
          | intros Hlt; rewrite Nat.add_succ_comm; apply Hconn; lia ] ] ].
    split.
    + intros <-. split; [lia|]. split; [intros; lia|]. intros _. by rewrite Nat.add_0_r.
    + intros (_ & Hfail & _). destruct k as [|k]; [done|].
      specialize (Hfail 0%nat ltac:(lia)). rewrite Nat.add_0_r in Hfail. congruence.
Qed.

(** [setup_db] gives up with its [RuntimeError] exactly when the database
    is reached, at the eleventh and last attempt; in every other case the
    check after the loop lets it pass. *)
Theorem setup_db_gives_up_iff_last_attempt_connects
    (db : nat → attempt) (create : create_result) :
  (setup_db db create).1 = RuntimeError ↔
  (∀ n, (n < 10)%nat → db n ≠ Connected) ∧ db 10%nat = Connected.
Proof.
  unfold setup_db. rewrite connect_loop_final.
  set (k := failures db 0 11).
  assert (Hk : failures db 0 11 = k) by done.
  apply failures_spec in Hk as (Hle & Hfail & Hconn). cbn [Nat.add] in Hfail, Hconn.
  cbn [final retries conn]. case_bool_decide as Hret.
  - assert (k = 10%nat) as Hk10 by lia. rewrite Hk10 in Hfail, Hconn.
    split; [intros _|done]. split; [exact Hfail | apply Hconn; lia].
  - split.
    + intros H. exfalso. destruct (decide (k < 11)%nat); [by destruct create|].
      destruct (last_conn db 11); [by destruct create | done].
    + intros (Hfail10 & Hconn10). exfalso. apply Hret.
      destruct (decide (k < 10)%nat) as [Hlt | Hge].
      * specialize (Hconn ltac:(lia)). by specialize (Hfail10 k Hlt).
      * destruct (decide (k = 10%nat)) as [-> | Hne]; [lia|].
        exfalso. by apply (Hfail 10%nat ltac:(lia)).
Qed.

(** The waits double from one second on, one per failed attempt, so that
    [k] failed attempts have waited [2^k - 1] seconds; after eleven failed
    attempts (2047 seconds) the loop is left, no [RuntimeError] is raised,
    and with no connection object ever returned the function fails on the
    unbound [conn]. *)
Theorem setup_db_waits_double_and_exhaustion_is_not_reported
    (db : nat → attempt) (create : create_result) :
  let k := failures db 0 11 in
  slept (setup_db db create).2 = waits k
  ∧ foldr Z.add 0 (slept (setup_db db create).2) = 2 ^ Z.of_nat k - 1
  ∧ retries (setup_db db create).2 = 10 - Z.of_nat k
  ∧ ((∀ n, (n < 11)%nat → db n ≠ Connected) →
       k = 11%nat
       ∧ foldr Z.add 0 (slept (setup_db db create).2) = 2047
       ∧ (setup_db db create).1 ≠ RuntimeError
       ∧ ((∀ n, (n < 11)%nat → db n = ConnectFails) →
          (setup_db db create).1 = UnboundLocalError)).
Proof.
  cbn zeta.
  assert (Hs : (setup_db db create).2 = final db (failures db 0 11)).
  { unfold setup_db. rewrite connect_loop_final.
    case_bool_decide; [done|]. destruct (conn _); [by destruct create | done]. }
  rewrite Hs. cbn [final slept retries].
  split; [done|]. split; [apply sum_waits|]. split; [done|].
  intros Hnone.
  assert (Hk : failures db 0 11 = 11%nat).
  { apply failures_spec. split; [lia|]. split; [|lia]. intros i Hi. by apply Hnone. }
  split; [exact Hk|]. rewrite sum_waits, Hk. split; [done|].
  assert (Hout : ∀ o, (setup_db db create).1 = o →
                      o = match last_conn db 11 with
                          | None => UnboundLocalError
                          | Some _ => match create with
                                      | CreateFails => CreateError
                                      | _ => DatabaseReady
                                      end
                          end).
  { intros o <-. unfold setup_db. rewrite connect_loop_final, Hk.
    cbn [final retries conn]. rewrite bool_decide_false by lia.
    destruct (decide (11 < 11)%nat) as [? | _]; [lia|].
    destruct (last_conn db 11); [by destruct create | done]. }
  split.
  - intros H. apply Hout in H. destruct (last_conn db 11); [by destruct create | done].
  - intros Hall. rewrite (Hout _ eq_refl).
    assert (Hlast : ∀ n, (n ≤ 11)%nat → last_conn db n = None).
    { induction n as [|n IHn]; intros Hn; [done|]. cbn [last_conn].
      rewrite decide_False by (rewrite Hall by lia; done). apply IHn. lia. }
    by rewrite Hlast.
Qed.

End ProvisionDb.

(** ** Application configuration and password reset ([__init__.py]) *)

Module Config.
Import Py.

(** *** [ConfigBearer] *)

Section ConfigBearer.

(** The values held, and the names that ordinary attribute lookup finds on
    an instance: the attributes of [dict], of [object] and of the class
    itself.  The instance has no attributes of its own, every attribute
    assignment being turned into an item assignment. *)
Context {V : Type}.
Variable dict_attrs : gset string.

(** What reading an attribute gives: an attribute of the class, or an item
    of the mapping. *)
Inductive attribute : Type :=
| Builtin (name : string)
| Item (v : V).

(** [__getattribute__]: [super().__getattribute__(key)], and [self[key]]
    when that raises [AttributeError]. *)
Definition __getattribute__ (self : gmap string V) (key : string) : res attribute :=
  if bool_decide (key ∈ dict_attrs) then Ok (Builtin key)
  else
    match self !! key with
    | Some v => Ok (Item v)
    | None => Raise KeyError
    end.

(** [__setattr__]: [self[key] = val] *)
Definition __setattr__ (self : gmap string V) (key : string) (val : V) : gmap string V :=
  <[ key := val ]> self.

(** [__delattr__]: [del self[key]] *)
Definition __delattr__ (self : gmap string V) (key : string) : res (gmap string V) :=
  match self !! key with
  | Some _ => Ok (delete key self)
  | None => Raise KeyError
  end.

(** The built-in [getattr(self, key, default)], which falls back to the
    default on [AttributeError] and on nothing else. *)
Definition getattr_default (self : gmap string V) (key : string) (default : attribute)
  : res attribute :=
  match __getattribute__ self key with
  | Raise AttributeError => Ok default
  | r => r
  end.

(** The built-in [hasattr(self, key)] *)
Definition hasattr (self : gmap string V) (key : string) : res bool :=
  match __getattribute__ self key with
  | Ok _ => Ok true
  | Raise AttributeError => Ok false
  | Raise e => Raise e
  end.

End ConfigBearer.

Arguments Builtin {V} name.
Arguments Item {V} v.

(** The names [dict] defines besides the special ones. *)
Definition public_dict_attrs : gset string :=
  {[ "clear"; "copy"; "fromkeys"; "get"; "items"; "keys"; "pop"; "popitem";
     "setdefault"; "update"; "values" ]}.

(** *** The configuration [setup_postschema] assembles *)

(** The values of the options. *)
Inductive option_value : Type :=
| OStr (s : string)
| OInt (n : Z)
| OList (l : list string)
| ORoles (roles : gset string)
| OObject (name : string).

(** [d.update(other)] and a loop of [setattr(self, k, v)] over the items of
    a [__dict__]: the items are stored one after the other. *)
Definition update (d : gmap string option_value) (other : list (string * option_value))
  : gmap string option_value :=
  foldl (λ d item, <[ item.1 := item.2 ]> d) d other.

(** [AppConfig._update(cls)]: the instance's [__dict__] after the loop. *)
Definition _update (self : list (string * option_value)) (cls : list (string * option_value))
  : gmap string option_value :=
  update (list_to_map self) cls.

(** [config = ConfigBearer(extra_config)],
    [app_config._update(ImmutableConfig(...))],
    [config.update(app_config.__dict__)] and, further down,
    [app.config.roles = ROLES]: [app_config] and [immutable] are the
    [__dict__]s of the two dataclass instances, [roles] the role names the
    application was set up with. *)
Definition make_config (extra_config : gmap string option_value)
    (app_config immutable : list (string * option_value)) (roles : list string)
  : gmap string option_value :=
  let config := extra_config in
  let app_config := _update app_config immutable in
  let config := map_fold (λ k v d, <[ k := v ]> d) config app_config in
  __setattr__ config "roles" (ORoles (Roles.ROLES roles)).

(** *** The URL prefix *)

(** [s[:-1]] *)
Fixpoint drop_last (s : string) : string :=
  match s with
  | EmptyString => EmptyString
  | String c EmptyString => EmptyString
  | String c s' => String c (drop_last s')
  end.

(** The prefix as [setup_postschema] normalizes it: a leading slash is put
    before a prefix that has none, and one trailing slash is cut. *)
Definition url_prefix (configured : string) : string :=
  let url_prefix :=
    if bool_decide (configured ≠ "") && negb (startswith configured "/")
    then "/" +:+ configured else configured in
  if endswith url_prefix "/" then drop_last url_prefix else url_prefix.

(** The paths of the four documentation routes added at the end. *)
Definition doc_routes (url_prefix : string) : list string :=
  [ url_prefix +:+ "/doc/"; url_prefix +:+ "/doc/openapi.yaml";
    url_prefix +:+ "/doc/spec.json"; url_prefix +:+ "/doc/meta/" ].

(** *** [reset_form_context] *)





(** *** Facts *)

Lemma update_lookup_notin (d : gmap string option_value)
    (other : list (string * option_value)) (k : string) :
  k ∉ other.*1 → update d other !! k = d !! k.
Proof.
  unfold update. revert d. induction other as [|[k' v] other IH]; intros d Hk; cbn [foldl]; [done|].
  cbn [fmap list_fmap fst] in Hk. apply not_elem_of_cons in Hk as [Hne Hk].
  rewrite IH by done. by apply lookup_insert_ne.
Qed.

Lemma update_lookup_in (d : gmap string option_value)
    (other : list (string * option_value)) (k : string) (v : option_value) :
  NoDup other.*1 → (k, v) ∈ other → update d other !! k = Some v.
Proof.
  unfold update. revert d. induction other as [|[k' v'] other IH]; intros d Hnd Hin; cbn [foldl].
  - by apply elem_of_nil in Hin.
  - cbn [fmap list_fmap fst] in Hnd. apply NoDup_cons in Hnd as [Hk' Hnd].
    apply elem_of_cons in Hin as [[= <- <-] | Hin].
    + fold (update (<[ k := v ]> d) other). rewrite update_lookup_notin by done.
      apply lookup_insert_eq.
    + by apply IH.
Qed.

Lemma map_fold_insert_lookup (d m : gmap string option_value) (k : string) :
  map_fold (λ k v d, <[ k := v ]> d) d m !! k
  = match m !! k with Some v => Some v | None => d !! k end.
Proof.
  induction m as [|k' v m Hk' Hfold IH] using map_first_key_ind.
  - by rewrite map_fold_empty, lookup_empty.
  - rewrite map_fold_insert_first_key by done.
    destruct (decide (k' = k)) as [-> | Hne].
    + by rewrite !lookup_insert_eq.
    + by rewrite !lookup_insert_ne.
Qed.

Lemma endswith_spec (s suf : string) :
  endswith s suf = true ↔ ∃ p, s = p +:+ suf.
Proof.
  split.
  - induction s as [|c s IH]; cbn [endswith].
    + rewrite orb_false_r. intros H%String.eqb_eq. by exists "".
    + intros [H%String.eqb_eq | H]%orb_true_iff.
      * by exists "".
      * destruct (IH H) as [p ->]. by exists (String c p).
  - intros [p ->]. apply endswith_app_self.
Qed.

Lemma drop_last_app (p : string) (c : ascii) :
  drop_last (p +:+ String c "") = p.
Proof.
  induction p as [|a p IH]; [done|].
  change (String a p +:+ String c "") with (String a (p +:+ String c "")).
  destruct (p +:+ String c "") as [|b rest] eqn:E.
  - by destruct p.
  - change (drop_last (String a (String b rest)))
      with (String a (drop_last (String b rest))).
    by rewrite IH.
Qed.


Lemma startswith_slash (s : string) :
  startswith s "/" = true ↔ ∃ rest, s = String "/" rest.
Proof.
  unfold startswith. destruct s as [|c s]; cbn [String.prefix].
  - split; [done | by intros [? ?]].
  - destruct (ascii_dec "/" c) as [<- | Hne].
    + split; [by exists s | by destruct s].
    + split; [done | intros [rest [= -> _]]; done].
Qed.

Lemma url_prefix_shape (configured : string) :
  url_prefix configured = "" ∨ startswith (url_prefix configured) "/" = true.
Proof.
  unfold url_prefix.
  set (u := if bool_decide (configured ≠ "") && negb (startswith configured "/")
            then "/" +:+ configured else configured).
  assert (Hu : u = "" ∨ startswith u "/" = true).
  { unfold u. case_bool_decide as Hne; cbn [andb].
    - destruct (startswith configured "/") eqn:Hs; cbn [negb]; [by right|].
      right. by apply startswith_slash; eexists.
    - left. by destruct (decide (configured = "")). }
  destruct (endswith u "/") eqn:Hend; [|done].
  apply endswith_spec in Hend as [p Hp]. rewrite Hp, drop_last_app.
  destruct p as [|c p]; [by left|]. right.
  destruct Hu as [Hu | Hu]; [by rewrite Hp in Hu|].
  rewrite Hp in Hu. apply startswith_slash in Hu as [rest [= -> _]].
  apply startswith_slash. by eexists.
Qed.

(** *** Properties *)

(** An option stored through attribute assignment reads back through
    attribute access, other options read as before, and deleting it makes
    reading it fail, provided the name is not one that [dict] itself
    defines. *)
Theorem config_bearer_attribute_round_trip {V : Type} (dict_attrs : gset string)
    (self : gmap string V) (key : string) (val : V) :
  key ∉ dict_attrs →
  __getattribute__ dict_attrs (__setattr__ self key val) key = Ok (Item val)
  ∧ (∀ other, other ≠ key →
       __getattribute__ dict_attrs (__setattr__ self key val) other = __getattribute__ dict_attrs self other)
  ∧ (∃ self', __delattr__ (__setattr__ self key val) key = Ok self'
              ∧ __getattribute__ dict_attrs self' key = Raise KeyError).
Proof.
  intros Hkey. unfold __getattribute__, __setattr__, __delattr__. split; [|split].
  - by rewrite bool_decide_false, lookup_insert_eq by done.
  - intros other Hne. by rewrite lookup_insert_ne by done.
  - rewrite lookup_insert_eq. eexists. split; [done|].
    by rewrite bool_decide_false, lookup_delete_eq by done.
Qed.

Lemma config_bearer_attribute_round_trip_witness :
  __getattribute__ public_dict_attrs (__setattr__ (∅ : gmap string option_value) "version" (OStr "0.5.0"))
    "version" = Ok (Item (OStr "0.5.0"))
  ∧ (∀ other, other ≠ "version" →
       __getattribute__ public_dict_attrs (__setattr__ ∅ "version" (OStr "0.5.0")) other
       = __getattribute__ public_dict_attrs ∅ other)
  ∧ (∃ self', __delattr__ (__setattr__ (∅ : gmap string option_value) "version" (OStr "0.5.0")) "version"
              = Ok self'
              ∧ __getattribute__ public_dict_attrs self' "version" = Raise KeyError).
Proof.
  apply (config_bearer_attribute_round_trip public_dict_attrs ∅ "version" (OStr "0.5.0")).
  apply (bool_decide_unpack _). vm_compute. exact I.
Defined.

(** Reading an option never raises [AttributeError]: a missing option is a
    [KeyError], so that [getattr] with a default never yields the default
    and [hasattr] never answers [False]; and an option whose name [dict]
    defines is stored but reads as the attribute of [dict]. *)
Theorem config_bearer_missing_option_is_key_error {V : Type} (dict_attrs : gset string)
    (self : gmap string V) (key : string) :
  __getattribute__ dict_attrs self key ≠ Raise AttributeError
  ∧ (key ∉ dict_attrs → self !! key = None → __getattribute__ dict_attrs self key = Raise KeyError)
  ∧ (∀ default, getattr_default dict_attrs self key default = __getattribute__ dict_attrs self key)
  ∧ hasattr dict_attrs self key ≠ Ok false
  ∧ (∀ val, key ∈ dict_attrs →
       __setattr__ self key val !! key = Some val
       ∧ __getattribute__ dict_attrs (__setattr__ self key val) key = Ok (Builtin key)).
Proof.
  unfold getattr_default, hasattr, __getattribute__, __setattr__.
  split; [|split; [|split; [|split]]].
  - case_bool_decide; [done|]. by destruct (self !! key).
  - intros Hkey ->. by rewrite bool_decide_false.
  - intros default. case_bool_decide; [done|]. by destruct (self !! key).
  - case_bool_decide; [done|]. by destruct (self !! key).
  - intros val Hkey. split; [apply lookup_insert_eq | by rewrite bool_decide_true].
Qed.

(** Whatever the caller passed as [roles] or put in [extra_config], the
    configuration's [roles] reads as the system role set; an option of the
    immutable configuration wins over the same option of the application
    configuration, which wins over [extra_config]. *)
Theorem config_roles_are_system_roles (dict_attrs : gset string)
    (extra_config : gmap string option_value)
    (app_config immutable : list (string * option_value)) (roles : list string) :
  "roles" ∉ dict_attrs → NoDup app_config.*1 → NoDup immutable.*1 →
  let config := make_config extra_config app_config immutable roles in
  __getattribute__ dict_attrs config "roles" = Ok (Item (ORoles (Roles.ROLES roles)))
  ∧ (∀ k v, k ≠ "roles" → (k, v) ∈ immutable → config !! k = Some v)
  ∧ (∀ k v, k ≠ "roles" → k ∉ immutable.*1 → (k, v) ∈ app_config → config !! k = Some v)
  ∧ (∀ k, k ≠ "roles" → k ∉ immutable.*1 → k ∉ app_config.*1 →
       config !! k = extra_config !! k).
Proof.
  intros Hroles Happ Himm. cbn zeta. unfold make_config, __getattribute__, __setattr__, _update.
  split; [|split; [|split]].
  - by rewrite bool_decide_false, lookup_insert_eq by done.
  - intros k v Hk Hin. rewrite lookup_insert_ne by done.
    by rewrite map_fold_insert_lookup, (update_lookup_in _ _ k v).
  - intros k v Hk Hnotin Hin. rewrite lookup_insert_ne by done.
    rewrite map_fold_insert_lookup, update_lookup_notin by done.
    by rewrite (elem_of_list_to_map_1 _ k v).
  - intros k Hk Hnotin Hnotin'. rewrite lookup_insert_ne by done.
    rewrite map_fold_insert_lookup, update_lookup_notin by done.
    by rewrite (not_elem_of_list_to_map_1 _ k).
Qed.

Lemma config_roles_are_system_roles_witness :
  let config := make_config {[ "roles" := OList [ "intruder" ]; "scopes" := OObject "mine" ]}
                  [ ("roles", OList [ "patient"; "doctor"; "operator" ]);
                    ("version", OStr "0.5.0") ]
                  [ ("scopes", OObject "ScopeBase._scopes") ]
                  [ "patient"; "doctor"; "operator" ] in
  __getattribute__ public_dict_attrs config "roles"
  = Ok (Item (ORoles (Roles.ROLES [ "patient"; "doctor"; "operator" ])))
  ∧ (∀ k v, k ≠ "roles" → (k, v) ∈ [ ("scopes", OObject "ScopeBase._scopes") ] →
            config !! k = Some v)
  ∧ (∀ k v, k ≠ "roles" → k ∉ [ ("scopes", OObject "ScopeBase._scopes") ].*1 →
            (k, v) ∈ [ ("roles", OList [ "patient"; "doctor"; "operator" ]);
                       ("version", OStr "0.5.0") ] →
            config !! k = Some v)
  ∧ (∀ k, k ≠ "roles" → k ∉ [ ("scopes", OObject "ScopeBase._scopes") ].*1 →
          k ∉ [ ("roles", OList [ "patient"; "doctor"; "operator" ]);
                ("version", OStr "0.5.0") ].*1 →
          config !! k
          = ({[ "roles" := OList [ "intruder" ]; "scopes" := OObject "mine" ]}
               : gmap string option_value) !! k).
Proof.
  apply (config_roles_are_system_roles public_dict_attrs
           {[ "roles" := OList [ "intruder" ]; "scopes" := OObject "mine" ]}
           [ ("roles", OList [ "patient"; "doctor"; "operator" ]); ("version", OStr "0.5.0") ]
           [ ("scopes", OObject "ScopeBase._scopes") ]
           [ "patient"; "doctor"; "operator" ]).
  - apply (bool_decide_unpack _). vm_compute. exact I.
  - apply (bool_decide_unpack _). vm_compute. exact I.
  - apply (bool_decide_unpack _). vm_compute. exact I.
Defined.

(** The documentation routes always begin with a slash: the normalized
    prefix is empty or begins with one.  Unless the configured prefix ends
    in two slashes, the normalized prefix does not end in a slash, and
    normalizing it again changes nothing. *)
Theorem documentation_routes_begin_with_slash (configured : string) :
  Forall (λ path, startswith path "/" = true) (doc_routes (url_prefix configured))
  ∧ (url_prefix configured = "" ∨ startswith (url_prefix configured) "/" = true)
  ∧ (endswith configured "//" = false →
     endswith (url_prefix configured) "/" = false
     ∧ url_prefix (url_prefix configured) = url_prefix configured).
Proof.
  pose proof (url_prefix_shape configured) as Hshape.
  split; [|split; [done|]].
  - unfold doc_routes. destruct Hshape as [-> | [rest ->]%startswith_slash];
      repeat constructor; apply startswith_slash; by eexists.
  - intros Hdouble.
    assert (Hend : endswith (url_prefix configured) "/" = false).
    { unfold url_prefix.
      set (u := if bool_decide (configured ≠ "") && negb (startswith configured "/")
                then "/" +:+ configured else configured).
      assert (Hu : endswith u "//" = false).
      { unfold u. case_bool_decide as Hne; cbn [andb]; [|done].
        destruct (startswith configured "/") eqn:Hs; cbn [negb]; [done|].
        change ("/" +:+ configured) with (String "/" configured).
        cbn [endswith]. rewrite Hdouble, orb_false_r.
        apply String.eqb_neq. intros [= ->]. done. }
      destruct (endswith u "/") eqn:Hslash; [|done].
      apply endswith_spec in Hslash as [p Hp]. rewrite Hp, drop_last_app.
      destruct (endswith p "/") eqn:Hp'; [|done].
      apply endswith_spec in Hp' as [q ->].
      assert (Htwo : endswith u "//" = true).
      { apply endswith_spec. exists q. rewrite Hp. clear.
        induction q as [|c q IH]; [done|].
        change ((String c q +:+ "/") +:+ "/" = String c q +:+ "//")
          with (String c ((q +:+ "/") +:+ "/") = String c (q +:+ "//")).
        by rewrite IH. }
      congruence. }
    split; [exact Hend|].
    generalize dependent (url_prefix configured). intros u [-> | Hu] Hend; [done|].
    unfold url_prefix. rewrite Hu, andb_false_r. by rewrite Hend.
Qed.



End Config.

(** ** Further properties of shield compilation *)

Module ShieldInvariant.
Import Py Shield.

Lemma roles_granted_subseteq (R : gset string) (k : role_key) :
  key_valid R k → roles_granted R k ⊆ R.
Proof.
  destruct k as [rs | r]; cbn [key_valid roles_granted].
  - intros Hrs x Hx. apply elem_of_list_to_set in Hx.
    rewrite Forall_forall in Hrs. by apply Hrs.
  - intros [-> | Hr]; [done|]. case_bool_decide; [done|].
    intros x Hx. by apply elem_of_singleton in Hx as ->.
Qed.

Lemma last_elem_of {A : Type} (l : list A) (x : A) : last l = Some x → x ∈ l.
Proof.
  intros H. apply last_Some in H as [l' ->]. apply elem_of_app. right. apply list_elem_of_here.
Qed.

(** Whatever the compiled mapping holds was declared and checked: an entry
    belongs to an operation of the Authed or Private tier, it is the last
    rule of that operation's [Shield] dict, its roles are system roles, and
    its method is [otp] or [sms]. *)
Theorem compiled_shields_hold_checked_rules_only (system_roles : gset string) (s : schema)
    (sh : shields_t) (op : string) (roles : gset string) (method : string) :
  parse_schema system_roles s = Ok sh →
  sh !! op = Some (roles, method) →
  roles ⊆ system_roles
  ∧ (method = "otp" ∨ method = "sms")
  ∧ op ∈ present_ops s
  ∧ ∃ cls key, Shield s = Some cls
               ∧ last (rules_of cls op) = Some (key, method)
               ∧ roles = roles_granted system_roles key.
Proof.
  intros Hok Hop. rewrite parse_schema_spec in Hok.
  destruct (decide (Forall (rule_valid system_roles) (effective_rules s))) as [Hvalid|]; [|done].
  injection Hok as <-.
  destruct (Shield s) as [cls|] eqn:Hs; [|by rewrite lookup_empty in Hop].
  destruct (decide (op ∈ present_ops s)) as [Hin | Hnin].
  2:{ rewrite foldl_op_update_notin in Hop by done. by rewrite lookup_empty in Hop. }
  rewrite foldl_op_update_in in Hop by done.
  destruct (last (rules_of cls op)) as [[key m]|] eqn:Hlast;
    [|by rewrite lookup_empty in Hop].
  injection Hop as <- <-.
  assert (Hrule : rule_valid system_roles (key, m)).
  { apply (Forall_effective_rules system_roles s cls Hs) in Hvalid.
    rewrite Forall_forall in Hvalid. specialize (Hvalid op Hin).
    rewrite Forall_forall in Hvalid. apply Hvalid. by apply last_elem_of. }
  destruct Hrule as [Hkey Hmethod]. cbn [fst snd] in *.
  split; [by apply roles_granted_subseteq|]. split; [exact Hmethod|]. split; [done|].
  by exists cls, key.
Qed.

Lemma compiled_shields_hold_checked_rules_only_witness :
  ({[ "Staff"; "Operator" ]} : gset string) ⊆ mock_roles
  ∧ ("otp" = "otp" ∨ "otp" = "sms")
  ∧ "post" ∈ present_ops OtpShieldedResourceMutliRoles
  ∧ ∃ cls key, Shield OtpShieldedResourceMutliRoles = Some cls
               ∧ last (rules_of cls "post") = Some (key, "otp")
               ∧ ({[ "Staff"; "Operator" ]} : gset string) = roles_granted mock_roles key.
Proof.
  apply (compiled_shields_hold_checked_rules_only mock_roles OtpShieldedResourceMutliRoles
           {[ "post" := ({[ "Staff"; "Operator" ]}, "otp") ]} "post").
  - vm_refl.
  - vm_refl.
Defined.

End ShieldInvariant.

(** ** Further properties of relationship resolution *)

Module Relationships.
Import Py Core.

(** The field declared under a name. *)
Fixpoint declared (fields : list (string * field)) (fieldname : string) : option field :=
  match fields with
  | [] => None
  | (name, fieldval) :: rest =>
      if decide (name = fieldname) then Some fieldval else declared rest fieldname
  end.

Lemma declared_None (fields : list (string * field)) (fieldname : string) :
  declared fields fieldname = None ↔ fieldname ∉ fields.*1.
Proof.
  induction fields as [|[name fv] fields IH]; [by split; [intros _; apply not_elem_of_nil|]|].
  cbn [declared fmap list_fmap fst]. rewrite not_elem_of_cons.
  destruct (decide (name = fieldname)) as [<- | Hne].
  - split; [done | by intros [? _]].
  - rewrite IH. split; [by split | by intros [_ ?]].
Qed.

Lemma declared_Some (fields : list (string * field)) (fieldname : string) (fieldval : field) :
  NoDup fields.*1 →
  declared fields fieldname = Some fieldval ↔ (fieldname, fieldval) ∈ fields.
Proof.
  induction fields as [|[name fv] fields IH]; intros Hnd.
  - split; [done | by intros ?%elem_of_nil].
  - cbn [fmap list_fmap fst] in Hnd. apply NoDup_cons in Hnd as [Hname Hnd].
    cbn [declared]. rewrite elem_of_cons.
    destruct (decide (name = fieldname)) as [<- | Hne].
    + split; [intros [= <-]; by left|]. intros [[= <-] | Hin]; [done|].
      exfalso. apply Hname. apply list_elem_of_fmap. by exists (name, fieldval).
    + rewrite IH by done. split; [by right|]. by intros [[= ? ?] | ?].
Qed.

(** The entry of [joins] and of [_m2m_where_stmts] a declared field
    accounts for. *)
Definition join_of (fieldval : field) : option (string * string) :=
  if decide (class fieldval = ForeignResource)
  then Some (target_name fieldval, join_template (target_name fieldval)) else None.

Definition where_stmt_of (fieldname : string) (fieldval : field) : option string :=
  if decide (class fieldval = ForeignResources) then Some (m2m_where_stmt fieldname) else None.

Lemma relationship_step_outputs (this pk : string) (dc : loc) (st st' : store)
    (out out' : relationships) (fieldname : string) (fieldval : field) :
  relationship_step this pk dc (st, out) (fieldname, fieldval) = Ok (st', out') →
  joins out' = match join_of fieldval with
               | Some j => <[ fieldname := j ]> (joins out)
               | None => joins out
               end
  ∧ _m2m_where_stmts out'
    = match where_stmt_of fieldname fieldval with
      | Some w => <[ fieldname := w ]> (_m2m_where_stmts out)
      | None => _m2m_where_stmts out
      end.
Proof.
  unfold join_of, where_stmt_of.
  destruct (decide (class fieldval = Field)) as [Hf | Hf].
  { unfold relationship_step. rewrite Hf. intros [= <- <-].
    by destruct (decide (Field = ForeignResource)), (decide (Field = ForeignResources)). }
  rewrite relationship_step_unfold by done.
  destruct (registered_schemas st !! target_name fieldval) as [linked|]; [|done].
  destruct (set_default_lists st (target_name fieldval) linked) as [[st1 ldc] lm2m].
  destruct (class fieldval) eqn:Hc; [done | | | |]; intros [= <- <-]; cbn [joins _m2m_where_stmts];
    by repeat (first [rewrite decide_True by done | rewrite decide_False by done]).
Qed.

Lemma relationship_loop_outputs (this pk : string) (dc : loc)
    (fields : list (string * field)) (st st' : store) (out out' : relationships)
    (fieldname : string) :
  NoDup fields.*1 →
  foldM (relationship_step this pk dc) (st, out) fields = Ok (st', out') →
  joins out' !! fieldname
  = from_option (λ fieldval, from_option Some (joins out !! fieldname) (join_of fieldval))
                (joins out !! fieldname) (declared fields fieldname)
  ∧ _m2m_where_stmts out' !! fieldname
    = from_option (λ fieldval, from_option Some (_m2m_where_stmts out !! fieldname)
                                 (where_stmt_of fieldname fieldval))
                  (_m2m_where_stmts out !! fieldname) (declared fields fieldname).
Proof.
  revert st out. induction fields as [|[f fv] fields IH]; intros st out Hnd Hloop.
  - cbn in Hloop. by injection Hloop as <- <-.
  - cbn [foldM] in Hloop.
    destruct (relationship_step this pk dc (st, out) (f, fv)) as [[st1 out1]|] eqn:Hstep;
      [|done].
    cbn [bind] in Hloop. cbn [fmap list_fmap fst] in Hnd. apply NoDup_cons in Hnd as [Hf Hnd].
    destruct (relationship_step_outputs _ _ _ _ _ _ _ _ _ Hstep) as [Hj Hw].
    destruct (IH st1 out1 Hnd Hloop) as [IHj IHw].
    cbn [declared].
    destruct (decide (f = fieldname)) as [<- | Hne].
    + apply declared_None in Hf. rewrite Hf in IHj, IHw. cbn [from_option] in *.
      rewrite IHj, IHw, Hj, Hw. split.
      * destruct (join_of fv); [apply lookup_insert_eq | done].
      * destruct (where_stmt_of f fv); [apply lookup_insert_eq | done].
    + rewrite IHj, IHw, Hj, Hw.
      assert (Hjne : match join_of fv with
                     | Some j => <[ f := j ]> (joins out)
                     | None => joins out
                     end !! fieldname = joins out !! fieldname).
      { destruct (join_of fv); [by rewrite lookup_insert_ne | done]. }
      assert (Hwne : match where_stmt_of f fv with
                     | Some w => <[ f := w ]> (_m2m_where_stmts out)
                     | None => _m2m_where_stmts out
                     end !! fieldname = _m2m_where_stmts out !! fieldname).
      { destruct (where_stmt_of f fv); [by rewrite lookup_insert_ne | done]. }
      by rewrite Hjne, Hwne.
Qed.

(** [joins] has an entry exactly for the single references of the class,
    and [_m2m_where_stmts] exactly for its multi references: the other
    fields, automatic session references among them, add to neither. *)
Theorem joins_hold_exactly_the_single_references
    (st st' : store) (this : string) (c : schema_cls) (out : relationships) :
  registered_schemas st !! this = Some c →
  NoDup (_declared_fields c).*1 →
  process_relationships st this = Ok (st', out) →
  ∀ fieldname,
    joins out !! fieldname = declared (_declared_fields c) fieldname ≫= join_of
    ∧ _m2m_where_stmts out !! fieldname
      = declared (_declared_fields c) fieldname ≫= where_stmt_of fieldname.
Proof.
  intros Hc Hnd Hrun fieldname. unfold process_relationships, registry_at in Hrun.
  rewrite Hc in Hrun. cbn [mbind res_bind bind] in Hrun.
  destruct (getattr_list (_deletion_cascade c) (heap st)) as [dc h1].
  destruct (getattr_list (_m2m_cherrypicks c) h1) as [m2m h2].
  destruct (foldM _ _ _) as [[st1 out1]|] eqn:Hloop; [|done].
  cbn [bind] in Hrun. injection Hrun as <- <-. cbn [joins _m2m_where_stmts].
  destruct (relationship_loop_outputs _ _ _ _ _ _ _ _ fieldname Hnd Hloop) as [Hj Hw].
  rewrite Hj, Hw. cbn [joins _m2m_where_stmts]. rewrite !lookup_empty.
  destruct (declared (_declared_fields c) fieldname) as [fv|]; cbn; [|done].
  by destruct (join_of fv), (where_stmt_of fieldname fv).
Qed.

Lemma joins_hold_exactly_the_single_references_witness :
  ∃ st' out,
    process_relationships mock_store "product" = Ok (st', out)
    ∧ ∀ fieldname,
        joins out !! fieldname = declared (_declared_fields Product) fieldname ≫= join_of
        ∧ _m2m_where_stmts out !! fieldname
          = declared (_declared_fields Product) fieldname ≫= where_stmt_of fieldname.
Proof.
  destruct (process_relationships mock_store "product") as [[st' out]|] eqn:Hrun;
    [|by vm_compute in Hrun].
  exists st', out. split; [done|].
  apply (joins_hold_exactly_the_single_references mock_store st' "product" Product out).
  - vm_refl.
  - apply (bool_decide_unpack _). vm_compute. exact I.
  - exact Hrun.
Defined.

(** Relationship resolution only appends: when it completes, every entry
    of every list is still in its place, and every registered class keeps
    its primary key, its fields and the list objects it had. *)
Theorem process_relationships_only_appends
    (st st' : store) (this : string) (out : relationships) :
  store_ok st → process_relationships st this = Ok (st', out) → extends st st'.
Proof.
  intros Hok Hrun.
  destruct (registered_schemas st !! this) as [c|] eqn:Hc.
  2:{ unfold process_relationships, registry_at in Hrun. by rewrite Hc in Hrun. }
  destruct (process_relationships_unfold st this c Hok Hc)
    as (dc & m2m & st0 & Hvalid0 & _ & Hext0 & _ & Heq).
  rewrite Heq in Hrun.
  destruct (foldM _ _ _) as [[st1 out1]|] eqn:Hloop; cbn [mbind res_bind bind] in Hrun;
    [|done].
  injection Hrun as <- _.
  destruct (relationship_loop_frame _ _ _ _ _ _ _ _ Hloop Hvalid0) as (_ & Hext1 & _).
  by apply (extends_trans st st0 st1).
Qed.

Lemma process_relationships_only_appends_witness :
  ∃ st' out,
    process_relationships mock_store "product" = Ok (st', out) ∧ extends mock_store st'.
Proof.
  destruct (process_relationships mock_store "product") as [[st' out]|] eqn:Hrun;
    [|by vm_compute in Hrun].
  exists st', out. split; [done|].
  exact (process_relationships_only_appends mock_store st' "product" out mock_store_ok Hrun).
Defined.

End Relationships.

(** ** Further properties of view synthesis *)

Module ViewFacts.
Import Py Core.

(** [rebase_metaclass]:
    [meta_methods.setdefault('route_base', self.schema_cls.__name__.lower())],
    where [meta_route_base] is the [route_base] that the class's own [Meta]
    defines, if it defines one. *)
Definition rebased_route_base (meta_route_base : option string) (schema___name__ : string)
  : string :=
  from_option id (lower schema___name__) meta_route_base.

Definition slash : ascii := "/"%char.

(** The characters of a string. *)
Fixpoint characters (s : string) : list ascii :=
  match s with
  | EmptyString => []
  | String c s' => c :: characters s'
  end.

Lemma to_lower_slash (c : ascii) : to_lower c = slash → c = slash.
Proof. unfold slash. destruct c as [[] [] [] [] [] [] [] []]; cbv; congruence. Qed.

Lemma lower_keeps_slashes_out (s : string) :
  slash ∉ characters s → slash ∉ characters (lower s).
Proof.
  induction s as [|c s IH]; [done|]. cbn [characters lower].
  rewrite !not_elem_of_cons. intros [Hc Hs]. split; [|by apply IH].
  intros H. apply Hc. symmetry. by apply to_lower_slash.
Qed.

Lemma lower_idemp (s : string) : lower (lower s) = lower s.
Proof. induction s as [|c s IH]; [done|]. cbn [lower]. by rewrite to_lower_idemp, IH. Qed.

Lemma replace_slash_step (c : ascii) (s : string) :
  replace (String c s) "/" ""
  = if decide (c = slash) then replace s "/" "" else String c (replace s "/" "").
Proof.
  unfold replace. cbn [replace_from String.prefix String.length Nat.sub].
  destruct (ascii_dec "/" c) as [<- | Hne].
  - rewrite decide_True by done. by destruct s.
  - rewrite decide_False by (intros ->; done). done.
Qed.

Lemma replace_removes_slashes (s : string) : slash ∉ characters (replace s "/" "").
Proof.
  induction s as [|c s IH]; [apply not_elem_of_nil|].
  rewrite replace_slash_step. destruct (decide (c = slash)) as [-> | Hne]; [done|].
  cbn [characters]. apply not_elem_of_cons. split; [by intros <- | done].
Qed.

Lemma replace_without_slash (s : string) :
  slash ∉ characters s → replace s "/" "" = s.
Proof.
  induction s as [|c s IH]; [done|]. cbn [characters]. rewrite not_elem_of_cons.
  intros [Hc Hs]. rewrite replace_slash_step, decide_False by (intros ->; done).
  by rewrite IH.
Qed.

(** The URL of a resource is one lower-case path segment between two
    slashes, whatever the route base: slashes in the route base are dropped
    and its letters lowered.  A class whose [Meta] names no route base is
    served under its lowered class name. *)
Theorem resource_url_is_one_lowercase_segment (cfg : view_config) :
  ∃ segment,
    base_resource_url cfg = "/" +:+ segment +:+ "/"
    ∧ (slash ∉ characters segment)
    ∧ lower segment = segment
    ∧ (slash ∉ characters (route_base cfg) → segment = lower (route_base cfg))
    ∧ (∀ name, route_base cfg = rebased_route_base None name →
               slash ∉ characters name → segment = lower name).
Proof.
  exists (lower (replace (route_base cfg) "/" "")).
  split; [done|]. split; [apply lower_keeps_slashes_out, replace_removes_slashes|].
  split; [apply lower_idemp|]. split.
  - intros H. by rewrite replace_without_slash.
  - intros name -> Hname. unfold rebased_route_base. cbn [from_option id].
    rewrite replace_without_slash by by apply lower_keeps_slashes_out.
    apply lower_idemp.
Qed.

(** Unless [list] is excluded, the list copy is routed for GET at
    [/{route_base}/list/]; its [get] is [list_proxy], which sets [_method]
    to ['list'] and calls [self.list()], and [list] resolves on it to the
    template's [list].  The class inherits everything else from the POST
    copy: taking [post] off the list copy removes nothing, so it still
    holds the [post] of the POST copy. *)
Theorem list_copy_serves_template_list (ViewsTemplate : list string) (cfg : view_config) (a : app) :
  table_ok (classes a) →
  "list" ∈ ViewsTemplate →
  "list" ∉ excluded_ops cfg →
  let a' := (build_view ViewsTemplate cfg a).1 in
  let v := (build_view ViewsTemplate cfg a).2 in
  ∃ list_copy,
    cls_view_list_copy v = Some list_copy
    ∧ last (routes a') = Some ("GET", base_resource_url cfg +:+ "list/", list_copy)
    ∧ getattr (classes a') list_copy "get" = Some list_proxy
    ∧ getattr (classes a') list_copy "list" = Some (template_method "list")
    ∧ getattr (classes a') list_copy "post" = Some get_proxy
    ∧ (∀ name, name ≠ "get" → name ≠ "post" →
         getattr (classes a') list_copy name = getattr (classes a') (cls_view v) name).
Proof.
  intros Hok Hin Hex. cbn zeta. rewrite build_view_eq. cbn zeta.
  rewrite bool_decide_true by done.
  cbn [fst snd classes routes cls_view cls_view_get_copy cls_view_list_copy].
  set (n := length (classes a)).
  set (cv := with_dict (insert "_perm_options" (class_value "_perm_options"))
                       (cls_view_obj ViewsTemplate cfg)).
  set (tbl := classes a ++ [ cv; get_copy_obj n; list_copy_obj (S n) ]).
  assert (Htbl : table_ok tbl).
  { apply (built_table_ok (classes a) cv [ list_copy_obj (S n) ]); [done | done | by right]. }
  assert (Hcv : tbl !! n = Some cv) by by apply list_lookup_middle.
  assert (Hgc : tbl !! S n = Some (get_copy_obj n)).
  { unfold tbl. rewrite lookup_app_r by (unfold n; lia).
    replace (S n - length (classes a)) with 1 by (unfold n; lia). done. }
  assert (Hlc : tbl !! S (S n) = Some (list_copy_obj (S n))).
  { unfold tbl. rewrite lookup_app_r by (unfold n; lia).
    replace (S (S n) - length (classes a)) with 2 by (unfold n; lia). done. }
  assert (Hlist_chain : ∀ name, name ≠ "get" →
            getattr tbl (S (S n)) name = getattr tbl (S n) name).
  { intros name Hne. rewrite (getattr_single_base _ (S (S n)) (S n) (list_copy_obj (S n))) by done.
    cbn [list_copy_obj __dict__]. by rewrite lookup_singleton_ne. }
  assert (Hget_chain : ∀ name, name ≠ "post" → getattr tbl (S n) name = getattr tbl n name).
  { intros name Hne. rewrite (getattr_single_base _ (S n) n (get_copy_obj n)) by done.
    cbn [get_copy_obj __dict__]. by rewrite lookup_singleton_ne. }
  exists (S (S n)). split; [done|]. split; [by rewrite last_app|].
  split; [|split; [|split]].
  - apply (getattr_own _ (S (S n)) (list_copy_obj (S n))); [done | apply lookup_singleton_eq].
  - rewrite Hlist_chain, Hget_chain by done.
    apply (getattr_own _ n cv); [done|].
    unfold cv, with_dict, cls_view_obj. cbn [__dict__].
    rewrite !lookup_insert_ne by done. by apply view_methods_lookup.
  - rewrite Hlist_chain by done.
    apply (getattr_own _ (S n) (get_copy_obj n)); [done | apply lookup_singleton_eq].
  - intros name Hget Hpost. by rewrite Hlist_chain, Hget_chain.
Qed.

Lemma list_copy_serves_template_list_witness :
  let a' := (build_view canonical_template CustomOpsResource initial_app).1 in
  let v := (build_view canonical_template CustomOpsResource initial_app).2 in
  ∃ list_copy,
    cls_view_list_copy v = Some list_copy
    ∧ last (routes a') = Some ("GET", base_resource_url CustomOpsResource +:+ "list/", list_copy)
    ∧ getattr (classes a') list_copy "get" = Some list_proxy
    ∧ getattr (classes a') list_copy "list" = Some (template_method "list")
    ∧ getattr (classes a') list_copy "post" = Some get_proxy
    ∧ (∀ name, name ≠ "get" → name ≠ "post" →
         getattr (classes a') list_copy name = getattr (classes a') (cls_view v) name).
Proof.
  apply (list_copy_serves_template_list canonical_template CustomOpsResource initial_app).
  - exact initial_app_ok.
  - apply (bool_decide_unpack _). vm_compute. exact I.
  - apply (bool_decide_unpack _). vm_compute. exact I.
Defined.

(** *** Auxiliary views and the operations they do not declare *)

(** What a class inherits under a name: the first of its bases that has
    it. *)
Definition inherited (tbl : list class_obj) (bases : list nat) (name : string) : option attr :=
  foldr (λ base found,
           match getattr tbl base name with
           | Some a => Some a
           | None => found
           end) None bases.

Lemma getattr_last_class (l : list class_obj) (c : class_obj) (name : string) :
  table_ok l → (∀ b, b ∈ __bases__ c → b < length l) →
  getattr (l ++ [ c ]) (length l) name
  = match __dict__ c !! name with
    | Some a => Some a
    | None => inherited l (__bases__ c) name
    end.
Proof.
  intros Hok Hbases. unfold getattr at 1. rewrite length_app. cbn [length].
  rewrite Nat.add_1_r. cbn [getattr_from]. rewrite list_lookup_middle by done.
  destruct (__dict__ c !! name); [done|]. unfold inherited.
  induction (__bases__ c) as [|b bs IHbs]; [done|]. cbn [foldr].
  rewrite getattr_from_prefix by (try done; apply Hbases, list_elem_of_here).
  fold (getattr l b name). rewrite IHbs; [done|].
  intros b' Hb'. apply Hbases. by apply list_elem_of_further.
Qed.

(** The loop over [all_ops] on the dictionary of the new class. *)
Definition refuse (l : list class_obj) (bases : list nat) (declared allowed : list string)
    (d : gmap string attr) (op : string) : gmap string attr :=
  if bool_decide (is_Some (match d !! op with
                           | Some a => Some a
                           | None => inherited l bases op
                           end) ∧ op ∉ declared)
  then <[ op := raise_method_not_allowed allowed ]> d else d.

Lemma refuse_loop (l : list class_obj) (qualname : string) (bases : list nat)
    (declared allowed : list string) (r : list (string * string * nat)) :
  table_ok l → (∀ b, b ∈ bases → b < length l) →
  ∀ (ops : list string) (d : gmap string attr),
    foldl (λ a op,
             if bool_decide (is_Some (getattr (classes a) (length l) op) ∧ op ∉ declared)
             then setattr (length l) op (raise_method_not_allowed allowed) a
             else a)
          {| classes := l ++ [ {| __name__ := qualname; __dict__ := d; __bases__ := bases |} ];
             routes := r |} ops
    = {| classes := l ++ [ {| __name__ := qualname;
                              __dict__ := foldl (refuse l bases declared allowed) d ops;
                              __bases__ := bases |} ];
         routes := r |}.
Proof.
  intros Hok Hbases. induction ops as [|op ops IH]; intros d; [done|].
  cbn [foldl classes]. rewrite getattr_last_class by done. cbn [__dict__ __bases__].
  unfold refuse at 2. case_bool_decide.
  - rewrite setattr_last. unfold with_dict. cbn [__name__ __dict__ __bases__]. apply IH.
  - apply IH.
Qed.

Lemma refuse_lookup_ne (l : list class_obj) (bases : list nat) (declared allowed : list string)
    (d : gmap string attr) (op name : string) :
  name ≠ op → refuse l bases declared allowed d op !! name = d !! name.
Proof. intros Hne. unfold refuse. case_bool_decide; [by apply lookup_insert_ne | done]. Qed.

Lemma refuse_fold_lookup_notin (l : list class_obj) (bases : list nat)
    (declared allowed : list string) (ops : list string) (d : gmap string attr) (name : string) :
  name ∉ ops → foldl (refuse l bases declared allowed) d ops !! name = d !! name.
Proof.
  revert d. induction ops as [|op ops IH]; intros d Hname; [done|].
  apply not_elem_of_cons in Hname as [Hne Hname]. cbn [foldl].
  rewrite IH by done. by apply refuse_lookup_ne.
Qed.

Lemma refuse_fold_lookup (l : list class_obj) (bases : list nat)
    (declared allowed : list string) (ops : list string) (d : gmap string attr) (op : string) :
  NoDup ops → op ∈ ops →
  foldl (refuse l bases declared allowed) d ops !! op
  = if decide (op ∈ declared) then d !! op
    else match d !! op with
         | Some _ => Some (raise_method_not_allowed allowed)
         | None => if decide (is_Some (inherited l bases op))
                   then Some (raise_method_not_allowed allowed) else None
         end.
Proof.
  intros Hnd. revert d. induction Hnd as [|x ops Hx Hnd IH]; intros d Hop.
  - by apply elem_of_nil in Hop.
  - cbn [foldl]. destruct (decide (op = x)) as [-> | Hne].
    + rewrite refuse_fold_lookup_notin by done. unfold refuse.
      destruct (decide (x ∈ declared)) as [Hdecl | Hdecl].
      * rewrite bool_decide_false; [done|]. by intros [_ ?].
      * destruct (d !! x) as [a|] eqn:Hd.
        -- rewrite bool_decide_true by (split; [by eexists | done]). apply lookup_insert_eq.
        -- destruct (decide (is_Some (inherited l bases x))) as [Hinh | Hinh].
           ++ rewrite bool_decide_true by done. apply lookup_insert_eq.
           ++ rewrite bool_decide_false; [done|]. by intros [? _].
    + apply elem_of_cons in Hop as [? | Hop]; [done|].
      rewrite IH by done. by rewrite refuse_lookup_ne.
Qed.

Lemma view_methods_of_proto (qualname : string) (declared : list string) (op : string) :
  (list_to_map ((λ name, (name, proto_attr qualname name)) <$> declared) : gmap string attr) !! op
  = if decide (op ∈ declared) then Some (proto_attr qualname op) else None.
Proof.
  induction declared as [|x declared IH]; cbn [fmap list_fmap list_to_map foldr].
  - rewrite decide_False; [apply lookup_empty | apply not_elem_of_nil].
  - destruct (decide (x = op)) as [-> | Hne].
    + rewrite lookup_insert_eq. rewrite decide_True; [done | apply list_elem_of_here].
    + rewrite lookup_insert_ne by done. rewrite IH.
      destruct (decide (op ∈ declared)) as [Hin | Hnin].
      * rewrite decide_True; [done | by apply list_elem_of_further].
      * rewrite decide_False; [done|]. by intros [? | ?]%elem_of_cons.
Qed.

Lemma all_ops_NoDup : NoDup all_ops.
Proof. apply (bool_decide_unpack _). vm_compute. exact I. Qed.

(** One auxiliary view class, as [add_aux_view] leaves it. *)
Lemma add_aux_view_spec (url : string) (proto : proto_viewcls) (parent : nat) (a : app) :
  table_ok (classes a) → parent < length (classes a) →
  ∃ c, classes (add_aux_view url proto parent a).1 = classes a ++ [ c ]
       ∧ (add_aux_view url proto parent a).2 = length (classes a)
       ∧ __bases__ c = [ parent; AuxViewBase ]
       ∧ table_ok (classes a ++ [ c ])
       ∧ ∀ op, op ∈ all_ops →
           getattr (classes a ++ [ c ]) (length (classes a)) op
           = if decide (op ∈ proto_dict proto) then Some (proto_attr (__qualname__ proto) op)
             else if decide (is_Some (inherited (classes a) [ parent; AuxViewBase ] op))
                  then Some (raise_method_not_allowed
                               (upper <$> filter (λ op, op ∈ proto_dict proto) all_ops))
                  else None.
Proof.
  intros Hok Hparent.
  assert (Hbases : ∀ b, b ∈ [ parent; AuxViewBase ] → b < length (classes a)).
  { intros b [-> | Hb]%elem_of_cons; [done|]. apply list_elem_of_singleton in Hb as ->.
    destruct Hok as [Hlen _]. unfold AuxViewBase. lia. }
  unfold add_aux_view, new_class. cbn [classes routes].
  rewrite setattr_last. unfold with_dict. cbn [__name__ __dict__ __bases__].
  rewrite (refuse_loop (classes a) _ _ _ _ _ Hok Hbases).
  cbn [add_route classes routes fst snd].
  eexists. split; [done|]. split; [done|]. split; [done|].
  assert (Hok' : ∀ c, __bases__ c = [ parent; AuxViewBase ] → table_ok (classes a ++ [ c ])).
  { intros c Hc. destruct Hok as [Hlen Hb]. split; [rewrite length_app; lia|].
    intros i c' b Hi Hin. destruct (decide (i < length (classes a))) as [Hlt | Hge].
    - rewrite lookup_app_l in Hi by done. by apply (Hb i c').
    - pose proof (lookup_lt_Some _ _ _ Hi) as Hi'. rewrite length_app in Hi'. cbn in Hi'.
      assert (i = length (classes a)) as -> by lia.
      rewrite list_lookup_middle in Hi by done. injection Hi as <-.
      rewrite Hc in Hin. by apply Hbases. }
  split; [by apply Hok'|].
  intros op Hop. rewrite getattr_last_class by done. cbn [__dict__ __bases__].
  rewrite (refuse_fold_lookup _ _ _ _ _ _ op all_ops_NoDup Hop).
  assert (Hop' : op ≠ "_perm_options").
  { intros ->. revert Hop. unfold all_ops. set_solver. }
  rewrite lookup_insert_ne by done. rewrite view_methods_of_proto.
  destruct (decide (op ∈ proto_dict proto)); [done|].
  destruct (decide (is_Some (inherited (classes a) [ parent; AuxViewBase ] op)))
    as [Hinh | Hinh]; [done|].
  destruct (inherited (classes a) [ parent; AuxViewBase ] op); [|done].
  exfalso. apply Hinh. by eexists.
Qed.

(** What an auxiliary view resolves for the five operations: its
    prototype's own method where the prototype declares one, and otherwise a
    405 where it would inherit one, and nothing where it would not. *)
Definition refuses_undeclared (tbl : list class_obj) (view : nat) (proto : proto_viewcls)
  : Prop :=
  ∀ op, op ∈ all_ops →
    (op ∈ proto_dict proto →
     getattr tbl view op = Some (proto_attr (__qualname__ proto) op))
    ∧ (op ∉ proto_dict proto →
       getattr tbl view op = None
       ∨ ∃ allowed, getattr tbl view op = Some (raise_method_not_allowed allowed)).

Lemma aux_views_loop_refuse (base : string) (parent : nat)
    (aux_routes : list (string * proto_viewcls)) :
  ∀ (a a' : app) (yielded views : list nat),
    table_ok (classes a) → parent < length (classes a) →
    aux_views_loop base parent aux_routes a yielded = (a', Ok views) →
    ∃ new ext,
      views = yielded ++ new ∧ classes a' = classes a ++ ext ∧ table_ok (classes a')
      ∧ length new = length aux_routes
      ∧ ∀ i item view, aux_routes !! i = Some item → new !! i = Some view →
          refuses_undeclared (classes a') view item.2.
Proof.
  induction aux_routes as [|[routename proto] rest IH]; intros a a' yielded views Hok Hparent.
  - cbn [aux_views_loop]. intros [= <- <-]. exists [], []. rewrite !app_nil_r.
    split; [done|]. split; [done|]. split; [done|]. split; [done|]. by intros [|i] ? ? ?.
  - cbn [aux_views_loop].
    destruct (endswith (normalize_routename routename) "/list/"); [done|].
    destruct (add_aux_view_spec (base +:+ normalize_routename routename) proto parent a
                Hok Hparent) as (c & Hclasses & Hview & Hbases & Hok1 & Hops).
    destruct (add_aux_view (base +:+ normalize_routename routename) proto parent a)
      as [a1 view_cls] eqn:Hadd.
    cbn [fst snd] in Hclasses, Hview. subst view_cls. intros Hloop.
    destruct (IH a1 a' (yielded ++ [ length (classes a) ]) views)
      as (new & ext & -> & Hext & Hok' & Hlen & Hrest);
      [by rewrite Hclasses | rewrite Hclasses, length_app; lia | done |].
    exists (length (classes a) :: new), (c :: ext).
    split; [by rewrite <- app_assoc|].
    split; [by rewrite Hext, Hclasses, <- app_assoc|].
    split; [done|]. split; [cbn; by rewrite Hlen|].
    intros [|i] item view Hitem Hnew; cbn in Hitem, Hnew.
    + injection Hitem as <-. injection Hnew as <-. cbn [snd].
      intros op Hop. rewrite Hext, Hclasses.
      rewrite getattr_prefix by (done || (rewrite length_app; cbn; lia)).
      rewrite (Hops op Hop). split.
      * intros Hin. by rewrite decide_True.
      * intros Hnin. rewrite decide_False by done.
        destruct (decide (is_Some _)); [right; by eexists | by left].
    + by apply (Hrest i).
Qed.

(** An auxiliary view answers each of the five operations with its
    prototype's own method when the prototype declares one; an operation it
    does not declare is answered 405 or not at all, never by the handler of
    the parent view it inherits from. *)
Theorem aux_views_refuse_undeclared_operations (base : string) (parent_cls_view : nat)
    (aux_routes : list (string * proto_viewcls)) (a a' : app) (views : list nat) :
  table_ok (classes a) → parent_cls_view < length (classes a) →
  create_aux_views base parent_cls_view (Some aux_routes) a = (a', Ok views) →
  length views = length aux_routes
  ∧ ∀ i item view, aux_routes !! i = Some item → views !! i = Some view →
      refuses_undeclared (classes a') view item.2.
Proof.
  intros Hok Hparent. unfold create_aux_views, new_class.
  set (a0 := {| classes := classes a ++ _; routes := routes a |}). intros Hloop.
  assert (Hok0 : table_ok (classes a0)).
  { unfold a0. cbn [classes]. destruct Hok as [Hlen Hb]. split; [rewrite length_app; lia|].
    intros i c b Hi Hin. destruct (decide (i < length (classes a))) as [Hlt | Hge].
    - rewrite lookup_app_l in Hi by done. by apply (Hb i c).
    - pose proof (lookup_lt_Some _ _ _ Hi) as Hi'. rewrite length_app in Hi'. cbn in Hi'.
      assert (i = length (classes a)) as -> by lia.
      rewrite list_lookup_middle in Hi by done. injection Hi as <-.
      cbn in Hin. by apply list_elem_of_singleton in Hin as ->. }
  destruct (aux_views_loop_refuse base (length (classes a)) aux_routes a0 a' [] views Hok0)
    as (new & ext & -> & _ & _ & Hlen & Hviews); [| done |].
  - unfold a0. cbn [classes]. rewrite length_app. cbn. lia.
  - by split.
Qed.

Lemma aux_views_refuse_undeclared_operations_witness :
  length [ 6; 7 ] = length [ ("/simpleaux_path/", SimpleAuxView);
                            ("{id}/insert_random_number/",
                             {| __qualname__ := "DrawNumberView"; proto_dict := [ "post" ] |}) ]
  ∧ ∀ i item view,
      [ ("/simpleaux_path/", SimpleAuxView);
        ("{id}/insert_random_number/",
         {| __qualname__ := "DrawNumberView"; proto_dict := [ "post" ] |}) ] !! i = Some item →
      [ 6; 7 ] !! i = Some view →
      refuses_undeclared
        (classes (create_aux_views "/customop/" 2
                    (Some [ ("/simpleaux_path/", SimpleAuxView);
                            ("{id}/insert_random_number/",
                             {| __qualname__ := "DrawNumberView";
                                proto_dict := [ "post" ] |}) ])
                    (build_view canonical_template CustomOpsResource initial_app).1).1)
        view item.2.
Proof.
  apply (aux_views_refuse_undeclared_operations "/customop/" 2 _
           (build_view canonical_template CustomOpsResource initial_app).1).
  - rewrite build_view_eq. cbn zeta. rewrite bool_decide_true by (vm_compute; set_solver).
    cbn [fst classes].
    apply (built_table_ok (classes initial_app) _ [ list_copy_obj 3 ]);
      [exact initial_app_ok | done | by right].
  - vm_compute. lia.
  - vm_refl.
Defined.

End ViewFacts.

(** ** Fields and models ([adjust_fields], [create_model], [core.py]) *)

Module Model.
Import Py.

(** *** The data *)

(** What a field's [metadata] and [default] hold.  A SQLAlchemy type is
    given with its [length] attribute: [None] when it has none (a type
    class such as [sql.Integer], or [JSONB]), [Some None] for
    [sql.String()], [Some (Some n)] for [sql.String(n)]. *)
Inductive value : Type :=
| VNone
| VBool (b : bool)
| VInt (n : Z)
| VStr (s : string)
| VSqlType (name : string) (length : option (option Z))
| VObject (name : string).

#[global] Instance value_eq_dec : EqDecision value.
Proof. solve_decision. Defined.

(** Truth value testing. *)
Definition truthy (v : value) : bool :=
  match v with
  | VNone => false
  | VBool b => b
  | VInt n => negb (n =? 0)%Z
  | VStr s => negb (String.eqb s "")
  | VSqlType _ _ | VObject _ => true
  end.

(** [v.length]; [None] stands for [AttributeError]. *)
Definition length_attr (v : value) : option (option Z) :=
  match v with
  | VSqlType _ length => length
  | _ => None
  end.

Inductive validator : Type :=
| Length (max : option Z)
| Declared (name : string).

(** A marshmallow field as the two functions read and change it:
    [is_String] is [isinstance(colv, fields.String)], [is_iterable] is
    [isinstance(colv, ITERABLE_FIELDS)], [is_Relationship] is
    [isinstance(colv, postschema_fields.Relationship)]; [default] is [None]
    for marshmallow's [missing]. *)
Record mfield : Type := {
  is_String : bool;
  is_iterable : bool;
  is_Relationship : bool;
  required : bool;
  default : option value;
  metadata : gmap string value;
  validators : list validator
}.

Definition with_metadata (f : mfield) (m : gmap string value) : mfield :=
  {| is_String := is_String f; is_iterable := is_iterable f;
     is_Relationship := is_Relationship f; required := required f; default := default f;
     metadata := m; validators := validators f |}.

Definition with_validators (f : mfield) (vs : list validator) : mfield :=
  {| is_String := is_String f; is_iterable := is_iterable f;
     is_Relationship := is_Relationship f; required := required f; default := default f;
     metadata := metadata f; validators := vs |}.

(** What the two functions read and change of a schema class:
    [create_views] is [Meta.create_views] where [Meta] has one, and
    [_post_validation_write_cleaners] lists the field names of the
    [escape_iterable] hooks appended. *)
Record schema_class : Type := {
  __name__ : string;
  __tablename__ : option string;
  __table_args__ : option value;
  create_views : option value;
  _declared_fields : list (string * mfield);
  _post_validation_write_cleaners : list (list string)
}.

(** *** [adjust_fields] *)

(** The [nullable] flag a field is given. *)
Definition nullable_of (colv : mfield) : bool :=
  negb (required colv) || truthy (from_option id (VBool false) (metadata colv !! "primary_key")).

(** The body of the loop of [adjust_fields] on one field object: the
    field as it is left, and whether its name goes to [iterables]. *)
Definition adjust_field (colv : mfield) : mfield * bool :=
  let colv := with_metadata colv (<[ "nullable" := VBool (nullable_of colv) ]> (metadata colv)) in
  if is_String colv then
    match metadata colv !! "sqlfield" with
    | None | Some VNone => (colv, false)
    | Some sqlfield =>
        match length_attr sqlfield with
        | Some max => (with_validators colv (validators colv ++ [ Length max ]), false)
        | None => (colv, false)
        end
    end
  else if is_iterable colv then (colv, negb (is_Relationship colv))
  else (colv, false).

(** [adjust_fields(schema_cls)] *)
Definition adjust_fields (s : schema_class) : schema_class :=
  let adjusted := (λ item, (item.1, adjust_field item.2)) <$> _declared_fields s in
  let iterables := (filter (λ item, item.2.2 = true) adjusted).*1 in
  let omit_me := negb (truthy (from_option id (VBool true) (create_views s))) in
  {| __name__ := __name__ s; __tablename__ := __tablename__ s;
     __table_args__ := __table_args__ s; create_views := create_views s;
     _declared_fields := (λ item, (item.1, item.2.1)) <$> adjusted;
     _post_validation_write_cleaners :=
       if negb omit_me && bool_decide (iterables ≠ [])
       then _post_validation_write_cleaners s ++ [ iterables ]
       else _post_validation_write_cleaners s |}.

(** *** [create_model] *)

(** [sql.Column(field_instance, *args, **kwargs)] *)
Record column : Type := {
  field_instance : value;
  args : list value;
  kwargs : gmap string value
}.

Inductive model_attr : Type :=
| Tablename (name : string)
| TableArgs (v : value)
| Column (c : column).

(** The body of the loop of [create_model] on one field object: the field
    as it is left ([pop] takes [sqlfield] and [autoincrement] out of its
    metadata) and the column made, if one is made.  A keyword given twice
    to [sql.Column] is a [TypeError]. *)
Definition create_column (field_attrs : mfield) : res (mfield * option column) :=
  let popped := from_option id VNone (metadata field_attrs !! "sqlfield") in
  let metadata := delete "sqlfield" (metadata field_attrs) in
  match (if truthy popped then Some popped else metadata !! "fk") with
  | None => Ok (with_metadata field_attrs metadata, None)
  | Some field_instance =>
      if negb (truthy field_instance) then Ok (with_metadata field_attrs metadata, None)
      else
        let translated : gmap string value :=
          match default field_attrs with
          | Some default_value => {[ "server_default" := default_value ]}
          | None => ∅
          end in
        let args := option_list (metadata !! "fk") ++ option_list (metadata !! "autoincrement") in
        let metadata := delete "autoincrement" metadata in
        let metadict := delete "read_only" (delete "fk" metadata) in
        if bool_decide (is_Some (metadict !! "server_default") ∧ is_Some (default field_attrs))
        then Raise TypeError
        else Ok (with_metadata field_attrs metadata,
                 Some {| field_instance := field_instance; args := args;
                         kwargs := translated ∪ metadict |})
  end.

(** The loop of [create_model]: [model_methods] and the fields as they are
    left. *)
Definition create_columns (model_methods : gmap string model_attr)
    (declared_fields : list (string * mfield))
  : res (gmap string model_attr * list (string * mfield)) :=
  foldM (λ (acc : gmap string model_attr * list (string * mfield)) (item : string * mfield),
           r ← create_column item.2;
           Ok (match r.2 with
               | Some c => <[ item.1 := Column c ]> acc.1
               | None => acc.1
               end, acc.2 ++ [ (item.1, r.1) ]))
        (model_methods, []) declared_fields.

(** [create_model(schema_cls, info_logger)] up to the call of [type]: the
    [model_methods] handed to it and the class with its fields as they are
    left.  A class without [__tablename__] fails in [getattr], before the
    [try] can turn a [KeyError] into the function's own message. *)
Definition create_model (s : schema_class) : res (gmap string model_attr * schema_class) :=
  match __tablename__ s with
  | None => Raise AttributeError
  | Some tablename =>
      let model_methods : gmap string model_attr := {[ "__tablename__" := Tablename tablename ]} in
      let model_methods :=
        match __table_args__ s with
        | Some v => <[ "__table_args__" := TableArgs v ]> model_methods
        | None => model_methods
        end in
      r ← create_columns model_methods (_declared_fields s);
      Ok (r.1, {| __name__ := __name__ s; __tablename__ := __tablename__ s;
                  __table_args__ := __table_args__ s; create_views := create_views s;
                  _declared_fields := r.2;
                  _post_validation_write_cleaners := _post_validation_write_cleaners s |})
  end.

(** *** The resources of the mock application *)

Definition id_field : mfield :=
  {| is_String := false; is_iterable := false; is_Relationship := false;
     required := false; default := None;
     metadata := {[ "sqlfield" := VSqlType "Integer" None;
                    "autoincrement" := VObject "Sequence";
                    "read_only" := VBool true; "primary_key" := VBool true ]};
     validators := [] |}.

Definition string_field (n : Z) (required : bool) : mfield :=
  {| is_String := true; is_iterable := false; is_Relationship := false;
     required := required; default := None;
     metadata := {[ "sqlfield" := VSqlType "String" (Some (Some n)) ]};
     validators := [] |}.

Definition list_field : mfield :=
  {| is_String := false; is_iterable := true; is_Relationship := false;
     required := false; default := None;
     metadata := {[ "sqlfield" := VSqlType "JSONB" None ]};
     validators := [] |}.

Definition date_field : mfield :=
  {| is_String := false; is_iterable := false; is_Relationship := false;
     required := false; default := None; metadata := ∅; validators := [] |}.

Definition PlainResource : schema_class :=
  {| __name__ := "PlainResource"; __tablename__ := Some "plainresource";
     __table_args__ := Some (VObject "UniqueConstraint"); create_views := None;
     _declared_fields :=
       [ ("id", id_field); ("name", string_field 30%Z false);
         ("required_field", string_field 30%Z true); ("date", date_field);
         ("list", list_field) ];
     _post_validation_write_cleaners := [] |}.

Example plain_resource_model :
  (create_model (adjust_fields PlainResource) ≫= λ r, Ok (r.1 !! "required_field"))
  = Ok (Some (Column {| field_instance := VSqlType "String" (Some (Some 30%Z)); args := [];
                        kwargs := {[ "nullable" := VBool false ]} |}))
  ∧ (create_model (adjust_fields PlainResource) ≫= λ r, Ok (r.1 !! "id"))
    = Ok (Some (Column {| field_instance := VSqlType "Integer" None;
                          args := [ VObject "Sequence" ];
                          kwargs := {[ "nullable" := VBool true; "primary_key" := VBool true ]} |}))
  ∧ (create_model (adjust_fields PlainResource) ≫= λ r, Ok (r.1 !! "date")) = Ok None
  ∧ _post_validation_write_cleaners (adjust_fields PlainResource) = [ [ "list" ] ].
Proof. repeat split; vm_refl. Qed.

(** *** Facts *)

Lemma adjust_field_metadata (colv : mfield) :
  metadata (adjust_field colv).1 = <[ "nullable" := VBool (nullable_of colv) ]> (metadata colv)
  ∧ default (adjust_field colv).1 = default colv.
Proof.
  unfold adjust_field. cbn [with_metadata is_String is_iterable metadata validators].
  destruct (is_String colv).
  - destruct (_ !! "sqlfield") as [[]|]; try done;
      by destruct (length_attr _).
  - by destruct (is_iterable colv).
Qed.

Lemma adjust_field_iterable (colv : mfield) :
  (adjust_field colv).2 = negb (is_String colv) && is_iterable colv && negb (is_Relationship colv).
Proof.
  unfold adjust_field. cbn [with_metadata is_String is_iterable is_Relationship metadata].
  destruct (is_String colv); cbn [negb andb].
  - destruct (_ !! "sqlfield") as [[]|]; try done; by destruct (length_attr _).
  - by destruct (is_iterable colv).
Qed.

(** The SQL binding of a field: its [sqlfield] when that is true, else its
    [fk] when that is true. *)
Definition sql_binding (f : mfield) : option value :=
  match metadata f !! "sqlfield" with
  | Some v => if truthy v then Some v else
                match metadata f !! "fk" with
                | Some fk => if truthy fk then Some fk else None
                | None => None
                end
  | None =>
      match metadata f !! "fk" with
      | Some fk => if truthy fk then Some fk else None
      | None => None
      end
  end.

Lemma metadict_lookup (m : gmap string value) (k : string) :
  delete "read_only" (delete "fk" (delete "autoincrement" (delete "sqlfield" m))) !! k
  = if decide (k ∈ [ "sqlfield"; "fk"; "read_only"; "autoincrement" ]) then None else m !! k.
Proof.
  destruct (decide (k = "read_only")) as [-> | H1]; [by rewrite lookup_delete_eq|].
  rewrite lookup_delete_ne by done.
  destruct (decide (k = "fk")) as [-> | H2]; [by rewrite lookup_delete_eq|].
  rewrite lookup_delete_ne by done.
  destruct (decide (k = "autoincrement")) as [-> | H3]; [by rewrite lookup_delete_eq|].
  rewrite lookup_delete_ne by done.
  destruct (decide (k = "sqlfield")) as [-> | H4]; [by rewrite lookup_delete_eq|].
  rewrite lookup_delete_ne by done.
  rewrite decide_False; [done|].
  intros Hk. repeat (apply elem_of_cons in Hk as [? | Hk]; [done|]). by apply elem_of_nil in Hk.
Qed.

Lemma create_column_spec (f f' : mfield) (oc : option column) :
  create_column f = Ok (f', oc) →
  metadata f' !! "sqlfield" = None
  ∧ (oc = None → sql_binding f = None ∧ metadata f' = delete "sqlfield" (metadata f))
  ∧ (∀ c, oc = Some c →
       sql_binding f = Some (field_instance c)
       ∧ metadata f' !! "autoincrement" = None
       ∧ metadata f' !! "fk" = metadata f !! "fk"
       ∧ args c = option_list (metadata f !! "fk") ++ option_list (metadata f !! "autoincrement")
       ∧ (∀ k, k ∈ [ "sqlfield"; "fk"; "read_only"; "autoincrement" ] → kwargs c !! k = None)
       ∧ (∀ k, k ∉ [ "sqlfield"; "fk"; "read_only"; "autoincrement"; "server_default" ] →
               kwargs c !! k = metadata f !! k)
       ∧ kwargs c !! "server_default"
         = match default f with
           | Some d => Some d
           | None => metadata f !! "server_default"
           end).
Proof.
  unfold create_column, sql_binding.
  set (popped := from_option id VNone (metadata f !! "sqlfield")).
  rewrite (lookup_delete_ne (metadata f) "sqlfield" "fk") by done.
  assert (Hpop : (if truthy popped then Some popped else metadata f !! "fk")
                 = match metadata f !! "sqlfield" with
                   | Some v => if truthy v then Some v else metadata f !! "fk"
                   | None => metadata f !! "fk"
                   end).
  { unfold popped. destruct (metadata f !! "sqlfield") as [v|]; [done|]. done. }
  rewrite Hpop. clear Hpop popped.
  set (binding := match metadata f !! "sqlfield" with
                  | Some v => if truthy v then Some v else metadata f !! "fk"
                  | None => metadata f !! "fk"
                  end).
  assert (Hbinding : ∀ v, binding = Some v → truthy v = true →
            match metadata f !! "sqlfield" with
            | Some v => if truthy v then Some v else
                          match metadata f !! "fk" with
                          | Some fk => if truthy fk then Some fk else None
                          | None => None
                          end
            | None =>
                match metadata f !! "fk" with
                | Some fk => if truthy fk then Some fk else None
                | None => None
                end
            end = Some v).
  { unfold binding. intros v Hv Htrue.
    destruct (metadata f !! "sqlfield") as [w|].
    - destruct (truthy w) eqn:Hw; [done|]. rewrite Hv. by rewrite Htrue.
    - rewrite Hv. by rewrite Htrue. }
  assert (Hnone : (binding = None ∨ ∃ v, binding = Some v ∧ truthy v = false) →
            match metadata f !! "sqlfield" with
            | Some v => if truthy v then Some v else
                          match metadata f !! "fk" with
                          | Some fk => if truthy fk then Some fk else None
                          | None => None
                          end
            | None =>
                match metadata f !! "fk" with
                | Some fk => if truthy fk then Some fk else None
                | None => None
                end
            end = None).
  { unfold binding. intros [Hb | (v & Hb & Hv)].
    - destruct (metadata f !! "sqlfield") as [w|].
      + destruct (truthy w); [done|]. by rewrite Hb.
      + by rewrite Hb.
    - destruct (metadata f !! "sqlfield") as [w|].
      + destruct (truthy w) eqn:Hw; [congruence|]. rewrite Hb. by rewrite Hv.
      + rewrite Hb. by rewrite Hv. }
  destruct binding as [field_instance|] eqn:Hb.
  2:{ intros [= <- <-]. cbn [with_metadata metadata]. split; [apply lookup_delete_eq|].
      split; [intros _; split; [apply Hnone; by left | done] | done]. }
  destruct (truthy field_instance) eqn:Htruthy; cbn [negb].
  2:{ intros [= <- <-]. cbn [with_metadata metadata]. split; [apply lookup_delete_eq|].
      split; [intros _; split; [apply Hnone; right; by eexists | done] | done]. }
  case_bool_decide as Hclash; [done|]. intros [= <- <-]. cbn [with_metadata metadata].
  split; [by rewrite lookup_delete_ne, lookup_delete_eq|].
  split; [done|]. intros c [= <-]. cbn [Model.field_instance args kwargs].
  split; [by apply Hbinding|]. split; [apply lookup_delete_eq|].
  split; [by rewrite !lookup_delete_ne|].
  split; [by rewrite !lookup_delete_ne|].
  assert (Htranslated : ∀ k, k ≠ "server_default" →
            match default f with
            | Some default_value => ({[ "server_default" := default_value ]} : gmap string value)
            | None => ∅
            end !! k = None).
  { intros k Hk. destruct (default f); [by apply lookup_singleton_ne | apply lookup_empty]. }
  split; [|split].
  - intros k Hk. rewrite lookup_union_r.
    + by rewrite metadict_lookup, decide_True.
    + apply Htranslated. intros ->.
      repeat (apply elem_of_cons in Hk as [? | Hk]; [done|]). by apply elem_of_nil in Hk.
  - intros k Hk. rewrite lookup_union_r.
    + rewrite metadict_lookup, decide_False; [done|]. intros Hin. apply Hk.
      repeat (apply elem_of_cons in Hin as [-> | Hin];
              [repeat first [apply list_elem_of_here | apply list_elem_of_further]|]).
      by apply elem_of_nil in Hin.
    + apply Htranslated. intros ->. apply Hk.
      repeat first [apply list_elem_of_here | apply list_elem_of_further].
  - destruct (default f) as [d|] eqn:Hd.
    + rewrite lookup_union_l'; [apply lookup_singleton_eq | by rewrite lookup_singleton_eq].
    + rewrite lookup_union_r by apply lookup_empty.
      by rewrite metadict_lookup, decide_False
        by (intros Hin; repeat (apply elem_of_cons in Hin as [? | Hin]; [done|]);
            by apply elem_of_nil in Hin).
Qed.

Lemma create_columns_spec (fields : list (string * mfield)) :
  NoDup fields.*1 →
  ∀ (init : gmap string model_attr) (acc : list (string * mfield))
    (model : gmap string model_attr) (fields' : list (string * mfield)),
    foldM (λ (acc : gmap string model_attr * list (string * mfield)) (item : string * mfield),
             r ← create_column item.2;
             Ok (match r.2 with
                 | Some c => <[ item.1 := Column c ]> acc.1
                 | None => acc.1
                 end, acc.2 ++ [ (item.1, r.1) ]))
          (init, acc) fields = Ok (model, fields') →
    ∃ made, fields' = acc ++ made
      ∧ made.*1 = fields.*1
      ∧ (∀ name f, (name, f) ∈ fields →
           ∃ f' oc, create_column f = Ok (f', oc) ∧ (name, f') ∈ made
                    ∧ model !! name = match oc with
                                      | Some c => Some (Column c)
                                      | None => init !! name
                                      end)
      ∧ (∀ name f', (name, f') ∈ made →
           ∃ f oc, (name, f) ∈ fields ∧ create_column f = Ok (f', oc))
      ∧ (∀ name, name ∉ fields.*1 → model !! name = init !! name).
Proof.
  induction fields as [|[name f] fields IH]; intros Hnd init acc model fields' Hrun.
  - cbn in Hrun. injection Hrun as <- <-. exists []. rewrite app_nil_r.
    split; [done|]. split; [done|]. split; [by intros ? ? ?%elem_of_nil|].
    split; [by intros ? ? ?%elem_of_nil | done].
  - cbn [fmap list_fmap fst] in Hnd. apply NoDup_cons in Hnd as [Hname Hnd].
    cbn [foldM fst snd] in Hrun.
    destruct (create_column f) as [[f' oc]|] eqn:Hcol; [|done].
    cbn [mbind res_bind bind fst snd] in Hrun.
    destruct (IH Hnd _ _ _ _ Hrun) as (made & -> & Hnames & Hin & Hback & Hother).
    exists ((name, f') :: made). split; [by rewrite <- app_assoc|].
    split; [cbn [fmap list_fmap fst]; by rewrite Hnames|].
    assert (Hfirst : ∀ name', name' ≠ name →
              match oc with
              | Some c => <[ name := Column c ]> init
              | None => init
              end !! name' = init !! name').
    { intros name' Hne. destruct oc; [by apply lookup_insert_ne | done]. }
    split; [|split].
    + intros name0 f0 [[= -> ->] | Hin0]%elem_of_cons.
      * exists f', oc. split; [done|]. split; [apply list_elem_of_here|].
        rewrite (Hother name Hname). destruct oc; [apply lookup_insert_eq | done].
      * destruct (Hin name0 f0 Hin0) as (f0' & oc0 & Hc0 & Hm0 & Hl0).
        exists f0', oc0. split; [done|]. split; [by apply list_elem_of_further|].
        rewrite Hl0. destruct oc0; [done|]. apply Hfirst. intros ->.
        apply Hname. apply list_elem_of_fmap. by exists (name, f0).
    + intros name0 f0' [[= -> ->] | Hin0]%elem_of_cons.
      * exists f, oc. split; [apply list_elem_of_here | done].
      * destruct (Hback name0 f0' Hin0) as (f0 & oc0 & Hf0 & Hc0).
        exists f0, oc0. split; [by apply list_elem_of_further | done].
    + intros name' Hname'. cbn [fmap list_fmap fst] in Hname'.
      apply not_elem_of_cons in Hname' as [Hne Hname'].
      rewrite (Hother name' Hname'). by apply Hfirst.
Qed.

Lemma create_model_spec (s s' : schema_class) (model : gmap string model_attr) :
  NoDup (_declared_fields s).*1 →
  create_model s = Ok (model, s') →
  (_declared_fields s').*1 = (_declared_fields s).*1
  ∧ (∀ name f, (name, f) ∈ _declared_fields s →
       ∃ f' oc, create_column f = Ok (f', oc) ∧ (name, f') ∈ _declared_fields s'
                ∧ (name ≠ "__tablename__" → name ≠ "__table_args__" →
                   model !! name = Column <$> oc))
  ∧ (∀ name f', (name, f') ∈ _declared_fields s' →
       ∃ f oc, (name, f) ∈ _declared_fields s ∧ create_column f = Ok (f', oc))
  ∧ __tablename__ s' = __tablename__ s ∧ __table_args__ s' = __table_args__ s.
Proof.
  intros Hnd Hrun. unfold create_model in Hrun.
  destruct (__tablename__ s) as [tablename|] eqn:Htab; [|done].
  unfold create_columns in Hrun.
  destruct (foldM _ _ _) as [[m fields']|] eqn:Hloop; [|done].
  cbn [mbind res_bind bind fst snd] in Hrun. injection Hrun as <- <-.
  cbn [_declared_fields Model.__tablename__ Model.__table_args__].
  destruct (create_columns_spec _ Hnd _ _ _ _ Hloop) as (made & -> & Hnames & Hin & Hback & _).
  cbn [app]. split; [done|]. split; [|by split].
  intros name f Hf. destruct (Hin name f Hf) as (f' & oc & Hc & Hm & Hl).
  exists f', oc. split; [done|]. split; [done|]. intros H1 H2. rewrite Hl.
  destruct oc; [done|]. cbn.
  destruct (__table_args__ s); [rewrite lookup_insert_ne by done|]; by apply lookup_singleton_ne.
Qed.

Lemma sql_binding_adjusted (f : mfield) : sql_binding (adjust_field f).1 = sql_binding f.
Proof.
  unfold sql_binding. destruct (adjust_field_metadata f) as [-> _].
  by rewrite !lookup_insert_ne.
Qed.

(** *** Properties *)

(** After [adjust_fields], the model has a column exactly for the fields
    with a SQL binding (a true [sqlfield], else a true [fk]); the column is
    declared nullable exactly when the field is not required or is a
    primary key, and it is never handed the schema-only keys [sqlfield],
    [fk], [read_only] and [autoincrement] as keywords. *)
Theorem columns_are_nullable_unless_required
    (s s' : schema_class) (model : gmap string model_attr) (name : string) (f : mfield) :
  NoDup (_declared_fields s).*1 →
  create_model (adjust_fields s) = Ok (model, s') →
  (name, f) ∈ _declared_fields s →
  name ≠ "__tablename__" → name ≠ "__table_args__" →
  match sql_binding f with
  | Some binding =>
      ∃ c, model !! name = Some (Column c)
           ∧ field_instance c = binding
           ∧ kwargs c !! "nullable"
             = Some (VBool (negb (required f)
                            || truthy (from_option id (VBool false)
                                         (metadata f !! "primary_key"))))
           ∧ (∀ k, k ∈ [ "sqlfield"; "fk"; "read_only"; "autoincrement" ] →
                   kwargs c !! k = None)
  | None => model !! name = None
  end.
Proof.
  intros Hnd Hrun Hf Hn1 Hn2.
  assert (Hnames : (_declared_fields (adjust_fields s)).*1 = (_declared_fields s).*1).
  { unfold adjust_fields. cbn [_declared_fields]. rewrite <- !list_fmap_compose.
    by apply list_fmap_ext. }
  assert (Hadj : (name, (adjust_field f).1) ∈ _declared_fields (adjust_fields s)).
  { unfold adjust_fields. cbn [_declared_fields]. rewrite <- list_fmap_compose.
    apply list_elem_of_fmap. by exists (name, f). }
  destruct (create_model_spec _ _ _ ltac:(by rewrite Hnames) Hrun) as (_ & Hin & _).
  destruct (Hin _ _ Hadj) as (f' & oc & Hcol & _ & Hmodel).
  rewrite (Hmodel Hn1 Hn2).
  destruct (create_column_spec _ _ _ Hcol) as (_ & Hnone & Hsome).
  rewrite sql_binding_adjusted in Hnone, Hsome.
  destruct oc as [c|].
  - destruct (Hsome c eq_refl) as (Hb & _ & _ & _ & Hforbidden & Hkept & _).
    rewrite Hb. exists c. split; [done|]. split; [done|]. split; [|done].
    rewrite Hkept.
    + destruct (adjust_field_metadata f) as [-> _]. by rewrite lookup_insert_eq.
    + intros Hk. repeat (apply elem_of_cons in Hk as [? | Hk]; [done|]).
      by apply elem_of_nil in Hk.
  - destruct (Hnone eq_refl) as [-> _]. done.
Qed.

Lemma columns_are_nullable_unless_required_witness :
  match create_model (adjust_fields PlainResource) with
  | Ok (model, _) =>
      ∃ c, model !! "required_field" = Some (Column c)
           ∧ field_instance c = VSqlType "String" (Some (Some 30%Z))
           ∧ kwargs c !! "nullable" = Some (VBool false)
           ∧ (∀ k, k ∈ [ "sqlfield"; "fk"; "read_only"; "autoincrement" ] →
                   kwargs c !! k = None)
  | Raise _ => False
  end.
Proof.
  destruct (create_model (adjust_fields PlainResource)) as [[model s']|] eqn:Hrun;
    [|by vm_compute in Hrun].
  apply (columns_are_nullable_unless_required PlainResource s' model "required_field"
           (string_field 30 true)).
  - apply (bool_decide_unpack _). vm_compute. exact I.
  - exact Hrun.
  - cbn [PlainResource _declared_fields]. do 2 apply list_elem_of_further.
    apply list_elem_of_here.
  - done.
  - done.
Defined.

(** Building the model takes [sqlfield] out of the field objects it reads.
    A second model built from the same field objects therefore has a column
    only where the field has a true [fk]: the columns bound by [sqlfield]
    alone, which the first model has, are missing from it. *)
Theorem create_model_uses_up_sqlfield
    (s s1 s2 : schema_class) (model1 model2 : gmap string model_attr)
    (name : string) (f : mfield) :
  NoDup (_declared_fields s).*1 →
  create_model s = Ok (model1, s1) →
  create_model s1 = Ok (model2, s2) →
  (name, f) ∈ _declared_fields s →
  name ≠ "__tablename__" → name ≠ "__table_args__" →
  Forall (λ item, metadata item.2 !! "sqlfield" = None) (_declared_fields s1)
  ∧ (is_Some (model1 !! name) ↔ is_Some (sql_binding f))
  ∧ (is_Some (model2 !! name) ↔ ∃ fk, metadata f !! "fk" = Some fk ∧ truthy fk = true).
Proof.
  intros Hnd Hrun1 Hrun2 Hf Hn1 Hn2.
  destruct (create_model_spec _ _ _ Hnd Hrun1) as (Hnames & Hin & Hback & _).
  assert (Hsome : ∀ g g' oc, create_column g = Ok (g', oc) → is_Some oc ↔ is_Some (sql_binding g)).
  { intros g g' oc Hc. destruct (create_column_spec _ _ _ Hc) as (_ & Hnone & Hmade).
    destruct oc as [c|].
    - destruct (Hmade c eq_refl) as [-> _]. by split.
    - destruct (Hnone eq_refl) as [-> _]. by split. }
  split; [|split].
  - apply Forall_forall. intros [name' f'] Hin'.
    destruct (Hback _ _ Hin') as (g & oc & _ & Hc).
    by destruct (create_column_spec _ _ _ Hc) as (? & _).
  - destruct (Hin _ _ Hf) as (f1 & oc & Hc & _ & Hmodel).
    rewrite (Hmodel Hn1 Hn2), fmap_is_Some. by apply (Hsome f f1).
  - destruct (Hin _ _ Hf) as (f1 & oc & Hc & Hf1 & _).
    destruct (create_model_spec _ _ _ ltac:(by rewrite Hnames) Hrun2) as (_ & Hin2 & _).
    destruct (Hin2 _ _ Hf1) as (f2 & oc2 & Hc2 & _ & Hmodel2).
    rewrite (Hmodel2 Hn1 Hn2), fmap_is_Some, (Hsome f1 f2 oc2 Hc2).
    destruct (create_column_spec _ _ _ Hc) as (Hsql & Hnone & Hmade).
    assert (Hfk : metadata f1 !! "fk" = metadata f !! "fk").
    { destruct oc as [c|].
      - by destruct (Hmade c eq_refl) as (_ & _ & ? & _).
      - destruct (Hnone eq_refl) as [_ ->]. by rewrite lookup_delete_ne. }
    unfold sql_binding. rewrite Hsql, Hfk.
    destruct (metadata f !! "fk") as [fk|]; [|split; [by intros [? ?] | by intros (? & ? & _)]].
    destruct (truthy fk) eqn:Hfkt.
    + split; [intros _; by exists fk | by eexists].
    + split; [by intros [? ?] | intros (? & [= <-] & ?); congruence].
Qed.

Lemma create_model_uses_up_sqlfield_witness :
  match create_model PlainResource with
  | Ok (model1, s1) =>
      match create_model s1 with
      | Ok (model2, _) =>
          Forall (λ item, metadata item.2 !! "sqlfield" = None) (_declared_fields s1)
          ∧ (is_Some (model1 !! "name") ↔ is_Some (sql_binding (string_field 30 false)))
          ∧ (is_Some (model2 !! "name")
             ↔ ∃ fk, metadata (string_field 30 false) !! "fk" = Some fk ∧ truthy fk = true)
      | Raise _ => False
      end
  | Raise _ => False
  end.
Proof.
  destruct (create_model PlainResource) as [[model1 s1]|] eqn:Hrun1; [|by vm_compute in Hrun1].
  destruct (create_model s1) as [[model2 s2]|] eqn:Hrun2.
  - apply (create_model_uses_up_sqlfield PlainResource s1 s2 model1 model2 "name"
             (string_field 30 false)).
    + apply (bool_decide_unpack _). vm_compute. exact I.
    + exact Hrun1.
    + exact Hrun2.
    + cbn [PlainResource _declared_fields]. apply list_elem_of_further, list_elem_of_here.
    + done.
    + done.
  - assert (Hs1 : Ok (model1, s1) = create_model PlainResource) by done.
    vm_compute in Hs1. injection Hs1 as -> ->. by vm_compute in Hrun2.
Defined.

(** The names [adjust_fields] collects in [iterables]. *)
Definition iterables_of (fields : list (string * mfield)) : list string :=
  (filter (λ item : string * (mfield * bool), item.2.2 = true)
          ((λ item : string * mfield, (item.1, adjust_field item.2)) <$> fields)).*1.

(** The field is a list or set field that is neither a string nor a
    relationship. *)
Definition escaped (fields : list (string * mfield)) (k : string) : Prop :=
  ∃ f, (k, f) ∈ fields ∧ is_String f = false ∧ is_iterable f = true
       ∧ is_Relationship f = false.

Lemma iterables_of_spec (fields : list (string * mfield)) :
  NoDup fields.*1 →
  NoDup (iterables_of fields) ∧ ∀ k, k ∈ iterables_of fields ↔ escaped fields k.
Proof.
  unfold iterables_of, escaped. induction fields as [|[name f] fields IH]; intros Hnd.
  - split; [constructor|]. intros k. split; [by intros ?%elem_of_nil|].
    by intros (f & ?%elem_of_nil & _).
  - cbn [fmap list_fmap fst snd] in Hnd |- *. apply NoDup_cons in Hnd as [Hname Hnd].
    destruct (IH Hnd) as [IHnd IHin].
    assert (Hflag : (adjust_field f).2 = true ↔
                    is_String f = false ∧ is_iterable f = true ∧ is_Relationship f = false).
    { rewrite adjust_field_iterable.
      destruct (is_String f), (is_iterable f), (is_Relationship f); cbn; naive_solver. }
    destruct (decide ((adjust_field f).2 = true)) as [Hyes | Hno].
    + rewrite filter_cons_True by done. cbn [fmap list_fmap fst]. split.
      * apply NoDup_cons. split; [|done]. intros Hin. apply IHin in Hin as (g & Hg & _).
        apply Hname. apply list_elem_of_fmap. by exists (name, g).
      * intros k. rewrite elem_of_cons, IHin. split.
        -- intros [-> | (g & Hg & H)].
           ++ exists f. split; [apply list_elem_of_here | by apply Hflag].
           ++ exists g. split; [by apply list_elem_of_further | done].
        -- intros (g & [[= -> ->] | Hg]%elem_of_cons & H); [by left|].
           right. by exists g.
    + rewrite filter_cons_False by done. split; [done|].
      intros k. rewrite IHin. split.
      * intros (g & Hg & H). exists g. split; [by apply list_elem_of_further | done].
      * intros (g & [[= -> ->] | Hg]%elem_of_cons & H); [by apply Hflag in H|].
        by exists g.
Qed.

(** [adjust_fields] installs at most one write cleaner, and none for a
    class without views or without list or set fields of its own; the
    cleaner wraps in [Json] exactly the list and set fields of the payload
    that are neither strings nor relationships, once each, and leaves every
    other entry alone. *)
Theorem write_cleaner_wraps_iterable_fields
    (s : schema_class) {V : Type} (Json : V → V) (payload : gmap string V) :
  NoDup (_declared_fields s).*1 →
  _post_validation_write_cleaners s = [] →
  let cleaners := _post_validation_write_cleaners (adjust_fields s) in
  (cleaners = [] ∨ cleaners = [ iterables_of (_declared_fields s) ])
  ∧ (cleaners = [] ↔
     truthy (from_option id (VBool true) (create_views s)) = false
     ∨ ∀ k, ¬ escaped (_declared_fields s) k)
  ∧ (∀ hook k, hook ∈ cleaners →
       (escaped (_declared_fields s) k →
        Hooks.escape_iterable Json hook payload !! k = Json <$> payload !! k)
       ∧ (¬ escaped (_declared_fields s) k →
          Hooks.escape_iterable Json hook payload !! k = payload !! k)).
Proof.
  intros Hnd Hempty. cbn zeta. unfold adjust_fields. cbn [_post_validation_write_cleaners].
  rewrite Hempty. cbn [app].
  fold (iterables_of (_declared_fields s)).
  destruct (iterables_of_spec _ Hnd) as [Hnodup Hin].
  set (its := iterables_of (_declared_fields s)) in *.
  rewrite negb_involutive.
  destruct (truthy (from_option id (VBool true) (create_views s))) eqn:Hviews; cbn [andb].
  - case_bool_decide as Hits.
    + split; [by right|]. split.
      * split; [done|]. intros [? | Hnone]; [done|]. exfalso. apply Hits.
        destruct its as [|k its'] eqn:E; [done|]. exfalso.
        apply (Hnone k), Hin. apply list_elem_of_here.
      * intros hook k ->%list_elem_of_singleton. split.
        -- intros Hk%Hin. by rewrite Hooks.escape_iterable_lookup, Hooks.times_listed_once.
        -- intros Hk. rewrite Hooks.escape_iterable_lookup, Hooks.times_listed_notin.
           ++ by destruct (payload !! k).
           ++ by intros ?%Hin.
    + split; [by left|]. split.
      * split; [|done]. intros _. right. intros k Hk%Hin.
        rewrite Hits in Hk. by apply elem_of_nil in Hk.
      * by intros hook k ?%elem_of_nil.
  - split; [by left|]. split; [split; [by left | done]|]. by intros hook k ?%elem_of_nil.
Qed.

Lemma write_cleaner_wraps_iterable_fields_witness :
  let cleaners := _post_validation_write_cleaners (adjust_fields PlainResource) in
  (cleaners = [] ∨ cleaners = [ iterables_of (_declared_fields PlainResource) ])
  ∧ (cleaners = [] ↔
     truthy (from_option id (VBool true) (create_views PlainResource)) = false
     ∨ ∀ k, ¬ escaped (_declared_fields PlainResource) k)
  ∧ (∀ hook k, hook ∈ cleaners →
       (escaped (_declared_fields PlainResource) k →
        Hooks.escape_iterable (λ v, "Json(" +:+ v +:+ ")") hook {[ "list" := "[1, 2]" ]} !! k
        = (λ v, "Json(" +:+ v +:+ ")") <$> ({[ "list" := "[1, 2]" ]} : gmap string string) !! k)
       ∧ (¬ escaped (_declared_fields PlainResource) k →
          Hooks.escape_iterable (λ v, "Json(" +:+ v +:+ ")") hook {[ "list" := "[1, 2]" ]} !! k
          = ({[ "list" := "[1, 2]" ]} : gmap string string) !! k)).
Proof.
  apply (write_cleaner_wraps_iterable_fields PlainResource (λ v, "Json(" +:+ v +:+ ")")
           {[ "list" := "[1, 2]" ]}).
  - apply (bool_decide_unpack _). vm_compute. exact I.
  - reflexivity.
Defined.

End Model.
